(** * mcp-multi-ssh: the SSH session and the session pool

    A shallow embedding of [SSHConnection] and [SSHConnectionPool]
    (utils/ssh.ts) as transformers of an explicit world state, and the
    properties of the connection lifecycle proved over it.

    The program is event driven: it runs on the single-threaded Node.js
    event loop.  One [step] of the model is one macrotask -- a call made by
    the tool layer, an event emitted by an ssh2 client or channel, the
    completion of [fs.readFile], or a timer firing -- together with the
    promise continuations it releases.  Objects live in heaps (lists indexed
    by reference); closures are defunctionalised into [Listener],
    [TimerCallback] and [Kont].

    What the collaborators do is not constrained beyond their interfaces:
    a client may emit any event at any time, a pending timer may fire at any
    time, and [Date.now()] is a parameter of every step. *)

From Stdlib Require Import ZArith String Ascii List Bool Lia DecimalString.
From stdpp Require Import base option list strings.

Open Scope string_scope.

(** ** Data model *)

(** types/config.ts, [SSHConnectionConfig].  Optional fields are [option]s. *)
Record SSHConnectionConfig := {
  host : string;
  port : Z;
  username : string;
  privateKeyPath : option string;
  password : option string;
  keepaliveInterval : option Z;
  keepaliveCountMax : option Z;
  readyTimeout : option Z
}.

(** A JavaScript [Error]; only its message is observed. *)
Record JsError := { message : string }.

(** References into the heaps of the world. *)
Abbreviation SessRef := nat (only parsing).
Abbreviation ClientRef := nat (only parsing).
Abbreviation TimerRef := nat (only parsing).
Abbreviation StreamRef := nat (only parsing).
Abbreviation CallRef := nat (only parsing).

(** The fields of [SSHConnection] (ssh.ts lines 6-11). *)
Record SSHConnection := {
  client : option ClientRef;
  config : SSHConnectionConfig;
  isConnected : bool;
  reconnectTimer : option TimerRef;
  lastActivity : Z;
  commandTimeout : Z
}.

(** The object handed to [client.connect] (the [cfg] of lines 48-63). *)
Inductive Credential :=
| PrivateKey (key : string)
| Password (pw : string).

Record ConnectCfg := {
  cfg_host : string;
  cfg_port : Z;
  cfg_username : string;
  cfg_keepaliveInterval : Z;
  cfg_keepaliveCountMax : Z;
  cfg_readyTimeout : Z;
  cfg_auth : Credential
}.

(** What the tool layer finally observes of a call it made. *)
Inductive Outcome :=
| ResolvedVoid
| ResolvedSession (s : SessRef)
| ResolvedExec (output : string) (exitCode : Z)
| Rejected (e : JsError).

(** Who awaits the promise returned by [connect()]:
    - [KSwallow]: the reconnect timer, [this.connect().catch(() => {})];
    - [KCaller r]: a caller awaiting [connect()] directly;
    - [KGet r]: [pool.get], which then returns the session;
    - [KExec r command]: [exec], which then opens the command channel. *)
Inductive Kont :=
| KSwallow
| KCaller (r : CallRef)
| KGet (r : CallRef)
| KExec (r : CallRef) (command : string).

Inductive PromiseState :=
| Pending
| Fulfilled
| RejectedWith (e : JsError).

(** One invocation of [connect()]: its [this], its promise and the
    awaiter. *)
Record ConnectCall := {
  cc_session : SessRef;
  cc_kont : Kont;
  cc_state : PromiseState
}.

(** Event subscriptions on an ssh2 client.  The first three are the
    long-lived handlers of lines 39-46; the last two are [onReady] and
    [onError] of lines 66-67, which belong to the [connect()] call [p]. *)
Inductive Listener :=
| OnLostError (s : SessRef)
| OnLostEnd (s : SessRef)
| OnLostClose (s : SessRef)
| OnceReady (p : nat)
| OnceError (p : nat).

Record Client := { listeners : list Listener }.

Inductive TimerCallback :=
| TReconnect (s : SessRef)
| TExecTimeout (st : StreamRef).

Record Timer := {
  callback : TimerCallback;
  delay : Z;
  armed : bool
}.

(** The promise created at line 79 by one [exec] call, with what its
    closures capture ([this], [timeout]); [ex_called] records that the
    callback of [client.exec] has been invoked. *)
Record ExecCall := {
  ex_session : SessRef;
  ex_call : CallRef;
  ex_timeout : Z;
  ex_called : bool;
  ex_settled : bool
}.

(** A command channel with the variables of lines 82-83; [st_closed]
    records that the channel has emitted ['close']. *)
Record Stream := {
  st_exec : nat;
  st_timer : TimerRef;
  out : string;
  errOut : string;
  st_closed : bool
}.

(** A [connect()] suspended at [await fs.readFile] (line 58). *)
Record PendingRead := {
  rd_client : ClientRef;
  rd_config : SSHConnectionConfig;
  rd_connect : nat;
  rd_done : bool
}.

(** Calls made on collaborators, newest first. *)
Inductive Effect :=
| ELog (msg : string)
| EReadFile (path : string)
| EOpen (c : ClientRef) (cfg : ConnectCfg)
| EEnd (c : ClientRef)
| EExecOpen (c : ClientRef) (command : string)
| EStreamClose (st : StreamRef).

(** The world: the heaps, the pool's [connections] map (a JavaScript [Map]
    keeps insertion order, hence an association list), the pool's
    [commandTimeout], the outcome of every call made so far and the log of
    effects. *)
Record World := {
  sessions : list SSHConnection;
  clients : list Client;
  timers : list Timer;
  streams : list Stream;
  reads : list PendingRead;
  execs : list ExecCall;
  connects : list ConnectCall;
  connections : list (string * SessRef);
  poolTimeout : Z;
  outcomes : list (option Outcome);
  effects : list Effect
}.

(** The default value of the [commandTimeout] parameter of both
    constructors (lines 13 and 111). *)
Definition default_commandTimeout : Z := 60000.

(** [new SSHConnectionPool(commandTimeout)], lines 108-111, in a process
    that has done nothing else yet; [None] is an omitted argument. *)
Definition init (timeout : option Z) : World :=
  {| sessions := []; clients := []; timers := []; streams := [];
     reads := []; execs := []; connects := []; connections := [];
     poolTimeout := default default_commandTimeout timeout;
     outcomes := []; effects := [] |}.

(** ** JavaScript truthiness *)

(** [x || d] on an optional number: [undefined] and [0] are falsy. *)
Definition or_default (x : option Z) (d : Z) : Z :=
  match x with
  | Some v => if (v =? 0)%Z then d else v
  | None => d
  end.

(** An optional string used as a condition: [undefined] and the empty
    string are falsy. *)
Definition truthy (x : option string) : option string :=
  match x with
  | Some EmptyString => None
  | Some v => Some v
  | None => None
  end.

(** [a || b] on strings. *)
Definition or_string (a b : string) : string :=
  match a with
  | EmptyString => b
  | _ => a
  end.

(** [`${n}`] for an integral number. *)
Definition show (n : Z) : string := NilZero.string_of_int (Z.to_int n).

(** ** World updates *)

Definition set_sessions (x : list SSHConnection) (w : World) : World :=
  {| sessions := x; clients := clients w; timers := timers w;
     streams := streams w; reads := reads w; execs := execs w;
     connects := connects w; connections := connections w; poolTimeout := poolTimeout w;
     outcomes := outcomes w; effects := effects w |}.

Definition set_clients (x : list Client) (w : World) : World :=
  {| sessions := sessions w; clients := x; timers := timers w;
     streams := streams w; reads := reads w; execs := execs w;
     connects := connects w; connections := connections w; poolTimeout := poolTimeout w;
     outcomes := outcomes w; effects := effects w |}.

Definition set_timers (x : list Timer) (w : World) : World :=
  {| sessions := sessions w; clients := clients w; timers := x;
     streams := streams w; reads := reads w; execs := execs w;
     connects := connects w; connections := connections w; poolTimeout := poolTimeout w;
     outcomes := outcomes w; effects := effects w |}.

Definition set_streams (x : list Stream) (w : World) : World :=
  {| sessions := sessions w; clients := clients w; timers := timers w;
     streams := x; reads := reads w; execs := execs w;
     connects := connects w; connections := connections w; poolTimeout := poolTimeout w;
     outcomes := outcomes w; effects := effects w |}.

Definition set_reads (x : list PendingRead) (w : World) : World :=
  {| sessions := sessions w; clients := clients w; timers := timers w;
     streams := streams w; reads := x; execs := execs w;
     connects := connects w; connections := connections w; poolTimeout := poolTimeout w;
     outcomes := outcomes w; effects := effects w |}.

Definition set_execs (x : list ExecCall) (w : World) : World :=
  {| sessions := sessions w; clients := clients w; timers := timers w;
     streams := streams w; reads := reads w; execs := x;
     connects := connects w; connections := connections w; poolTimeout := poolTimeout w;
     outcomes := outcomes w; effects := effects w |}.

Definition set_connects (x : list ConnectCall) (w : World) : World :=
  {| sessions := sessions w; clients := clients w; timers := timers w;
     streams := streams w; reads := reads w; execs := execs w;
     connects := x; connections := connections w; poolTimeout := poolTimeout w;
     outcomes := outcomes w; effects := effects w |}.

Definition set_connections (x : list (string * SessRef)) (w : World) : World :=
  {| sessions := sessions w; clients := clients w; timers := timers w;
     streams := streams w; reads := reads w; execs := execs w;
     connects := connects w; connections := x; poolTimeout := poolTimeout w;
     outcomes := outcomes w; effects := effects w |}.

Definition set_outcomes (x : list (option Outcome)) (w : World) : World :=
  {| sessions := sessions w; clients := clients w; timers := timers w;
     streams := streams w; reads := reads w; execs := execs w;
     connects := connects w; connections := connections w; poolTimeout := poolTimeout w;
     outcomes := x; effects := effects w |}.

Definition emit_effect (e : Effect) (w : World) : World :=
  {| sessions := sessions w; clients := clients w; timers := timers w;
     streams := streams w; reads := reads w; execs := execs w;
     connects := connects w; connections := connections w;
     poolTimeout := poolTimeout w; outcomes := outcomes w;
     effects := e :: effects w |}.

(** Field updates of one session. *)
Definition with_client (x : option ClientRef) (c : SSHConnection) : SSHConnection :=
  {| client := x; config := config c; isConnected := isConnected c;
     reconnectTimer := reconnectTimer c; lastActivity := lastActivity c;
     commandTimeout := commandTimeout c |}.

Definition with_isConnected (x : bool) (c : SSHConnection) : SSHConnection :=
  {| client := client c; config := config c; isConnected := x;
     reconnectTimer := reconnectTimer c; lastActivity := lastActivity c;
     commandTimeout := commandTimeout c |}.

Definition with_reconnectTimer (x : option TimerRef) (c : SSHConnection) : SSHConnection :=
  {| client := client c; config := config c; isConnected := isConnected c;
     reconnectTimer := x; lastActivity := lastActivity c;
     commandTimeout := commandTimeout c |}.

Definition with_lastActivity (x : Z) (c : SSHConnection) : SSHConnection :=
  {| client := client c; config := config c; isConnected := isConnected c;
     reconnectTimer := reconnectTimer c; lastActivity := x;
     commandTimeout := commandTimeout c |}.

(** [this.<field> = ...] on the session at [s]. *)
Definition update_session (s : SessRef) (f : SSHConnection → SSHConnection)
    (w : World) : World :=
  set_sessions (alter f s (sessions w)) w.

(** ** Collaborators: event emitter, timers, promises *)

(** [new Client()]; the reference returned is [length (clients w)]. *)
Definition new_client (ls : list Listener) (w : World) : World :=
  set_clients (clients w ++ [{| listeners := ls |}]) w.

Definition add_listeners (c : ClientRef) (ls : list Listener) (w : World) : World :=
  set_clients (alter (λ cl, {| listeners := listeners cl ++ ls |}) c (clients w)) w.

Definition removeAllListeners (c : ClientRef) (w : World) : World :=
  set_clients (alter (λ _, {| listeners := [] |}) c (clients w)) w.

(** [l] is [onReady] or [onError] of the [connect()] call [p]. *)
Definition settles (p : nat) (l : Listener) : bool :=
  match l with
  | OnceReady q | OnceError q => Nat.eqb p q
  | _ => false
  end.

(** [cleanup] of line 68: both [removeListener] calls. *)
Definition cleanup (p : nat) (c : ClientRef) (w : World) : World :=
  set_clients
    (alter (λ cl, {| listeners := filter (λ l, ¬ settles p l) (listeners cl) |})
           c (clients w)) w.

(** [setTimeout(cb, d)]; the handle returned is [length (timers w)]. *)
Definition setTimeout (cb : TimerCallback) (d : Z) (w : World) : World :=
  set_timers (timers w ++ [{| callback := cb; delay := d; armed := true |}]) w.

Definition disarm (tm : Timer) : Timer :=
  {| callback := callback tm; delay := delay tm; armed := false |}.

Definition clearTimeout (t : TimerRef) (w : World) : World :=
  set_timers (alter disarm t (timers w)) w.

(** A call by the tool layer starts; its reference is
    [length (outcomes w)]. *)
Definition new_call (w : World) : World :=
  set_outcomes (outcomes w ++ [None]) w.

(** The promise handed to the tool layer for call [r] settles; a promise
    settles once. *)
Definition settle (r : CallRef) (o : Outcome) (w : World) : World :=
  match outcomes w !! r with
  | Some None => set_outcomes (<[r := Some o]> (outcomes w)) w
  | _ => w
  end.

Definition outcome (r : CallRef) (w : World) : option Outcome :=
  mjoin (outcomes w !! r).

(** ** SSHConnection *)

(** [isActive()], line 104. *)
Definition isActive (this : SSHConnection) : bool :=
  isConnected this && bool_decide (client this ≠ None).

(** The constructor, lines 13-16, with the field initialisers of lines 6-10. *)
Definition new_SSHConnection (now : Z) (cfg : SSHConnectionConfig)
    (timeout : option Z) : SSHConnection :=
  {| client := None; config := cfg; isConnected := false;
     reconnectTimer := None; lastActivity := now;
     commandTimeout := default default_commandTimeout timeout |}.

(** [scheduleReconnect()], lines 18-26. *)
Definition scheduleReconnect (now : Z) (s : SessRef) (w : World) : World :=
  match sessions w !! s with
  | None => w
  | Some this =>
      let w1 := match reconnectTimer this with
                | Some t => clearTimeout t w
                | None => w
                end in
      let idle := (now - lastActivity this)%Z in
      if (idle <? 30 * 60 * 1000)%Z then
        update_session s (with_reconnectTimer (Some (length (timers w1))))
          (setTimeout (TReconnect s) 5000 w1)
      else w1
  end.

Definition null_client_error : JsError :=
  {| message := "Cannot read properties of null (reading 'exec')" |}.

(** The body of [exec] after [await this.connect()], lines 76-80: the
    promise is created and the channel is requested.  [this.client!] is
    unchecked: on [null] the property access throws a TypeError, which
    rejects the call. *)
Definition exec_open (r : CallRef) (s : SessRef) (command : string) (w : World) : World :=
  match sessions w !! s with
  | None => w
  | Some this =>
      match client this with
      | None => settle r (Rejected null_client_error) w
      | Some c =>
          emit_effect (EExecOpen c command)
            (set_execs (execs w ++ [{| ex_session := s; ex_call := r;
                                       ex_timeout := commandTimeout this;
                                       ex_called := false;
                                       ex_settled := false |}]) w)
      end
  end.

(** The awaiter of the promise of a [connect()] on session [s] runs
    ([None]: the promise was fulfilled; [Some e]: it was rejected with [e]). *)
Definition resume (s : SessRef) (k : Kont) (res : option JsError) (w : World) : World :=
  match k, res with
  | KSwallow, _ => w
  | KCaller r, None => settle r ResolvedVoid w
  | KGet r, None => settle r (ResolvedSession s) w
  | KExec r command, None => exec_open r s command w
  | KCaller r, Some e | KGet r, Some e | KExec r _, Some e => settle r (Rejected e) w
  end.

Definition settled (res : option JsError) (cc : ConnectCall) : ConnectCall :=
  {| cc_session := cc_session cc; cc_kont := cc_kont cc;
     cc_state := match res with None => Fulfilled | Some e => RejectedWith e end |}.

(** The promise of the [connect()] call [p] settles; a promise settles
    once. *)
Definition settle_connect (p : nat) (res : option JsError) (w : World) : World :=
  match connects w !! p with
  | Some cc =>
      match cc_state cc with
      | Pending =>
          resume (cc_session cc) (cc_kont cc) res
            (set_connects (alter (settled res) p (connects w)) w)
      | _ => w
      end
  | None => w
  end.

(** The [cfg] object of lines 48-55 with the credential of lines 57-60. *)
Definition make_cfg (d : SSHConnectionConfig) (a : Credential) : ConnectCfg :=
  {| cfg_host := host d; cfg_port := port d; cfg_username := username d;
     cfg_keepaliveInterval := or_default (keepaliveInterval d) 10000;
     cfg_keepaliveCountMax := or_default (keepaliveCountMax d) 3;
     cfg_readyTimeout := or_default (readyTimeout d) 20000;
     cfg_auth := a |}.

(** Lines 65-70: [onReady] and [onError] are subscribed with [once] and the
    transport is opened. *)
Definition connect_open (p : nat) (c : ClientRef) (cfg : ConnectCfg) (w : World)
    : World :=
  emit_effect (EOpen c cfg) (add_listeners c [OnceReady p; OnceError p] w).

Definition no_auth_error : JsError :=
  {| message := "No auth method: need password or privateKeyPath" |}.

(** [connect()], lines 28-71, up to its first suspension; the call is
    [length (connects w)]. *)
Definition connect (s : SessRef) (k : Kont) (w : World) : World :=
  let p := length (connects w) in
  let w0 := set_connects (connects w ++ [{| cc_session := s; cc_kont := k;
                                            cc_state := Pending |}]) w in
  match sessions w0 !! s with
  | None => w0
  | Some this =>
      if isConnected this then settle_connect p None w0
      else
        let w1 := match client this with
                  | Some old => emit_effect (EEnd old) (removeAllListeners old w0)
                  | None => w0
                  end in
        let c := length (clients w1) in
        let w2 := update_session s (with_client (Some c))
                    (new_client [OnLostError s; OnLostEnd s; OnLostClose s] w1) in
        match truthy (privateKeyPath (config this)) with
        | Some path =>
            emit_effect (EReadFile path)
              (set_reads (reads w2 ++ [{| rd_client := c; rd_config := config this;
                                          rd_connect := p; rd_done := false |}]) w2)
        | None =>
            match truthy (password (config this)) with
            | Some pw => connect_open p c (make_cfg (config this) (Password pw)) w2
            | None => settle_connect p (Some no_auth_error) w2
            end
        end
  end.

(** [disconnect()], lines 98-102. *)
Definition disconnect (s : SessRef) (w : World) : World :=
  match sessions w !! s with
  | None => w
  | Some this =>
      let w1 := match reconnectTimer this with
                | Some t => update_session s (with_reconnectTimer None) (clearTimeout t w)
                | None => w
                end in
      let w2 := match client this with
                | Some c => update_session s (with_client None)
                              (emit_effect (EEnd c) (removeAllListeners c w1))
                | None => w1
                end in
      update_session s (with_isConnected false) w2
  end.

(** [exec(command)], lines 73-75, up to its first suspension. *)
Definition exec (now : Z) (s : SessRef) (command : string) (w : World) : World :=
  let r := length (outcomes w) in
  let w1 := update_session s (with_lastActivity now) (new_call w) in
  match sessions w1 !! s with
  | None => w1
  | Some this =>
      if negb (isConnected this) || bool_decide (client this = None)
      then connect s (KExec r command) w1
      else exec_open r s command w1
  end.

(** ** Events of an ssh2 client *)

Inductive ClientEvent :=
| EvReady
| EvError (e : JsError)
| EvEnd
| EvClose.

(** [l] is subscribed to the event [ev]. *)
Definition listens (ev : ClientEvent) (l : Listener) : bool :=
  match ev, l with
  | EvReady, OnceReady _ => true
  | EvError _, OnLostError _ => true
  | EvError _, OnceError _ => true
  | EvEnd, OnLostEnd _ => true
  | EvClose, OnLostClose _ => true
  | _, _ => false
  end.

Definition is_once (l : Listener) : bool :=
  match l with
  | OnceReady _ | OnceError _ => true
  | _ => false
  end.

(** The common part of the three long-lived handlers:
    [this.isConnected = false; this.scheduleReconnect()]. *)
Definition lost (now : Z) (s : SessRef) (w : World) : World :=
  scheduleReconnect now s (update_session s (with_isConnected false) w).

Definition ssh_error_line (w : World) (s : SessRef) (e : JsError) : string :=
  match sessions w !! s with
  | Some this => "SSH error [" +:+ host (config this) +:+ "]: " +:+ message e
  | None => ""
  end.

(** The body of one listener of client [c], run for the event [ev]. *)
Definition handle (now : Z) (c : ClientRef) (ev : ClientEvent) (l : Listener)
    (w : World) : World :=
  match l, ev with
  | OnLostError s, EvError e => lost now s (emit_effect (ELog (ssh_error_line w s e)) w)
  | OnLostEnd s, _ => lost now s w
  | OnLostClose s, _ => lost now s w
  | OnceReady p, _ =>
      match connects w !! p with
      | Some cc =>
          settle_connect p None
            (update_session (cc_session cc)
               (λ this, with_lastActivity now (with_isConnected true this))
               (cleanup p c w))
      | None => w
      end
  | OnceError p, EvError e => settle_connect p (Some e) (cleanup p c w)
  | _, _ => w
  end.

(** [c.emit(ev)]: the listeners subscribed at the time of the emission run
    in subscription order; [once] subscriptions are dropped as they fire. *)
Definition emit (now : Z) (c : ClientRef) (ev : ClientEvent) (w : World) : World :=
  match clients w !! c with
  | None => w
  | Some cl =>
      let ls := filter (λ l, listens ev l) (listeners cl) in
      let w1 := set_clients
                  (alter (λ cl, {| listeners :=
                                     filter (λ l, ¬ (listens ev l && is_once l))
                                            (listeners cl) |}) c (clients w)) w in
      foldl (λ w l, handle now c ev l w) w1 ls
  end.

(** ** The command channel, lines 80-94 *)

Definition mark_read (rd : PendingRead) : PendingRead :=
  {| rd_client := rd_client rd; rd_config := rd_config rd;
     rd_connect := rd_connect rd; rd_done := true |}.

Definition mark_called (x : ExecCall) : ExecCall :=
  {| ex_session := ex_session x; ex_call := ex_call x;
     ex_timeout := ex_timeout x; ex_called := true; ex_settled := ex_settled x |}.

Definition mark_settled (x : ExecCall) : ExecCall :=
  {| ex_session := ex_session x; ex_call := ex_call x;
     ex_timeout := ex_timeout x; ex_called := ex_called x; ex_settled := true |}.

Definition with_out (x : string) (st : Stream) : Stream :=
  {| st_exec := st_exec st; st_timer := st_timer st;
     out := x; errOut := errOut st; st_closed := st_closed st |}.

Definition with_errOut (x : string) (st : Stream) : Stream :=
  {| st_exec := st_exec st; st_timer := st_timer st;
     out := out st; errOut := x; st_closed := st_closed st |}.

Definition mark_closed (st : Stream) : Stream :=
  {| st_exec := st_exec st; st_timer := st_timer st;
     out := out st; errOut := errOut st; st_closed := true |}.

(** [resolve]/[reject] of the promise of the [exec] call [i]. *)
Definition settle_exec (i : nat) (o : Outcome) (w : World) : World :=
  match execs w !! i with
  | Some x =>
      if ex_settled x then w
      else settle (ex_call x) o (set_execs (alter mark_settled i (execs w)) w)
  | None => w
  end.

(** [fs.readFile] completes: [connect()] resumes at line 58. *)
Definition read_done (i : nat) (res : JsError + string) (w : World) : option World :=
  rd ← reads w !! i;
  if rd_done rd then None
  else
    let w1 := set_reads (alter mark_read i (reads w)) w in
    Some match res with
         | inl e => settle_connect (rd_connect rd) (Some e) w1
         | inr key =>
             connect_open (rd_connect rd) (rd_client rd)
               (make_cfg (rd_config rd) (PrivateKey key)) w1
         end.

(** The callback of [client.exec], lines 80-88: on success the timer is
    started and the stream subscriptions are made. *)
Definition exec_callback (i : nat) (err : option JsError) (w : World) : option World :=
  x ← execs w !! i;
  if ex_called x then None
  else
    let w1 := set_execs (alter mark_called i (execs w)) w in
    Some match err with
         | Some e => settle_exec i (Rejected e) w1
         | None =>
             let st := length (streams w1) in
             let t := length (timers w1) in
             set_streams (streams w1 ++ [{| st_exec := i; st_timer := t;
                                            out := ""; errOut := "";
                                            st_closed := false |}])
               (setTimeout (TExecTimeout st) (ex_timeout x) w1)
         end.

(** Lines 87 and 88. *)
Definition stream_data (st : StreamRef) (d : string) (w : World) : World :=
  set_streams (alter (λ x, with_out (out x +:+ d) x) st (streams w)) w.

Definition stream_stderr (st : StreamRef) (d : string) (w : World) : World :=
  set_streams (alter (λ x, with_errOut (errOut x +:+ d) x) st (streams w)) w.

Definition exec_session (i : nat) (w : World) : option SessRef :=
  ex_session <$> execs w !! i.

(** Lines 89-93; [code] is [None] when the transport reports no exit code. *)
Definition stream_close (now : Z) (st : StreamRef) (code : option Z) (w : World)
    : World :=
  match streams w !! st with
  | None => w
  | Some x =>
      let w1 := clearTimeout (st_timer x) (set_streams (alter mark_closed st (streams w)) w) in
      let w2 := match exec_session (st_exec x) w1 with
                | Some s => update_session s (with_lastActivity now) w1
                | None => w1
                end in
      settle_exec (st_exec x)
        (ResolvedExec (or_string (out x) (errOut x)) (or_default code 0)) w2
  end.

Definition timeout_error (timeout : Z) : JsError :=
  {| message := "Command timed out after " +:+ show timeout +:+ "ms" |}.

(** The timer callbacks: line 23 and lines 84-85. *)
Definition run_timer (cb : TimerCallback) (w : World) : World :=
  match cb with
  | TReconnect s => connect s KSwallow w
  | TExecTimeout st =>
      match streams w !! st with
      | None => w
      | Some x =>
          match execs w !! st_exec x with
          | None => w
          | Some e =>
              settle_exec (st_exec x) (Rejected (timeout_error (ex_timeout e)))
                (emit_effect (EStreamClose st) w)
          end
      end
  end.

(** A pending timer fires; it is one-shot. *)
Definition fire (t : TimerRef) (w : World) : option World :=
  tm ← timers w !! t;
  if armed tm then Some (run_timer (callback tm) (clearTimeout t w)) else None.

(** ** SSHConnectionPool *)

(** [Map.prototype.get], [set] and [delete] on the [connections] map. *)
Fixpoint map_get (id : string) (m : list (string * SessRef)) : option SessRef :=
  match m with
  | [] => None
  | (k, v) :: m' => if String.eqb k id then Some v else map_get id m'
  end.

Fixpoint map_set (id : string) (s : SessRef) (m : list (string * SessRef))
    : list (string * SessRef) :=
  match m with
  | [] => [(id, s)]
  | (k, v) :: m' => if String.eqb k id then (k, s) :: m' else (k, v) :: map_set id s m'
  end.

Fixpoint map_delete (id : string) (m : list (string * SessRef))
    : list (string * SessRef) :=
  match m with
  | [] => []
  | (k, v) :: m' => if String.eqb k id then m' else (k, v) :: map_delete id m'
  end.

(** [get(id, config)], lines 113-123, up to its first suspension. *)
Definition get (now : Z) (id : string) (cfg : SSHConnectionConfig) (w : World) : World :=
  let r := length (outcomes w) in
  let w1 := new_call w in
  match map_get id (connections w1) with
  | None =>
      let s := length (sessions w1) in
      let w2 := set_sessions
                  (sessions w1 ++ [new_SSHConnection now cfg (Some (poolTimeout w1))]) w1 in
      let w3 := set_connections (map_set id s (connections w2)) w2 in
      connect s (KGet r) w3
  | Some s =>
      match sessions w1 !! s with
      | None => w1
      | Some conn =>
          if negb (isActive conn) then connect s (KGet r) w1
          else settle r (ResolvedSession s) w1
      end
  end.

(** [close(id)], lines 125-128. *)
Definition close (id : string) (w : World) : World :=
  let r := length (outcomes w) in
  let w1 := new_call w in
  let w2 := match map_get id (connections w1) with
            | Some s => set_connections (map_delete id (connections w1)) (disconnect s w1)
            | None => w1
            end in
  settle r ResolvedVoid w2.

(** [closeAll()], lines 130-133. *)
Definition closeAll (w : World) : World :=
  set_connections []
    (foldl (λ w c, disconnect c w) w (map snd (connections w))).

(** ** The event loop *)

Inductive Event :=
| CallGet (id : string) (cfg : SSHConnectionConfig)
| CallClose (id : string)
| CallCloseAll
| CallConnect (s : SessRef)
| CallExec (s : SessRef) (command : string)
| CallDisconnect (s : SessRef)
| ClientEmits (c : ClientRef) (ev : ClientEvent)
| FileRead (i : nat) (res : JsError + string)
| ExecCallback (i : nat) (err : option JsError)
| StreamData (st : StreamRef) (d : string)
| StreamStderr (st : StreamRef) (d : string)
| StreamCloses (st : StreamRef) (code : option Z)
| TimerFires (t : TimerRef).

(** A channel that has not emitted ['close'] yet. *)
Definition open_stream (st : StreamRef) (w : World) : option Stream :=
  x ← streams w !! st; if st_closed x then None else Some x.

(** One macrotask at time [now] ([Date.now()]); [None] when the event
    cannot occur in [w]: it names an object that does not exist, a callback
    already invoked, a channel already closed or a timer that is not
    pending. *)
Definition step (now : Z) (ev : Event) (w : World) : option World :=
  match ev with
  | CallGet id cfg => Some (get now id cfg w)
  | CallClose id => Some (close id w)
  | CallCloseAll => Some (closeAll w)
  | CallConnect s =>
      _ ← sessions w !! s;
      Some (connect s (KCaller (length (outcomes w))) (new_call w))
  | CallExec s command => _ ← sessions w !! s; Some (exec now s command w)
  | CallDisconnect s => _ ← sessions w !! s; Some (disconnect s w)
  | ClientEmits c ev => _ ← clients w !! c; Some (emit now c ev w)
  | FileRead i res => read_done i res w
  | ExecCallback i err => exec_callback i err w
  | StreamData st d => _ ← open_stream st w; Some (stream_data st d w)
  | StreamStderr st d => _ ← open_stream st w; Some (stream_stderr st d w)
  | StreamCloses st code => _ ← open_stream st w; Some (stream_close now st code w)
  | TimerFires t => fire t w
  end.

(** A run: timed events, oldest first. *)
Fixpoint run (tr : list (Z * Event)) (w : World) : option World :=
  match tr with
  | [] => Some w
  | (now, ev) :: tr' => w' ← step now ev w; run tr' w'
  end.

(** The worlds the server can be in: those a run leads to from the empty
    pool. *)
Definition reachable (w : World) : Prop :=
  ∃ timeout tr, run tr (init timeout) = Some w.

Close Scope string_scope.

(** ** Properties of worlds *)

(** *** Monotonicity

    Objects are never freed and what identifies them never changes: a
    session keeps the descriptor and the command timeout it was constructed
    with, a promise that has settled stays settled, a timer that is no
    longer pending stays so. *)
Definition heap_le {A} (R : A → A → Prop) (l l' : list A) : Prop :=
  ∀ i x, l !! i = Some x → ∃ y, l' !! i = Some y ∧ R x y.

Definition same_session (x y : SSHConnection) : Prop :=
  config y = config x ∧ commandTimeout y = commandTimeout x.

Definition same_connect (x y : ConnectCall) : Prop :=
  cc_session y = cc_session x ∧ cc_kont y = cc_kont x ∧
  (cc_state x ≠ Pending → cc_state y = cc_state x).

Definition same_timer (x y : Timer) : Prop :=
  callback y = callback x ∧ delay y = delay x ∧
  (armed x = false → armed y = false).

Definition same_exec (x y : ExecCall) : Prop :=
  ex_session y = ex_session x ∧ ex_call y = ex_call x ∧
  ex_timeout y = ex_timeout x ∧
  (ex_called x = true → ex_called y = true) ∧
  (ex_settled x = true → ex_settled y = true).

Definition same_stream (x y : Stream) : Prop :=
  st_exec y = st_exec x ∧ st_timer y = st_timer x ∧
  (st_closed x = true → st_closed y = true).

Definition same_read (x y : PendingRead) : Prop :=
  rd_client y = rd_client x ∧ rd_config y = rd_config x ∧
  rd_connect y = rd_connect x ∧ (rd_done x = true → rd_done y = true).

(** The session whose loss a long-lived handler reports. *)
Definition lost_of (l : Listener) : option SessRef :=
  match l with
  | OnLostError s | OnLostEnd s | OnLostClose s => Some s
  | _ => None
  end.

(** A client never gains a long-lived handler after its creation. *)
Definition same_client (x y : Client) : Prop :=
  ∀ l, l ∈ listeners y → lost_of l ≠ None → l ∈ listeners x.

Definition same_outcome (x y : option Outcome) : Prop :=
  ∀ o, x = Some o → y = Some o.

Record extends (w w' : World) : Prop := {
  ext_sessions : heap_le same_session (sessions w) (sessions w');
  ext_clients : heap_le same_client (clients w) (clients w');
  ext_timers : heap_le same_timer (timers w) (timers w');
  ext_streams : heap_le same_stream (streams w) (streams w');
  ext_reads : heap_le same_read (reads w) (reads w');
  ext_execs : heap_le same_exec (execs w) (execs w');
  ext_connects : heap_le same_connect (connects w) (connects w');
  ext_outcomes : heap_le same_outcome (outcomes w) (outcomes w')
}.

(** *** The transport handle and the long-lived handlers

    A session's transport handle carries the session's handlers; a client
    carrying a session's handlers is that session's transport handle; two
    sessions never share a client. *)
Record inv_handle (ss : list SSHConnection) (cs : list Client) : Prop := {
  handle_subscribed : ∀ s this c,
    ss !! s = Some this → client this = Some c →
    ∃ cl, cs !! c = Some cl ∧ OnLostError s ∈ listeners cl;
  handle_owner : ∀ c cl l s,
    cs !! c = Some cl → l ∈ listeners cl → lost_of l = Some s →
    ∃ this, ss !! s = Some this ∧ client this = Some c;
  handle_unique : ∀ s s' this this' c,
    ss !! s = Some this → ss !! s' = Some this' →
    client this = Some c → client this' = Some c → s = s'
}.

(** *** Reconnect timers

    A pending reconnect timer of a session is the one its [reconnectTimer]
    field holds. *)
Definition inv_timer (ss : list SSHConnection) (ts : list Timer) : Prop :=
  ∀ t tm s, ts !! t = Some tm → armed tm = true → callback tm = TReconnect s →
    ∃ this, ss !! s = Some this ∧ reconnectTimer this = Some t.

(** *** Credentials *)

Definition has_auth (d : SSHConnectionConfig) : Prop :=
  truthy (privateKeyPath d) ≠ None ∨ truthy (password d) ≠ None.

(** The [connect()] call [p] is on a session of which [Q] holds. *)
Definition auth_call (Q : SessRef → SSHConnectionConfig → Prop)
    (ss : list SSHConnection) (ccs : list ConnectCall) (p : nat) : Prop :=
  ∃ cc this, ccs !! p = Some cc ∧ ss !! cc_session cc = Some this ∧
             Q (cc_session cc) (config this).

(** [Q] holds of every connected session and of the session of every
    [connect()] that is reading a key file or waiting for ['ready'].  With
    [Q] the presence of a credential this is an invariant of the program;
    with [Q] the sessions other than one session, it says that this session
    is disconnected with no [connect()] in flight. *)
Record inv_auth (Q : SessRef → SSHConnectionConfig → Prop)
    (ss : list SSHConnection) (cs : list Client)
    (rs : list PendingRead) (ccs : list ConnectCall) : Prop := {
  auth_connected : ∀ s this,
    ss !! s = Some this → isConnected this = true → Q s (config this);
  auth_ready : ∀ c cl p,
    cs !! c = Some cl → OnceReady p ∈ listeners cl → auth_call Q ss ccs p;
  auth_read : ∀ i rd,
    rs !! i = Some rd → rd_done rd = false → auth_call Q ss ccs (rd_connect rd)
}.

Definition credentialed (s : SessRef) (d : SSHConnectionConfig) : Prop :=
  has_auth d.

(** *** Pending calls

    The calls of the tool layer that a pending promise will settle. *)
Definition call_of (k : Kont) : option CallRef :=
  match k with
  | KSwallow => None
  | KCaller r | KGet r | KExec r _ => Some r
  end.

Definition live_connect (cc : ConnectCall) : option CallRef :=
  match cc_state cc with
  | Pending => call_of (cc_kont cc)
  | _ => None
  end.

Definition live_exec (x : ExecCall) : option CallRef :=
  if ex_settled x then None else Some (ex_call x).

Definition live (ccs : list ConnectCall) (es : list ExecCall) : list CallRef :=
  omap live_connect ccs ++ omap live_exec es.

(** No call is awaited twice, and an awaited call has not settled. *)
Definition inv_live (ccs : list ConnectCall) (es : list ExecCall)
    (os : list (option Outcome)) : Prop :=
  NoDup (live ccs es) ∧ ∀ r, r ∈ live ccs es → os !! r = Some None.

(** *** What the awaiter of [connect()] observes

    Once the promise of a [connect()] call has settled, the call that
    awaited it has the matching outcome: a rejection is passed on to the
    caller of [connect()], [pool.get] or [exec] unchanged, and a fulfilment
    makes [pool.get] return the session. *)
Definition observed (cc : ConnectCall) (os : list (option Outcome)) : Prop :=
  match cc_state cc, cc_kont cc with
  | RejectedWith e, KCaller r | RejectedWith e, KGet r | RejectedWith e, KExec r _ =>
      mjoin (os !! r) = Some (Rejected e)
  | Fulfilled, KCaller r => mjoin (os !! r) = Some ResolvedVoid
  | Fulfilled, KGet r => mjoin (os !! r) = Some (ResolvedSession (cc_session cc))
  | _, _ => True
  end.

Definition inv_observed (ccs : list ConnectCall) (os : list (option Outcome)) : Prop :=
  ∀ p cc, ccs !! p = Some cc → observed cc os.

Record Inv (w : World) : Prop := {
  Inv_handle : inv_handle (sessions w) (clients w);
  Inv_timer : inv_timer (sessions w) (timers w);
  Inv_auth : inv_auth credentialed (sessions w) (clients w) (reads w) (connects w);
  Inv_live : inv_live (connects w) (execs w) (outcomes w);
  Inv_observed : inv_observed (connects w) (outcomes w)
}.

(** ** Descriptors used in examples *)

Module Examples.
Definition with_password : SSHConnectionConfig :=
  {| host := "alpha"; port := 22; username := "root";
     privateKeyPath := None; password := Some "secret"%string;
     keepaliveInterval := None; keepaliveCountMax := None;
     readyTimeout := None |}.

Definition with_key : SSHConnectionConfig :=
  {| host := "beta"; port := 22; username := "deploy";
     privateKeyPath := Some "/keys/id_ed25519"%string; password := None;
     keepaliveInterval := None; keepaliveCountMax := None;
     readyTimeout := None |}.

Definition without_credentials : SSHConnectionConfig :=
  {| host := "gamma"; port := 22; username := "guest";
     privateKeyPath := None; password := None;
     keepaliveInterval := None; keepaliveCountMax := None;
     readyTimeout := None |}.

Definition refused : JsError := {| message := "connect ECONNREFUSED" |}.
End Examples.

(** ** After [disconnect()] *)

(** The session [this] once [disconnect()] has returned. *)
Definition disconnected (this : SSHConnection) : SSHConnection :=
  {| client := None; config := config this; isConnected := false;
     reconnectTimer := None; lastActivity := lastActivity this;
     commandTimeout := commandTimeout this |}.

(** [disconnect()] has been called on the session at [s], which was [this]
    before the call: the session is in its disconnected state, its client
    has been ended and has no subscription left, and its reconnect timer is
    not pending. *)
Definition torn_down (s : SessRef) (this : SSHConnection) (w : World) : Prop :=
  sessions w !! s = Some (disconnected this) ∧
  (∀ c, client this = Some c →
     EEnd c ∈ effects w ∧ ∀ cl, clients w !! c = Some cl → listeners cl = []) ∧
  (∀ t tm, reconnectTimer this = Some t → timers w !! t = Some tm →
     armed tm = false).

(** ** Auxiliary notions *)

Abbreviation no_listeners := (λ _ : Client, {| listeners := [] |}).

Definition lost_handlers (s : nat) : Client :=
  {| listeners := [OnLostError s; OnLostEnd s; OnLostClose s] |}.

Abbreviation Ih w := (inv_handle (sessions w) (clients w)).

Abbreviation It w := (inv_timer (sessions w) (timers w)).

Abbreviation Iq Q w := (inv_auth Q (sessions w) (clients w) (reads w) (connects w)).
Abbreviation Aq Q w p := (auth_call Q (sessions w) (connects w) p).
Abbreviation Ia w := (Iq credentialed w).
Abbreviation Ac w p := (Aq credentialed w p).

Abbreviation Il w := (inv_live (connects w) (execs w) (outcomes w)).
Abbreviation lv w := (live (connects w) (execs w)).

(** The call [r] has been made, has not settled and is awaited by nobody. *)
Definition unowned (w : World) (r : nat) : Prop :=
  r ∉ lv w ∧ outcomes w !! r = Some None.

Abbreviation Io w := (inv_observed (connects w) (outcomes w)).

(** The event is not a [close] of [id] nor a [closeAll]. *)
Definition keeps (id : string) (tev : Z * Event) : Prop :=
  tev.2 ≠ CallClose id ∧ tev.2 ≠ CallCloseAll.

(** Line 19: the previous timer, if any, is cancelled. *)
Definition cancel_reconnect (this : SSHConnection) (w : World) : World :=
  match reconnectTimer this with
  | Some t => clearTimeout t w
  | None => w
  end.

Definition reconnect_timer (s : nat) : Timer :=
  {| callback := TReconnect s; delay := 5000; armed := true |}.

(** [connect()] may be called on the session [s] without breaking
    [inv_auth Q]: [connect()] goes past the credential check only on a
    session that has one. *)
Definition may_connect (Q : SessRef → SSHConnectionConfig → Prop) (s : SessRef) : Prop :=
  ∀ d, has_auth d → Q s d.

(** The session on which the event [ev] calls [connect()], if the
    conditions of lines 29, 75 and 115-119 let it. *)
Definition connect_target (ev : Event) (w : World) : option SessRef :=
  match ev with
  | CallGet id _ => Some (default (length (sessions w)) (map_get id (connections w)))
  | CallConnect s | CallExec s _ => Some s
  | TimerFires t =>
      match callback <$> timers w !! t with
      | Some (TReconnect s) => Some s
      | _ => None
      end
  | _ => None
  end.

(** ** A transport error while [connect()] is waiting *)

(** The listeners that run when the transport handle of session [s] emits
    ['error']: the session's long-lived handler and [onError] of the
    [connect()] calls waiting on that client. *)
Definition error_listener (s : SessRef) (l : Listener) : Prop :=
  l = OnLostError s ∨ ∃ q, l = OnceError q.

(** The long-lived error handler of session [s] has run for the error [e]
    at time [now]: the line is logged, the session is marked disconnected
    and, when it was used less than 30 minutes ago, its reconnect timer is
    pending. *)
Definition loss_handled (now : Z) (s : SessRef) (line : string) (w : World) : Prop :=
  ELog line ∈ effects w ∧
  ∃ this, sessions w !! s = Some this ∧ isConnected this = false ∧
    ((now - lastActivity this < 30 * 60 * 1000)%Z →
     ∃ t, reconnectTimer this = Some t ∧ timers w !! t = Some (reconnect_timer s)).

(** The promise of the [connect()] call [p] has been rejected with [e]. *)
Definition connect_rejected (p : nat) (e : JsError) (w : World) : Prop :=
  ∃ cc, connects w !! p = Some cc ∧ cc_state cc = RejectedWith e.

(** What the handlers of one ['error'] emission leave unchanged about the
    session [s] and the [connect()] call [p]. *)
Definition error_frame (s : SessRef) (la : Z) (h : string) (p : nat) (e : JsError)
    (w : World) : Prop :=
  (∃ this, sessions w !! s = Some this ∧ lastActivity this = la ∧
           host (config this) = h) ∧
  ∃ cc, connects w !! p = Some cc ∧
        (cc_state cc = Pending ∨ cc_state cc = RejectedWith e).

(** ** Example worlds *)

Module Scenes.
(** [pool.get("a", ...)] with a password has just opened its transport. *)
Definition connecting : World := get 0 "a" Examples.with_password (init None).

Definition connecting_session : SSHConnection :=
  {| client := Some 0; config := Examples.with_password;
     isConnected := false; reconnectTimer := None;
     lastActivity := 0; commandTimeout := 60000 |}.

(** ... and the transport has signalled ['ready'] at time 10. *)
Definition connected : World := emit 10 0 EvReady connecting.

Definition connected_session : SSHConnection :=
  {| client := Some 0; config := Examples.with_password;
     isConnected := true; reconnectTimer := None;
     lastActivity := 10; commandTimeout := 60000 |}.
End Scenes.

(** ** A detached client *)

(** No long-lived handler is subscribed on the client [c]. *)
Definition detached (c : ClientRef) (w : World) : Prop :=
  ∃ cl, clients w !! c = Some cl ∧ Forall (λ l, lost_of l = None) (listeners cl).

(** ** Command channels

    A channel belongs to an [exec] call whose callback has been invoked;
    two channels never belong to the same call; a timeout timer is the timer
    of the channel it closes; and the promise of an [exec] call whose
    callback has not been invoked yet is pending. *)
Record inv_chan (ts : list Timer) (xs : list Stream) (es : list ExecCall) : Prop := {
  chan_called : ∀ st x,
    xs !! st = Some x → ∃ ex, es !! st_exec x = Some ex ∧ ex_called ex = true;
  chan_unique : ∀ st st' x x',
    xs !! st = Some x → xs !! st' = Some x' → st_exec x = st_exec x' → st = st';
  chan_timer : ∀ t tm st,
    ts !! t = Some tm → callback tm = TExecTimeout st →
    ∃ x, xs !! st = Some x ∧ st_timer x = t;
  chan_fresh : ∀ i ex,
    es !! i = Some ex → ex_called ex = false → ex_settled ex = false
}.

Abbreviation Ic w := (inv_chan (timers w) (streams w) (execs w)).

(** ** The command timeout

    The pool, each of its sessions and every [exec] call carry the command
    timeout [T] the pool was constructed with. *)
Record inv_time (T pt : Z) (ss : list SSHConnection) (es : list ExecCall) : Prop := {
  time_pool : pt = T;
  time_session : ∀ s this, ss !! s = Some this → commandTimeout this = T;
  time_exec : ∀ i ex, es !! i = Some ex → ex_timeout ex = T
}.

Abbreviation Im T w := (inv_time T (poolTimeout w) (sessions w) (execs w)).

(** ** One command channel *)

(** The event closes the channel [st] or fires the timer [t]. *)
Definition ends_channel (st : StreamRef) (t : TimerRef) (ev : Event) : bool :=
  match ev with
  | StreamCloses st' _ => Nat.eqb st' st
  | TimerFires t' => Nat.eqb t' t
  | _ => false
  end.

(** During the run [tr] the channel [st] does not close and its timer [t]
    does not fire. *)
Definition channel_open (st : StreamRef) (t : TimerRef) (tr : list (Z * Event)) : Prop :=
  Forall (λ tev, ends_channel st t tev.2 = false) tr.

(** What the channel [st] delivers on its primary and on its error stream
    with one event, and during a run. *)
Definition stdout_of_event (st : StreamRef) (ev : Event) : string :=
  match ev with
  | StreamData st' d => if Nat.eqb st' st then d else ""%string
  | _ => ""%string
  end.

Definition stderr_of_event (st : StreamRef) (ev : Event) : string :=
  match ev with
  | StreamStderr st' d => if Nat.eqb st' st then d else ""%string
  | _ => ""%string
  end.

Fixpoint stdout_of (st : StreamRef) (tr : list (Z * Event)) : string :=
  match tr with
  | [] => ""%string
  | (_, ev) :: tr' => (stdout_of_event st ev +:+ stdout_of st tr')%string
  end.

Fixpoint stderr_of (st : StreamRef) (tr : list (Z * Event)) : string :=
  match tr with
  | [] => ""%string
  | (_, ev) :: tr' => (stderr_of_event st ev +:+ stderr_of st tr')%string
  end.

(** The channel [st] of the [exec] call [i] is open with [o] and [e]
    accumulated, and the promise of the call, recorded as [ex], is as it
    was when the channel was delivered. *)
Definition channel_state (st : StreamRef) (x : Stream) (i : nat) (ex : ExecCall)
    (w : World) : Prop :=
  streams w !! st = Some x ∧ execs w !! i = Some ex.

(** ** The pool's map

    A JavaScript [Map] has one entry per key; beyond that, no session is
    mapped under two ids, and a mapped session exists. *)
Definition inv_pool (m : list (string * SessRef)) (n : nat) : Prop :=
  NoDup m.*1 ∧ NoDup m.*2 ∧ Forall (λ kv, kv.2 < n) m.

Abbreviation Ip w := (inv_pool (connections w) (length (sessions w))).

Module Scenes2.
(** A connected session has lost its transport at time 20 and waits for
    its reconnect timer. *)
Definition lost_transport : World := emit 20 0 EvEnd Scenes.connected.
End Scenes2.

Module Scenes3.
(** [exec("ls")] on the connected session has requested its channel. *)
Definition exec_requested : World := exec 12 0 "ls" Scenes.connected.
End Scenes3.

Module Scenes4.
(** The channel of [exec("ls")] has been delivered at time 13: channel 0
    with timer 0. *)
Definition channel_delivered : World :=
  default Scenes3.exec_requested (exec_callback 0 None Scenes3.exec_requested).

Definition requested_call : ExecCall :=
  {| ex_session := 0; ex_call := 1; ex_timeout := 60000;
     ex_called := false; ex_settled := false |}.

(** Output on both streams, then more on the primary one. *)
Definition chatter : list (Z * Event) :=
  [(14%Z, StreamStderr 0 "warn "%string); (15%Z, StreamData 0 "a"%string);
   (16%Z, StreamData 0 "b"%string)].

(** Output on the error stream only. *)
Definition complaint : list (Z * Event) :=
  [(14%Z, StreamStderr 0 "no such "%string); (15%Z, StreamStderr 0 "file"%string)].

Definition after_chatter : World :=
  default channel_delivered (run chatter channel_delivered).

Definition after_complaint : World :=
  default channel_delivered (run complaint channel_delivered).
End Scenes4.

(** ** Between two calls of [pool.get] *)

(** The event is neither a failure (a loss event of a transport, an
    unreadable key file, a timer firing) nor a call of the tool layer. *)
Definition no_failure (ev : Event) : bool :=
  match ev with
  | ClientEmits _ EvReady | FileRead _ (inr _) | ExecCallback _ None
  | StreamData _ _ | StreamStderr _ _ | StreamCloses _ _ => true
  | _ => false
  end.

Definition connected (s : SessRef) (ss : list SSHConnection) : Prop :=
  ∃ this, ss !! s = Some this ∧ isConnected this = true.

(** The sessions in [S] are connected, and so is the session of every
    [connect()] call from [p0] on whose promise is fulfilled. *)
Definition inv_up (S : SessRef → Prop) (p0 : nat)
    (ss : list SSHConnection) (ccs : list ConnectCall) : Prop :=
  (∀ s, S s → connected s ss) ∧
  ∀ q cc, p0 ≤ q → ccs !! q = Some cc → cc_state cc = Fulfilled →
          connected (cc_session cc) ss.

Abbreviation Iu S p0 w := (inv_up S p0 (sessions w) (connects w)).

Module Scenes5.
Definition first_get : list (Z * Event) :=
  [(0%Z, CallGet "a" Examples.with_password); (10%Z, ClientEmits 0 EvReady)].
End Scenes5.

(** ** A session left alone *)

(** The session [s] was last used at [la] and none of its reconnect timers
    is pending. *)
Definition inv_idle (s : SessRef) (la : Z)
    (ss : list SSHConnection) (ts : list Timer) : Prop :=
  (∃ this, ss !! s = Some this ∧ lastActivity this = la) ∧
  ∀ t tm, ts !! t = Some tm → armed tm = true → callback tm ≠ TReconnect s.

Abbreviation Iz s la w := (inv_idle s la (sessions w) (timers w)).

(** The sessions other than [s]. *)
Definition other_than (s : SessRef) (s' : SessRef) (d : SSHConnectionConfig) : Prop :=
  s' ≠ s.

(** At time [now] the session was last used at least 30 minutes ago. *)
Definition long_idle (la now : Z) : Prop := (30 * 60 * 1000 ≤ now - la)%Z.

(** The event [ev], occurring in [w] at time [now], is no call of [exec],
    [connect] or [pool.get] on the session [s] and not the end of a command
    of [s]; and the clock has not been set back. *)
Definition leaves_alone (s : SessRef) (la : Z) (now : Z) (ev : Event) (w : World) : Prop :=
  long_idle la now ∧
  match ev with
  | CallGet id _ => map_get id (connections w) ≠ Some s
  | CallConnect s' | CallExec s' _ => s' ≠ s
  | StreamCloses st _ =>
      ∀ x, streams w !! st = Some x → exec_session (st_exec x) w ≠ Some s
  | _ => True
  end.

(** A run from [w] in which every event leaves [s] alone. *)
Fixpoint left_alone (s : SessRef) (la : Z) (tr : list (Z * Event)) (w : World) : Prop :=
  match tr with
  | [] => True
  | (now, ev) :: tr' =>
      leaves_alone s la now ev w ∧
      match step now ev w with
      | Some w' => left_alone s la tr' w'
      | None => True
      end
  end.

Module Scenes6.
(** The session that lost its transport at time 20, as it is then. *)
Definition lost_session : SSHConnection :=
  {| client := Some 0; config := Examples.with_password;
     isConnected := false; reconnectTimer := Some 0;
     lastActivity := 10; commandTimeout := 60000 |}.

(** Half an hour later the client reports ['close']. *)
Definition half_an_hour_later : Z := 1800010.

Definition afterwards : list (Z * Event) :=
  [(1800020%Z, ClientEmits 0 EvClose); (1800030%Z, CallClose "b"%string);
   (1800040%Z, ClientEmits 0 (EvError Examples.refused))].
End Scenes6.

(** ** The transport signals ['ready'] *)

(** While the ['ready'] handlers of one emission run: the session [s]
    keeps its client, and the [connect()] call [p] on [s] is pending, or
    fulfilled with the session marked connected and used at [now]. *)
Definition ready_frame (now : Z) (s : SessRef) (c : ClientRef) (p : nat) (k : Kont)
    (w : World) : Prop :=
  ∃ this cc, sessions w !! s = Some this ∧ client this = Some c ∧
    connects w !! p = Some cc ∧ cc_session cc = s ∧ cc_kont cc = k ∧
    (cc_state cc = Pending ∨
     (cc_state cc = Fulfilled ∧ isConnected this = true ∧ lastActivity this = now)).

(** ... and afterwards. *)
Definition ready_done (now : Z) (s : SessRef) (c : ClientRef) (p : nat) (k : Kont)
    (w : World) : Prop :=
  ∃ this cc, sessions w !! s = Some this ∧ client this = Some c ∧
    connects w !! p = Some cc ∧ cc_session cc = s ∧ cc_kont cc = k ∧
    cc_state cc = Fulfilled ∧ isConnected this = true ∧ lastActivity this = now.

Module Scenes7.
(** [pool.get] with a password, then the transport refuses at time 5. *)
Definition refused : World := emit 5 0 (EvError Examples.refused) Scenes.connecting.
End Scenes7.

(** * The tool layer and the configuration

    The parts of index.ts and utils/config.ts that decide what reaches the
    pool: the command history kept by [MCPSSHServer.log], the validation of
    connection ids and of the loaded configuration. *)

(** ** [Array.prototype.slice(start)], for an integral [start]:
    a negative [start] counts from the end, and both ends are clamped. *)
Definition slice_from {A} (start : Z) (l : list A) : list A :=
  let len := Z.of_nat (length l) in
  let k := if (start <? 0)%Z then Z.max (len + start) 0 else Z.min start len in
  drop (Z.to_nat k) l.

(** ** The command history, index.ts lines 24 and 37-42 *)

(** types/config.ts, [CommandHistoryEntry]. *)
Record CommandHistoryEntry := {
  he_command : string;
  he_output : string;
  he_timestamp : string;
  he_exitCode : Z;
  he_connectionId : string
}.

(** [config.logging]; [maxHistorySize] is taken to be integral. *)
Record Logging := {
  log_enabled : bool;
  maxHistorySize : Z
}.

(** [{ ...entry, timestamp }]. *)
Definition stamp (timestamp : string) (entry : CommandHistoryEntry) : CommandHistoryEntry :=
  {| he_command := he_command entry; he_output := he_output entry;
     he_timestamp := timestamp; he_exitCode := he_exitCode entry;
     he_connectionId := he_connectionId entry |}.

(** [log(entry)], lines 37-42; [timestamp] is [new Date().toISOString()]. *)
Definition log (cfg : Logging) (timestamp : string) (entry : CommandHistoryEntry)
    (history : list CommandHistoryEntry) : list CommandHistoryEntry :=
  if negb (log_enabled cfg) then history
  else
    let h := history ++ [stamp timestamp entry] in
    if (Z.of_nat (length h) >? maxHistorySize cfg)%Z
    then slice_from (- maxHistorySize cfg) h
    else h.

Definition invalid_limit : JsError :=
  {| message := "Invalid args" |}.

(** The tool [get_command_history], lines 214-217: [limit] is optional,
    defaults to 10 and must lie between 1 and 500. *)
Definition get_command_history (limit : option Z) (history : list CommandHistoryEntry)
    : JsError + list CommandHistoryEntry :=
  let l := default 10%Z limit in
  if ((1 <=? l) && (l <=? 500))%Z then inr (slice_from (- l) history)
  else inl invalid_limit.

(** ** Connection ids, utils/config.ts lines 7-11 *)

(** The character class [[a-zA-Z0-9]]. *)
Definition is_alnum (c : ascii) : bool :=
  let n := nat_of_ascii c in
  ((48 <=? n) && (n <=? 57)) || ((65 <=? n) && (n <=? 90)) ||
  ((97 <=? n) && (n <=? 122)).

(** The character class [[a-zA-Z0-9._-]]. *)
Definition is_id_char (c : ascii) : bool :=
  is_alnum c || Ascii.eqb c "." || Ascii.eqb c "_" || Ascii.eqb c "-".

Fixpoint all_id_chars (s : string) : bool :=
  match s with
  | EmptyString => true
  | String c r => is_id_char c && all_id_chars r
  end.

(** [ID_REGEX.test(id)] for [/^[a-zA-Z0-9][a-zA-Z0-9._-]{0,63}$/]. *)
Definition isValidConnectionId (id : string) : bool :=
  match id with
  | EmptyString => false
  | String c r => is_alnum c && all_id_chars r && (String.length r <=? 63)
  end.

(** ** The loaded configuration, utils/config.ts lines 57-81 *)

Module Cfg.
(** types/config.ts, [SSHConfig]; an object's entries as an association
    list. *)
Record SSHConfig := {
  enabled : bool;
  connections : list (string * SSHConnectionConfig);
  defaultTimeout : Z;
  maxConcurrentSessions : Z;
  keepaliveInterval : Z;
  keepaliveCountMax : Z;
  readyTimeout : Z
}.

Record ServerConfig := {
  ssh : SSHConfig;
  logging : Logging
}.
End Cfg.

(** A string used as a condition: the empty string is falsy. *)
Definition nonempty (s : string) : bool := negb (String.eqb s "").

Definition is_truthy (x : option string) : bool :=
  match truthy x with Some _ => true | None => false end.

(** The three checks of the loop body, lines 65-79: [true] when the entry
    is pushed on [invalid]. *)
Definition is_invalid (id : string) (conn : SSHConnectionConfig) : bool :=
  if negb (isValidConnectionId id) then true
  else if negb (nonempty (host conn)) || negb (nonempty (username conn)) ||
          (negb (is_truthy (password conn)) && negb (is_truthy (privateKeyPath conn)))
  then true
  else negb (port conn =? 0)%Z && ((port conn <? 1)%Z || (port conn >? 65535)%Z).

(** The ids collected in [invalid]. *)
Definition invalid_ids (cs : list (string * SSHConnectionConfig)) : list string :=
  omap (λ kv, if is_invalid kv.1 kv.2 then Some kv.1 else None) cs.

Definition in_ids (id : string) (ids : list string) : bool :=
  existsb (String.eqb id) ids.

(** [validateConfig(config)]: an error is thrown, or the invalid
    connections are deleted from the configuration. *)
Definition validateConfig (config : Cfg.ServerConfig) : JsError + Cfg.ServerConfig :=
  let s := Cfg.ssh config in
  if (Cfg.defaultTimeout s <? 1)%Z then inl {| message := "defaultTimeout must be >= 1" |}
  else if (Cfg.maxConcurrentSessions s <? 1)%Z
  then inl {| message := "maxConcurrentSessions must be >= 1" |}
  else if (Cfg.keepaliveInterval s <? 1000)%Z
  then inl {| message := "keepaliveInterval must be >= 1000ms" |}
  else if (Cfg.readyTimeout s <? 1000)%Z
  then inl {| message := "readyTimeout must be >= 1000ms" |}
  else
    let invalid := invalid_ids (Cfg.connections s) in
    inr {| Cfg.ssh :=
             {| Cfg.enabled := Cfg.enabled s;
                Cfg.connections :=
                  filter (λ kv, in_ids kv.1 invalid = false) (Cfg.connections s);
                Cfg.defaultTimeout := Cfg.defaultTimeout s;
                Cfg.maxConcurrentSessions := Cfg.maxConcurrentSessions s;
                Cfg.keepaliveInterval := Cfg.keepaliveInterval s;
                Cfg.keepaliveCountMax := Cfg.keepaliveCountMax s;
                Cfg.readyTimeout := Cfg.readyTimeout s |};
           Cfg.logging := Cfg.logging config |}.

(** [new SSHConnectionPool(config.ssh.defaultTimeout * 1000)], index.ts
    line 29. *)
Definition server_pool (config : Cfg.ServerConfig) : World :=
  init (Some (Cfg.defaultTimeout (Cfg.ssh config) * 1000)%Z).

Module Samples.
Definition entry (cmd : string) : CommandHistoryEntry :=
  {| he_command := cmd; he_output := "ok"; he_timestamp := "";
     he_exitCode := 0; he_connectionId := "a" |}.

Definition keep_two : Logging := {| log_enabled := true; maxHistorySize := 2 |}.

Definition loaded : Cfg.ServerConfig :=
  {| Cfg.ssh :=
       {| Cfg.enabled := true;
          Cfg.connections :=
            [("alpha"%string, Examples.with_password);
             ("bad id"%string, Examples.with_key);
             ("gamma"%string, Examples.without_credentials)];
          Cfg.defaultTimeout := 60; Cfg.maxConcurrentSessions := 10;
          Cfg.keepaliveInterval := 5000; Cfg.keepaliveCountMax := 3;
          Cfg.readyTimeout := 30000 |};
     Cfg.logging := {| log_enabled := true; maxHistorySize := 1000 |} |}.
End Samples.

(** ** Footprints: the fields an operation leaves alone *)

Create HintDb fp.
Create Rewrite HintDb fp.

Ltac prims :=
  cbn [sessions clients timers streams reads execs connects connections
       poolTimeout outcomes effects
       set_sessions set_clients set_timers set_streams set_reads set_execs
       set_connects set_connections set_outcomes emit_effect
       update_session new_client add_listeners removeAllListeners cleanup
       setTimeout clearTimeout new_call] in *.

Ltac fp_solve :=
  unfold settle_exec, settle_connect, resume, exec_open, settle;
  repeat case_match; cbn; try reflexivity;
  unfold exec_open, settle; repeat case_match; reflexivity.

Lemma settle_sessions r o w : sessions (settle r o w) = sessions w.
Proof. fp_solve. Qed.
Lemma settle_clients r o w : clients (settle r o w) = clients w.
Proof. fp_solve. Qed.
Lemma settle_timers r o w : timers (settle r o w) = timers w.
Proof. fp_solve. Qed.
Lemma settle_streams r o w : streams (settle r o w) = streams w.
Proof. fp_solve. Qed.
Lemma settle_reads r o w : reads (settle r o w) = reads w.
Proof. fp_solve. Qed.
Lemma settle_execs r o w : execs (settle r o w) = execs w.
Proof. fp_solve. Qed.
Lemma settle_connects r o w : connects (settle r o w) = connects w.
Proof. fp_solve. Qed.
Lemma settle_connections r o w : connections (settle r o w) = connections w.
Proof. fp_solve. Qed.
Lemma settle_effects r o w : effects (settle r o w) = effects w.
Proof. fp_solve. Qed.
Lemma settle_poolTimeout r o w : poolTimeout (settle r o w) = poolTimeout w.
Proof. fp_solve. Qed.

#[export] Hint Rewrite settle_sessions settle_clients settle_timers settle_streams settle_reads settle_execs settle_connects settle_connections settle_effects settle_poolTimeout : fp.

Lemma exec_open_sessions r s cmd w : sessions (exec_open r s cmd w) = sessions w.
Proof. fp_solve. Qed.
Lemma exec_open_clients r s cmd w : clients (exec_open r s cmd w) = clients w.
Proof. fp_solve. Qed.
Lemma exec_open_timers r s cmd w : timers (exec_open r s cmd w) = timers w.
Proof. fp_solve. Qed.
Lemma exec_open_streams r s cmd w : streams (exec_open r s cmd w) = streams w.
Proof. fp_solve. Qed.
Lemma exec_open_reads r s cmd w : reads (exec_open r s cmd w) = reads w.
Proof. fp_solve. Qed.
Lemma exec_open_connects r s cmd w : connects (exec_open r s cmd w) = connects w.
Proof. fp_solve. Qed.
Lemma exec_open_connections r s cmd w : connections (exec_open r s cmd w) = connections w.
Proof. fp_solve. Qed.
Lemma exec_open_poolTimeout r s cmd w : poolTimeout (exec_open r s cmd w) = poolTimeout w.
Proof. fp_solve. Qed.

#[export] Hint Rewrite exec_open_sessions exec_open_clients exec_open_timers exec_open_streams exec_open_reads exec_open_connects exec_open_connections exec_open_poolTimeout : fp.

Lemma resume_sessions s k res w : sessions (resume s k res w) = sessions w.
Proof. fp_solve. Qed.
Lemma resume_clients s k res w : clients (resume s k res w) = clients w.
Proof. fp_solve. Qed.
Lemma resume_timers s k res w : timers (resume s k res w) = timers w.
Proof. fp_solve. Qed.
Lemma resume_streams s k res w : streams (resume s k res w) = streams w.
Proof. fp_solve. Qed.
Lemma resume_reads s k res w : reads (resume s k res w) = reads w.
Proof. fp_solve. Qed.
Lemma resume_connects s k res w : connects (resume s k res w) = connects w.
Proof. fp_solve. Qed.
Lemma resume_connections s k res w : connections (resume s k res w) = connections w.
Proof. fp_solve. Qed.
Lemma resume_poolTimeout s k res w : poolTimeout (resume s k res w) = poolTimeout w.
Proof. fp_solve. Qed.

#[export] Hint Rewrite resume_sessions resume_clients resume_timers resume_streams resume_reads resume_connects resume_connections resume_poolTimeout : fp.

Lemma settle_connect_sessions p res w : sessions (settle_connect p res w) = sessions w.
Proof. fp_solve. Qed.
Lemma settle_connect_clients p res w : clients (settle_connect p res w) = clients w.
Proof. fp_solve. Qed.
Lemma settle_connect_timers p res w : timers (settle_connect p res w) = timers w.
Proof. fp_solve. Qed.
Lemma settle_connect_streams p res w : streams (settle_connect p res w) = streams w.
Proof. fp_solve. Qed.
Lemma settle_connect_reads p res w : reads (settle_connect p res w) = reads w.
Proof. fp_solve. Qed.
Lemma settle_connect_connections p res w : connections (settle_connect p res w) = connections w.
Proof. fp_solve. Qed.
Lemma settle_connect_poolTimeout p res w : poolTimeout (settle_connect p res w) = poolTimeout w.
Proof. fp_solve. Qed.

#[export] Hint Rewrite settle_connect_sessions settle_connect_clients settle_connect_timers settle_connect_streams settle_connect_reads settle_connect_connections settle_connect_poolTimeout : fp.

Lemma settle_exec_sessions i o w : sessions (settle_exec i o w) = sessions w.
Proof. fp_solve. Qed.
Lemma settle_exec_clients i o w : clients (settle_exec i o w) = clients w.
Proof. fp_solve. Qed.
Lemma settle_exec_timers i o w : timers (settle_exec i o w) = timers w.
Proof. fp_solve. Qed.
Lemma settle_exec_streams i o w : streams (settle_exec i o w) = streams w.
Proof. fp_solve. Qed.
Lemma settle_exec_reads i o w : reads (settle_exec i o w) = reads w.
Proof. fp_solve. Qed.
Lemma settle_exec_connects i o w : connects (settle_exec i o w) = connects w.
Proof. fp_solve. Qed.
Lemma settle_exec_connections i o w : connections (settle_exec i o w) = connections w.
Proof. fp_solve. Qed.
Lemma settle_exec_effects i o w : effects (settle_exec i o w) = effects w.
Proof. fp_solve. Qed.
Lemma settle_exec_poolTimeout i o w : poolTimeout (settle_exec i o w) = poolTimeout w.
Proof. fp_solve. Qed.

#[export] Hint Rewrite settle_exec_sessions settle_exec_clients settle_exec_timers settle_exec_streams settle_exec_reads settle_exec_connects settle_exec_connections settle_exec_effects settle_exec_poolTimeout : fp.

(** ** Lists as heaps *)

Section Heap.
Context {A : Type}.
Implicit Types (l : list A) (f : A → A).

Lemma alter_lookup_inv f l i j y :
  alter f i l !! j = Some y →
  ∃ x, l !! j = Some x ∧ ((i ≠ j ∧ y = x) ∨ (i = j ∧ y = f x)).
Proof.
  rewrite list_lookup_alter. case_decide as E.
  - subst. destruct (l !! j) as [x|] eqn:Hx; simpl; [|done].
    intros [= <-]. eauto.
  - intros ->. eauto.
Qed.

Lemma alter_lookup_fwd f l i j x :
  l !! j = Some x →
  ∃ y, alter f i l !! j = Some y ∧ ((i ≠ j ∧ y = x) ∨ (i = j ∧ y = f x)).
Proof.
  intros Hx. rewrite list_lookup_alter. case_decide as E.
  - subst. rewrite Hx. simpl. eauto.
  - eauto.
Qed.

Lemma snoc_lookup_inv l x i y :
  (l ++ [x]) !! i = Some y → l !! i = Some y ∨ (i = length l ∧ y = x).
Proof. rewrite lookup_snoc_Some. intros [[_ ?]|[-> ->]]; auto. Qed.

Lemma snoc_lookup_fwd l x i y : l !! i = Some y → (l ++ [x]) !! i = Some y.
Proof. apply lookup_app_l_Some. Qed.

Lemma snoc_lookup_new l x : (l ++ [x]) !! length l = Some x.
Proof. by apply list_lookup_middle. Qed.

Lemma lookup_length_None l : l !! length l = None.
Proof. by apply lookup_ge_None_2. Qed.
End Heap.

(** ** Monotonicity: [extends] is a preorder that every operation respects *)

Section HeapLe.
Context {A : Type} (R : A → A → Prop).
Implicit Types (l : list A) (f : A → A).

Lemma heap_le_refl `{!Reflexive R} l : heap_le R l l.
Proof. intros i x H. eauto. Qed.

Lemma heap_le_trans `{!Transitive R} l1 l2 l3 :
  heap_le R l1 l2 → heap_le R l2 l3 → heap_le R l1 l3.
Proof.
  intros H1 H2 i x Hx. destruct (H1 _ _ Hx) as (y & Hy & Rxy).
  destruct (H2 _ _ Hy) as (z & Hz & Ryz). exists z. split; [done|]. by etrans.
Qed.

Lemma heap_le_alter `{!Reflexive R} f i l :
  (∀ x, l !! i = Some x → R x (f x)) → heap_le R l (alter f i l).
Proof.
  intros Hf j x Hx.
  destruct (alter_lookup_fwd f _ i _ _ Hx) as (y & Hy & [[_ ->]|[-> ->]]); eauto.
Qed.

Lemma heap_le_snoc `{!Reflexive R} l x : heap_le R l (l ++ [x]).
Proof. intros j y Hy. exists y. split; [by apply snoc_lookup_fwd|done]. Qed.

Lemma heap_le_length l l' : heap_le R l l' → length l ≤ length l'.
Proof.
  intros H. destruct (decide (length l ≤ length l')) as [|Hn]; [done|].
  destruct (lookup_lt_is_Some_2 l (length l')) as [x Hx]; [lia|].
  destruct (H _ _ Hx) as (y & Hy & _). apply lookup_lt_Some in Hy. lia.
Qed.
End HeapLe.

#[export] Instance same_session_refl : Reflexive same_session.
Proof. by intros x. Qed.
#[export] Instance same_session_trans : Transitive same_session.
Proof. intros x y z [] []. split; congruence. Qed.
#[export] Instance same_connect_refl : Reflexive same_connect.
Proof. by intros x. Qed.
#[export] Instance same_connect_trans : Transitive same_connect.
Proof.
  intros x y z (?&?&H1) (?&?&H2). repeat split; try congruence.
  intros Hx. rewrite H2, H1; [done..|]. by rewrite H1.
Qed.
#[export] Instance same_timer_refl : Reflexive same_timer.
Proof. by intros x. Qed.
#[export] Instance same_timer_trans : Transitive same_timer.
Proof. intros x y z (?&?&?) (?&?&?). repeat split; try congruence; auto. Qed.
#[export] Instance same_exec_refl : Reflexive same_exec.
Proof. by intros x. Qed.
#[export] Instance same_exec_trans : Transitive same_exec.
Proof.
  intros x y z (?&?&?&?&?) (?&?&?&?&?). repeat split; try congruence; auto.
Qed.
#[export] Instance same_stream_refl : Reflexive same_stream.
Proof. by intros x. Qed.
#[export] Instance same_stream_trans : Transitive same_stream.
Proof. intros x y z (?&?&?) (?&?&?). repeat split; try congruence; auto. Qed.
#[export] Instance same_read_refl : Reflexive same_read.
Proof. by intros x. Qed.
#[export] Instance same_read_trans : Transitive same_read.
Proof. intros x y z (?&?&?&?) (?&?&?&?). repeat split; try congruence; auto. Qed.
#[export] Instance same_client_refl : Reflexive same_client.
Proof. by intros x l. Qed.
#[export] Instance same_client_trans : Transitive same_client.
Proof. intros x y z H1 H2 l Hl Hn. auto. Qed.
#[export] Instance same_outcome_refl : Reflexive same_outcome.
Proof. by intros x o. Qed.
#[export] Instance same_outcome_trans : Transitive same_outcome.
Proof. intros x y z H1 H2 o Ho. auto. Qed.

Lemma extends_refl w : extends w w.
Proof. split; apply heap_le_refl; apply _. Qed.

Lemma extends_trans w1 w2 w3 : extends w1 w2 → extends w2 w3 → extends w1 w3.
Proof. intros [] []. split; eapply heap_le_trans; eauto; apply _. Qed.

(** One field is updated in place or grows by one object. *)
Ltac ext_prim :=
  split; prims;
  first
    [ apply heap_le_refl; apply _
    | apply heap_le_snoc; apply _
    | apply heap_le_alter; [apply _|]; intros [] ?; repeat split; cbn; auto ].

Lemma extends_update_session s f w :
  (∀ x, same_session x (f x)) → extends w (update_session s f w).
Proof.
  intros Hf. split; prims; try (apply heap_le_refl; apply _).
  apply heap_le_alter; [apply _|]. auto.
Qed.

Lemma extends_emit_effect e w : extends w (emit_effect e w).
Proof. ext_prim. Qed.

Lemma extends_new_client ls w : extends w (new_client ls w).
Proof. ext_prim. Qed.

Lemma extends_clients_alter g c l w :
  (∀ x, same_client x (g x)) →
  l = clients w → extends w (set_clients (alter g c l) w).
Proof.
  intros Hg ->. split; prims; try (apply heap_le_refl; apply _).
  apply heap_le_alter; [apply _|]. auto.
Qed.

Lemma same_client_filter (P : Listener → Prop) `{∀ l, Decision (P l)} x :
  same_client x {| listeners := filter P (listeners x) |}.
Proof. intros l Hl _. cbn in Hl. by apply list_elem_of_filter in Hl as [_ ?]. Qed.

Lemma same_client_once p x :
  same_client x {| listeners := listeners x ++ [OnceReady p; OnceError p] |}.
Proof.
  intros l Hl Hn. cbn in Hl. apply elem_of_app in Hl as [?|Hl]; [done|].
  rewrite !elem_of_cons, elem_of_nil in Hl. by destruct Hl as [->|[->|[]]].
Qed.

Lemma same_client_none x : same_client x {| listeners := [] |}.
Proof. intros l Hl. by apply elem_of_nil in Hl. Qed.

Lemma extends_add_listeners c p w :
  extends w (add_listeners c [OnceReady p; OnceError p] w).
Proof. apply extends_clients_alter; [apply same_client_once|done]. Qed.

Lemma extends_removeAllListeners c w : extends w (removeAllListeners c w).
Proof. apply extends_clients_alter; [apply same_client_none|done]. Qed.

Lemma extends_cleanup p c w : extends w (cleanup p c w).
Proof. apply extends_clients_alter; [intros x; apply same_client_filter|done]. Qed.

Lemma extends_setTimeout cb d w : extends w (setTimeout cb d w).
Proof. ext_prim. Qed.

Lemma extends_clearTimeout t w : extends w (clearTimeout t w).
Proof. ext_prim. Qed.

Lemma extends_new_call w : extends w (new_call w).
Proof. ext_prim. Qed.

Lemma extends_set_connections x w : extends w (set_connections x w).
Proof. ext_prim. Qed.

Lemma extends_sessions_snoc x l w :
  l = sessions w → extends w (set_sessions (l ++ [x]) w).
Proof. intros ->. ext_prim. Qed.

Lemma extends_reads_snoc x l w : l = reads w → extends w (set_reads (l ++ [x]) w).
Proof. intros ->. ext_prim. Qed.

Lemma extends_reads_mark i l w :
  l = reads w → extends w (set_reads (alter mark_read i l) w).
Proof. intros ->. ext_prim. Qed.

Lemma extends_execs_snoc x l w : l = execs w → extends w (set_execs (l ++ [x]) w).
Proof. intros ->. ext_prim. Qed.

Lemma extends_execs_called i l w :
  l = execs w → extends w (set_execs (alter mark_called i l) w).
Proof. intros ->. ext_prim. Qed.

Lemma extends_execs_settled i l w :
  l = execs w → extends w (set_execs (alter mark_settled i l) w).
Proof. intros ->. ext_prim. Qed.

Lemma extends_streams_snoc x l w :
  l = streams w → extends w (set_streams (l ++ [x]) w).
Proof. intros ->. ext_prim. Qed.

Lemma extends_streams_closed i l w :
  l = streams w → extends w (set_streams (alter mark_closed i l) w).
Proof. intros ->. ext_prim. Qed.

Lemma extends_stream_data st d w : extends w (stream_data st d w).
Proof. unfold stream_data. ext_prim. Qed.

Lemma extends_stream_stderr st d w : extends w (stream_stderr st d w).
Proof. unfold stream_stderr. ext_prim. Qed.

Lemma extends_connects_snoc x l w :
  l = connects w → extends w (set_connects (l ++ [x]) w).
Proof. intros ->. ext_prim. Qed.

Lemma extends_settle r o w : extends w (settle r o w).
Proof.
  unfold settle. destruct (outcomes w !! r) as [[o'|]|] eqn:Hr;
    try apply extends_refl.
  split; prims; try (apply heap_le_refl; apply _).
  rewrite list_insert_alter. apply heap_le_alter; [apply _|].
  intros x Hx o' ->. congruence.
Qed.

Create HintDb ext.

#[export] Hint Resolve extends_emit_effect extends_new_client
  extends_add_listeners extends_removeAllListeners
  extends_cleanup extends_setTimeout extends_clearTimeout extends_new_call
  extends_set_connections extends_stream_data extends_stream_stderr
  extends_settle : ext.

#[export] Hint Extern 1 (extends _ (set_clients (alter _ _ _) _)) =>
  apply extends_clients_alter;
    [intros ?; first [apply same_client_filter|apply same_client_once
                     |apply same_client_none]
    |reflexivity] : ext.
#[export] Hint Extern 1 (extends _ (set_sessions (_ ++ [_]) _)) =>
  apply extends_sessions_snoc; reflexivity : ext.
#[export] Hint Extern 1 (extends _ (set_reads (_ ++ [_]) _)) =>
  apply extends_reads_snoc; reflexivity : ext.
#[export] Hint Extern 1 (extends _ (set_reads (alter mark_read _ _) _)) =>
  apply extends_reads_mark; reflexivity : ext.
#[export] Hint Extern 1 (extends _ (set_execs (_ ++ [_]) _)) =>
  apply extends_execs_snoc; reflexivity : ext.
#[export] Hint Extern 1 (extends _ (set_execs (alter mark_called _ _) _)) =>
  apply extends_execs_called; reflexivity : ext.
#[export] Hint Extern 1 (extends _ (set_execs (alter mark_settled _ _) _)) =>
  apply extends_execs_settled; reflexivity : ext.
#[export] Hint Extern 1 (extends _ (set_streams (_ ++ [_]) _)) =>
  apply extends_streams_snoc; reflexivity : ext.
#[export] Hint Extern 1 (extends _ (set_streams (alter mark_closed _ _) _)) =>
  apply extends_streams_closed; reflexivity : ext.
#[export] Hint Extern 1 (extends _ (set_connects (_ ++ [_]) _)) =>
  apply extends_connects_snoc; reflexivity : ext.

#[export] Hint Extern 1 (extends _ (update_session _ _ _)) =>
  apply extends_update_session; intros []; done : ext.

Ltac ext_op := solve [auto with ext nocore].

Ltac ext_chain :=
  repeat first [ ext_op | eapply extends_trans; [|ext_op] ];
  try apply extends_refl.

Lemma extends_exec_open r s cmd w : extends w (exec_open r s cmd w).
Proof. unfold exec_open. repeat case_match; ext_chain. Qed.

#[export] Hint Resolve extends_exec_open : ext.

Lemma extends_resume s k res w : extends w (resume s k res w).
Proof. unfold resume. repeat case_match; ext_chain. Qed.

#[export] Hint Resolve extends_resume : ext.

Lemma extends_settle_connect p res w : extends w (settle_connect p res w).
Proof.
  unfold settle_connect.
  destruct (connects w !! p) as [cc|] eqn:Hcc; [|apply extends_refl].
  destruct (cc_state cc) eqn:Hst; try apply extends_refl.
  eapply extends_trans; [|apply extends_resume].
  split; prims; try (apply heap_le_refl; apply _).
  apply heap_le_alter; [apply _|]. intros x Hx. repeat split. congruence.
Qed.

Lemma extends_settle_exec i o w : extends w (settle_exec i o w).
Proof. unfold settle_exec. repeat case_match; ext_chain. Qed.

#[export] Hint Resolve extends_settle_connect extends_settle_exec : ext.

Lemma extends_scheduleReconnect now s w : extends w (scheduleReconnect now s w).
Proof. unfold scheduleReconnect. repeat case_match; ext_chain. Qed.

#[export] Hint Resolve extends_scheduleReconnect : ext.

Lemma extends_lost now s w : extends w (lost now s w).
Proof. unfold lost. ext_chain. Qed.

Lemma extends_connect_open p c cfg w : extends w (connect_open p c cfg w).
Proof. unfold connect_open. ext_chain. Qed.

#[export] Hint Resolve extends_lost extends_connect_open : ext.

Lemma extends_connect s k w : extends w (connect s k w).
Proof. unfold connect. cbn zeta. repeat case_match; ext_chain. Qed.

Lemma extends_disconnect s w : extends w (disconnect s w).
Proof. unfold disconnect. repeat case_match; ext_chain. Qed.

#[export] Hint Resolve extends_connect extends_disconnect : ext.

Lemma extends_exec now s cmd w : extends w (exec now s cmd w).
Proof. unfold exec. cbn zeta. repeat case_match; ext_chain. Qed.

Lemma extends_handle now c ev l w : extends w (handle now c ev l w).
Proof. unfold handle. repeat case_match; ext_chain. Qed.

Lemma extends_foldl {A} (f : World → A → World) (l : list A) w :
  (∀ w x, extends w (f w x)) → extends w (foldl f w l).
Proof.
  intros Hf. revert w. induction l as [|x l IH]; intros w; simpl.
  - apply extends_refl.
  - eapply extends_trans; [apply Hf|apply IH].
Qed.

Lemma extends_emit now c ev w : extends w (emit now c ev w).
Proof.
  unfold emit. case_match; [|apply extends_refl]. cbn zeta.
  eapply extends_trans; [|apply extends_foldl; intros; apply extends_handle].
  ext_chain.
Qed.

Lemma extends_get now id cfg w : extends w (get now id cfg w).
Proof. unfold get. cbn zeta. repeat case_match; ext_chain. Qed.

Lemma extends_close id w : extends w (close id w).
Proof. unfold close. cbn zeta. repeat case_match; ext_chain. Qed.

Lemma extends_closeAll w : extends w (closeAll w).
Proof.
  unfold closeAll. eapply extends_trans; [|apply extends_set_connections].
  apply extends_foldl. intros; apply extends_disconnect.
Qed.

Lemma extends_stream_close now st code w : extends w (stream_close now st code w).
Proof. unfold stream_close. cbn zeta. repeat case_match; ext_chain. Qed.

Lemma extends_run_timer cb w : extends w (run_timer cb w).
Proof. unfold run_timer. repeat case_match; ext_chain. Qed.

(** Inversion of a successful step: the guards hold and the result is the
    operation applied to the world. *)
Ltac opt_inv H :=
  repeat
    match type of H with
    | (?x ≫= _) = Some _ =>
        let E := fresh "E" in
        destruct x eqn:E; [cbn [mbind option_bind] in H|discriminate H]
    | (if ?b then _ else _) = Some _ =>
        let E := fresh "E" in destruct b eqn:E; try discriminate H
    | Some _ = Some _ => injection H as <-
    | None = Some _ => discriminate H
    end.

Ltac step_inv H :=
  cbn [step] in H;
  unfold read_done, exec_callback, fire, open_stream in H;
  opt_inv H.

Lemma extends_step now ev w w' : step now ev w = Some w' → extends w w'.
Proof.
  intros H. destruct ev; step_inv H.
  - apply extends_get.
  - apply extends_close.
  - apply extends_closeAll.
  - ext_chain.
  - apply extends_exec.
  - apply extends_disconnect.
  - apply extends_emit.
  - repeat case_match; ext_chain.
  - repeat case_match; ext_chain.
  - ext_chain.
  - ext_chain.
  - apply extends_stream_close.
  - eapply extends_trans; [|apply extends_run_timer]. ext_chain.
Qed.

Lemma extends_run tr w w' : run tr w = Some w' → extends w w'.
Proof.
  revert w. induction tr as [|[now ev] tr IH]; intros w; simpl.
  - intros [= ->]. apply extends_refl.
  - intros H. destruct (step now ev w) as [w1|] eqn:Hs; simpl in H; [|done].
    eapply extends_trans; [eapply extends_step; eauto|eauto].
Qed.

(** ** The transport handle and the long-lived handlers *)

Section Handle.
Implicit Types (ss : list SSHConnection) (cs : list Client).

Lemma handle_nil : inv_handle [] [].
Proof. split; intros *; rewrite ?lookup_nil; done. Qed.

Lemma handle_bound ss cs s this c :
  inv_handle ss cs → ss !! s = Some this → client this = Some c → c < length cs.
Proof.
  intros I Hs Hc. destruct (handle_subscribed _ _ I _ _ _ Hs Hc) as (cl & Hcl & _).
  by eapply lookup_lt_Some.
Qed.

Lemma handle_sessions_alter f s ss cs :
  (∀ x, client (f x) = client x) →
  inv_handle ss cs → inv_handle (alter f s ss) cs.
Proof.
  intros Hf I. split.
  - intros s1 this1 c H1 Hc.
    apply alter_lookup_inv in H1 as (x & Hx & [[_ ->]|[_ ->]]);
      [|rewrite Hf in Hc]; eapply handle_subscribed; eauto.
  - intros c cl l s1 Hcl Hl Hs1.
    destruct (handle_owner _ _ I _ _ _ _ Hcl Hl Hs1) as (this & Hthis & Hc).
    destruct (alter_lookup_fwd f _ s _ _ Hthis) as (y & Hy & [[_ ->]|[_ ->]]); eauto.
    exists (f this). by rewrite Hf.
  - intros s1 s2 this1 this2 c H1 H2 Hc1 Hc2.
    apply alter_lookup_inv in H1 as (x1 & Hx1 & E1).
    apply alter_lookup_inv in H2 as (x2 & Hx2 & E2).
    eapply (handle_unique _ _ I s1 s2 x1 x2 c); eauto.
    + destruct E1 as [[_ ->]|[_ ->]]; [|rewrite Hf in Hc1]; done.
    + destruct E2 as [[_ ->]|[_ ->]]; [|rewrite Hf in Hc2]; done.
Qed.

Lemma handle_clients_alter g c ss cs :
  (∀ cl l, lost_of l ≠ None → l ∈ listeners (g cl) ↔ l ∈ listeners cl) →
  inv_handle ss cs → inv_handle ss (alter g c cs).
Proof.
  intros Hg I. split.
  - intros s this c1 Hs Hc.
    destruct (handle_subscribed _ _ I _ _ _ Hs Hc) as (cl & Hcl & Hin).
    destruct (alter_lookup_fwd g _ c _ _ Hcl) as (y & Hy & [[_ ->]|[_ ->]]); eauto.
    exists (g cl). split; [done|]. by rewrite Hg.
  - intros c1 cl l s Hcl Hl Hs.
    apply alter_lookup_inv in Hcl as (x & Hx & [[_ ->]|[_ ->]]).
    + eapply handle_owner; eauto.
    + rewrite Hg in Hl by congruence. eapply handle_owner; eauto.
  - apply I.
Qed.

Lemma handle_sessions_snoc x ss cs :
  client x = None → inv_handle ss cs → inv_handle (ss ++ [x]) cs.
Proof.
  intros Hx I. split.
  - intros s this c Hs Hc.
    apply snoc_lookup_inv in Hs as [Hs|[_ ->]]; [|congruence].
    eapply handle_subscribed; eauto.
  - intros c cl l s Hcl Hl Hs.
    destruct (handle_owner _ _ I _ _ _ _ Hcl Hl Hs) as (this & Hthis & Hc).
    exists this. split; [by apply snoc_lookup_fwd|done].
  - intros s1 s2 this1 this2 c H1 H2 Hc1 Hc2.
    apply snoc_lookup_inv in H1 as [H1|[_ ->]]; [|congruence].
    apply snoc_lookup_inv in H2 as [H2|[_ ->]]; [|congruence].
    eapply (handle_unique _ _ I); eauto.
Qed.

(** Lines 31-46 of [connect()]: the old client, if any, is stripped, a new
    one is created with the session's handlers and becomes [this.client]. *)
Lemma handle_attach s this ss cs cs' :
  ss !! s = Some this →
  length cs' = length cs →
  (∀ c cl', cs' !! c = Some cl' →
     ∃ cl, cs !! c = Some cl ∧
           (client this = Some c → listeners cl' = []) ∧
           (client this ≠ Some c → cl' = cl)) →
  inv_handle ss cs →
  inv_handle (alter (with_client (Some (length cs'))) s ss)
             (cs' ++ [lost_handlers s]).
Proof.
  intros Hs Hlen Hcs' I.
  assert (Hfwd : ∀ c cl, cs !! c = Some cl → client this ≠ Some c →
                         cs' !! c = Some cl).
  { intros c cl Hcl Hne.
    destruct (lookup_lt_is_Some_2 cs' c) as [cl' Hcl'].
    { rewrite Hlen. by eapply lookup_lt_Some. }
    destruct (Hcs' _ _ Hcl') as (cl0 & Hcl0 & _ & Hsame).
    rewrite (Hsame Hne) in Hcl'. congruence. }
  split.
  - intros s1 this1 c H1 Hc.
    apply alter_lookup_inv in H1 as (x & Hx & [[Hne ->]|[<- ->]]).
    + destruct (handle_subscribed _ _ I _ _ _ Hx Hc) as (cl & Hcl & Hin).
      exists cl. split; [|done]. apply snoc_lookup_fwd, Hfwd; [done|].
      intros Hthis. apply Hne. eapply (handle_unique _ _ I); eauto.
    + simpl in Hc. injection Hc as <-. exists (lost_handlers s).
      split; [apply snoc_lookup_new|]. simpl. apply elem_of_cons; auto.
  - intros c cl l s1 Hcl Hl Hs1.
    apply snoc_lookup_inv in Hcl as [Hcl|[-> ->]].
    + destruct (Hcs' _ _ Hcl) as (cl0 & Hcl0 & Hstrip & Hsame).
      destruct (decide (client this = Some c)) as [E|E].
      { rewrite (Hstrip E) in Hl. by apply elem_of_nil in Hl. }
      rewrite (Hsame E) in Hl.
      destruct (handle_owner _ _ I _ _ _ _ Hcl0 Hl Hs1) as (this1 & Hthis1 & Hc1).
      destruct (decide (s = s1)) as [<-|Hne]; [congruence|].
      exists this1. by rewrite list_lookup_alter_ne.
    + assert (s1 = s) as ->.
      { simpl in Hl. rewrite !elem_of_cons, elem_of_nil in Hl.
        destruct Hl as [->|[->|[->|[]]]]; simpl in Hs1; congruence. }
      exists (with_client (Some (length cs')) this).
      by rewrite list_lookup_alter_eq, Hs.
  - intros s1 s2 this1 this2 c H1 H2 Hc1 Hc2.
    apply alter_lookup_inv in H1 as (x1 & Hx1 & E1).
    apply alter_lookup_inv in H2 as (x2 & Hx2 & E2).
    destruct E1 as [[Hn1 ->]|[<- ->]], E2 as [[Hn2 ->]|[<- ->]]; [|exfalso..|done].
    + eapply (handle_unique _ _ I); eauto.
    + simpl in Hc2. injection Hc2 as <-.
      pose proof (handle_bound _ _ _ _ _ I Hx1 Hc1). lia.
    + simpl in Hc1. injection Hc1 as <-.
      pose proof (handle_bound _ _ _ _ _ I Hx2 Hc2). lia.
Qed.

Lemma handle_attach_fresh s this ss cs :
  ss !! s = Some this → client this = None →
  inv_handle ss cs →
  inv_handle (alter (with_client (Some (length cs))) s ss)
             (cs ++ [lost_handlers s]).
Proof.
  intros Hs Hc. apply (handle_attach s this); [done..|].
  intros c cl' Hcl'. exists cl'. rewrite Hc. done.
Qed.

Lemma handle_attach_replace s this old ss cs :
  ss !! s = Some this → client this = Some old →
  inv_handle ss cs →
  inv_handle (alter (with_client (Some (length (alter no_listeners old cs)))) s ss)
             (alter no_listeners old cs ++ [lost_handlers s]).
Proof.
  intros Hs Hc. apply (handle_attach s this); [done|apply length_alter|].
  intros c cl' Hcl'. apply alter_lookup_inv in Hcl' as (cl & Hcl & [[Hne ->]|[<- ->]]).
  - exists cl. rewrite Hc. split; [done|]. split; [congruence|done].
  - exists cl. rewrite Hc. split; [done|]. split; [done|congruence].
Qed.

(** Line 100 of [disconnect()]. *)
Lemma handle_detach s this c ss cs :
  ss !! s = Some this → client this = Some c →
  inv_handle ss cs →
  inv_handle (alter (with_client None) s ss) (alter no_listeners c cs).
Proof.
  intros Hs Hc I. split.
  - intros s1 this1 c1 H1 Hc1.
    apply alter_lookup_inv in H1 as (x & Hx & [[Hne ->]|[<- ->]]); [|done].
    destruct (handle_subscribed _ _ I _ _ _ Hx Hc1) as (cl & Hcl & Hin).
    exists cl. split; [|done]. rewrite list_lookup_alter_ne; [done|].
    intros <-. apply Hne. eapply (handle_unique _ _ I); eauto.
  - intros c1 cl l s1 Hcl Hl Hs1.
    apply alter_lookup_inv in Hcl as (x & Hx & [[Hne ->]|[<- ->]]);
      [|by apply elem_of_nil in Hl].
    destruct (handle_owner _ _ I _ _ _ _ Hx Hl Hs1) as (this1 & Hthis1 & Hc1').
    destruct (decide (s = s1)) as [<-|Hn]; [congruence|].
    exists this1. by rewrite list_lookup_alter_ne.
  - intros s1 s2 this1 this2 c1 H1 H2 Hc1 Hc2.
    apply alter_lookup_inv in H1 as (x1 & Hx1 & [[_ ->]|[_ ->]]); [|done].
    apply alter_lookup_inv in H2 as (x2 & Hx2 & [[_ ->]|[_ ->]]); [|done].
    eapply (handle_unique _ _ I); eauto.
Qed.
End Handle.

(** ** Reconnect timers *)

Section Timer.
Implicit Types (ss : list SSHConnection) (ts : list Timer).

Lemma timer_nil : inv_timer [] [].
Proof. intros t tm s H. by rewrite lookup_nil in H. Qed.

Lemma timer_sessions_alter f s ss ts :
  (∀ x, reconnectTimer (f x) = reconnectTimer x) →
  inv_timer ss ts → inv_timer (alter f s ss) ts.
Proof.
  intros Hf I t tm s1 Ht Ha Hc.
  destruct (I _ _ _ Ht Ha Hc) as (this & Hthis & Hr).
  destruct (alter_lookup_fwd f _ s _ _ Hthis) as (y & Hy & [[_ ->]|[_ ->]]); eauto.
  exists (f this). by rewrite Hf.
Qed.

Lemma timer_sessions_snoc x ss ts :
  inv_timer ss ts → inv_timer (ss ++ [x]) ts.
Proof.
  intros I t tm s1 Ht Ha Hc.
  destruct (I _ _ _ Ht Ha Hc) as (this & Hthis & Hr).
  exists this. split; [by apply snoc_lookup_fwd|done].
Qed.

Lemma timer_disarm t0 ss ts :
  inv_timer ss ts → inv_timer ss (alter disarm t0 ts).
Proof.
  intros I t tm s1 Ht Ha Hc.
  apply alter_lookup_inv in Ht as (x & Hx & [[_ ->]|[_ ->]]); [|done].
  eapply I; eauto.
Qed.

Lemma timer_snoc_exec st d ss ts :
  inv_timer ss ts →
  inv_timer ss (ts ++ [{| callback := TExecTimeout st; delay := d; armed := true |}]).
Proof.
  intros I t tm s1 Ht Ha Hc.
  apply snoc_lookup_inv in Ht as [Ht|[_ ->]]; [|done].
  eapply I; eauto.
Qed.

(** Lines 19-25 of [scheduleReconnect()] when the timer is armed. *)
Lemma timer_schedule s this d ss ts ts' :
  ss !! s = Some this →
  (∀ t tm', ts' !! t = Some tm' → armed tm' = true →
     reconnectTimer this ≠ Some t ∧
     ∃ tm, ts !! t = Some tm ∧ armed tm = true ∧ callback tm = callback tm') →
  inv_timer ss ts →
  inv_timer (alter (with_reconnectTimer (Some (length ts'))) s ss)
            (ts' ++ [{| callback := TReconnect s; delay := d; armed := true |}]).
Proof.
  intros Hs Hts' I t tm s1 Ht Ha Hc.
  apply snoc_lookup_inv in Ht as [Ht|[-> ->]].
  - destruct (Hts' _ _ Ht Ha) as (Hne & tm0 & Htm0 & Ha0 & Hc0).
    rewrite <-Hc0 in Hc.
    destruct (I _ _ _ Htm0 Ha0 Hc) as (this1 & Hthis1 & Hr).
    destruct (decide (s = s1)) as [<-|Hn]; [congruence|].
    exists this1. by rewrite list_lookup_alter_ne.
  - simpl in Hc. injection Hc as <-.
    exists (with_reconnectTimer (Some (length ts')) this).
    by rewrite list_lookup_alter_eq, Hs.
Qed.

Lemma timer_schedule_fresh s this d ss ts :
  ss !! s = Some this → reconnectTimer this = None →
  inv_timer ss ts →
  inv_timer (alter (with_reconnectTimer (Some (length ts))) s ss)
            (ts ++ [{| callback := TReconnect s; delay := d; armed := true |}]).
Proof.
  intros Hs Hr. apply (timer_schedule s this); [done|].
  intros t tm' Ht Ha. rewrite Hr. eauto.
Qed.

Lemma timer_schedule_replace s this t0 d ss ts :
  ss !! s = Some this → reconnectTimer this = Some t0 →
  inv_timer ss ts →
  inv_timer (alter (with_reconnectTimer (Some (length (alter disarm t0 ts)))) s ss)
            (alter disarm t0 ts ++
               [{| callback := TReconnect s; delay := d; armed := true |}]).
Proof.
  intros Hs Hr. apply (timer_schedule s this); [done|].
  intros t tm' Ht Ha. rewrite Hr.
  apply alter_lookup_inv in Ht as (x & Hx & [[Hne ->]|[_ ->]]); [|done].
  split; [congruence|eauto].
Qed.

(** Line 99 of [disconnect()]. *)
Lemma timer_drop s this t0 ss ts :
  ss !! s = Some this → reconnectTimer this = Some t0 →
  inv_timer ss ts →
  inv_timer (alter (with_reconnectTimer None) s ss) (alter disarm t0 ts).
Proof.
  intros Hs Hr I t tm s1 Ht Ha Hc.
  apply alter_lookup_inv in Ht as (x & Hx & [[Hne ->]|[_ ->]]); [|done].
  destruct (I _ _ _ Hx Ha Hc) as (this1 & Hthis1 & Hr1).
  destruct (decide (s = s1)) as [<-|Hn]; [congruence|].
  exists this1. by rewrite list_lookup_alter_ne.
Qed.
End Timer.

(** ** Credentials *)

Section Auth.
Implicit Types (ss : list SSHConnection) (cs : list Client).
Implicit Types (rs : list PendingRead) (ccs : list ConnectCall).
Context (Q : nat → SSHConnectionConfig → Prop).

Lemma auth_nil : inv_auth Q [] [] [] [].
Proof. split; intros *; rewrite ?lookup_nil; done. Qed.

Lemma auth_call_sessions_alter f s ss ccs p :
  (∀ x, config (f x) = config x) →
  auth_call Q ss ccs p → auth_call Q (alter f s ss) ccs p.
Proof.
  intros Hf (cc & this & Hcc & Hthis & Ha).
  destruct (alter_lookup_fwd f _ s _ _ Hthis) as (y & Hy & [[_ ->]|[_ ->]]).
  - by exists cc, this.
  - exists cc, (f this). by rewrite Hf.
Qed.

Lemma auth_call_sessions_snoc x ss ccs p :
  auth_call Q ss ccs p → auth_call Q (ss ++ [x]) ccs p.
Proof.
  intros (cc & this & Hcc & Hthis & Ha). exists cc, this.
  split; [done|]. split; [by apply snoc_lookup_fwd|done].
Qed.

Lemma auth_call_connects_snoc cc ss ccs p :
  auth_call Q ss ccs p → auth_call Q ss (ccs ++ [cc]) p.
Proof.
  intros (cc0 & this & Hcc & Hthis & Ha). exists cc0, this.
  split; [by apply snoc_lookup_fwd|done].
Qed.

Lemma auth_call_connects_alter res q ss ccs p :
  auth_call Q ss ccs p → auth_call Q ss (alter (settled res) q ccs) p.
Proof.
  intros (cc & this & Hcc & Hthis & Ha).
  destruct (alter_lookup_fwd (settled res) _ q _ _ Hcc) as (y & Hy & [[_ ->]|[_ ->]]).
  - by exists cc, this.
  - by exists (settled res cc), this.
Qed.

Lemma auth_sessions_alter f s ss cs rs ccs :
  (∀ x, config (f x) = config x) →
  (∀ x, ss !! s = Some x → isConnected (f x) = true →
        isConnected x = true ∨ Q s (config x)) →
  inv_auth Q ss cs rs ccs → inv_auth Q (alter f s ss) cs rs ccs.
Proof.
  intros Hf Hc I. split.
  - intros s1 this1 H1 Hcon.
    apply alter_lookup_inv in H1 as (x & Hx & [[_ ->]|[<- ->]]).
    + eapply auth_connected; eauto.
    + rewrite Hf. destruct (Hc _ Hx Hcon) as [E|E]; [|done].
      eapply auth_connected; eauto.
  - intros c cl p Hcl Hin. apply auth_call_sessions_alter; [done|].
    eapply auth_ready; eauto.
  - intros i rd Hrd Hd. apply auth_call_sessions_alter; [done|].
    eapply auth_read; eauto.
Qed.

Lemma auth_sessions_snoc x ss cs rs ccs :
  isConnected x = false →
  inv_auth Q ss cs rs ccs → inv_auth Q (ss ++ [x]) cs rs ccs.
Proof.
  intros Hx I. split.
  - intros s1 this1 H1 Hcon.
    apply snoc_lookup_inv in H1 as [H1|[_ ->]]; [|congruence].
    eapply auth_connected; eauto.
  - intros c cl p Hcl Hin. apply auth_call_sessions_snoc.
    eapply auth_ready; eauto.
  - intros i rd Hrd Hd. apply auth_call_sessions_snoc.
    eapply auth_read; eauto.
Qed.

Lemma auth_clients_alter g c ss cs rs ccs :
  (∀ cl p, cs !! c = Some cl → OnceReady p ∈ listeners (g cl) →
           OnceReady p ∈ listeners cl ∨ auth_call Q ss ccs p) →
  inv_auth Q ss cs rs ccs → inv_auth Q ss (alter g c cs) rs ccs.
Proof.
  intros Hg I. split; [apply I| |apply I].
  intros c1 cl p Hcl Hin.
  apply alter_lookup_inv in Hcl as (x & Hx & [[_ ->]|[<- ->]]).
  - eapply auth_ready; eauto.
  - destruct (Hg _ _ Hx Hin) as [E|E]; [|done]. eapply auth_ready; eauto.
Qed.

Lemma auth_clients_snoc cl ss cs rs ccs :
  (∀ p, OnceReady p ∉ listeners cl) →
  inv_auth Q ss cs rs ccs → inv_auth Q ss (cs ++ [cl]) rs ccs.
Proof.
  intros Hcl I. split; [apply I| |apply I].
  intros c1 cl1 p H1 Hin.
  apply snoc_lookup_inv in H1 as [H1|[_ ->]]; [|by apply Hcl in Hin].
  eapply auth_ready; eauto.
Qed.

Lemma auth_reads_snoc rd ss cs rs ccs :
  auth_call Q ss ccs (rd_connect rd) →
  inv_auth Q ss cs rs ccs → inv_auth Q ss cs (rs ++ [rd]) ccs.
Proof.
  intros Hrd I. split; [apply I..|].
  intros i rd1 H1 Hd.
  apply snoc_lookup_inv in H1 as [H1|[_ ->]]; [|done].
  eapply auth_read; eauto.
Qed.

Lemma auth_reads_alter i ss cs rs ccs :
  inv_auth Q ss cs rs ccs → inv_auth Q ss cs (alter mark_read i rs) ccs.
Proof.
  intros I. split; [apply I..|].
  intros j rd1 H1 Hd.
  apply alter_lookup_inv in H1 as (x & Hx & [[_ ->]|[_ ->]]); [|done].
  eapply auth_read; eauto.
Qed.

Lemma auth_connects_snoc cc ss cs rs ccs :
  inv_auth Q ss cs rs ccs → inv_auth Q ss cs rs (ccs ++ [cc]).
Proof.
  intros I. split; [apply I|..].
  - intros c cl p Hcl Hin. apply auth_call_connects_snoc. eapply auth_ready; eauto.
  - intros i rd Hrd Hd. apply auth_call_connects_snoc. eapply auth_read; eauto.
Qed.

Lemma auth_connects_alter res q ss cs rs ccs :
  inv_auth Q ss cs rs ccs → inv_auth Q ss cs rs (alter (settled res) q ccs).
Proof.
  intros I. split; [apply I|..].
  - intros c cl p Hcl Hin. apply auth_call_connects_alter. eapply auth_ready; eauto.
  - intros i rd Hrd Hd. apply auth_call_connects_alter. eapply auth_read; eauto.
Qed.
End Auth.

(** ** Pending calls *)

Section Omap.
Context {A B : Type} (f : A → option B).
Implicit Types (l : list A) (g : A → A).

Lemma omap_alter_same g i l x :
  l !! i = Some x → f (g x) = f x → omap f (alter g i l) = omap f l.
Proof.
  revert i. induction l as [|a l IH]; intros [|i] Hi Hg; try done.
  - injection Hi as ->. cbn. by rewrite Hg.
  - pose proof (IH i Hi Hg) as E. cbn in *. destruct (f a); [f_equal|]; exact E.
Qed.

Lemma omap_alter_ge g i l : length l ≤ i → omap f (alter g i l) = omap f l.
Proof.
  revert i. induction l as [|a l IH]; intros [|i] Hi; try done.
  - simpl in Hi. lia.
  - assert (length l ≤ i) as Hi' by (simpl in Hi; lia).
    pose proof (IH i Hi') as E. cbn in *. destruct (f a); [f_equal|]; exact E.
Qed.

Lemma omap_alter_remove g i l x r :
  l !! i = Some x → f x = Some r → f (g x) = None →
  omap f l ≡ₚ (r :: omap f (alter g i l)).
Proof.
  revert i. induction l as [|a l IH]; intros [|i] Hi Hx Hg; try done.
  - injection Hi as ->. cbn. by rewrite Hx, Hg.
  - pose proof (IH i Hi Hx Hg) as E. cbn in *. destruct (f a); [|exact E].
    etrans; [apply perm_skip, E|apply perm_swap].
Qed.

Lemma omap_snoc_Some l x r : f x = Some r → omap f (l ++ [x]) ≡ₚ (r :: omap f l).
Proof.
  intros Hx. rewrite omap_app. simpl. rewrite Hx.
  by rewrite Permutation_app_comm.
Qed.

Lemma omap_snoc_None l x : f x = None → omap f (l ++ [x]) = omap f l.
Proof. intros Hx. rewrite omap_app. simpl. rewrite Hx. apply app_nil_r. Qed.
End Omap.

Section Live.
Implicit Types (ccs : list ConnectCall) (es : list ExecCall).
Implicit Types (os : list (option Outcome)).

Lemma live_nil : inv_live [] [] [].
Proof. split; [constructor|]. intros r Hr. by apply elem_of_nil in Hr. Qed.

Lemma inv_live_perm ccs es ccs' es' os :
  live ccs es ≡ₚ live ccs' es' → inv_live ccs es os → inv_live ccs' es' os.
Proof.
  intros Hp [Hnd Hpend]. split; [by rewrite <-Hp|].
  intros r Hr. apply Hpend. by rewrite Hp.
Qed.

(** One awaited call fewer. *)
Lemma inv_live_remove ccs es ccs' es' os r :
  live ccs es ≡ₚ (r :: live ccs' es') →
  inv_live ccs es os →
  inv_live ccs' es' os ∧ (r ∉ live ccs' es') ∧ os !! r = Some None.
Proof.
  intros Hp [Hnd Hpend]. rewrite Hp in Hnd. apply NoDup_cons in Hnd as [Hni Hnd].
  split; [split; [done|] | split; [done|] ].
  - intros r' Hr'. apply Hpend. rewrite Hp. by apply elem_of_cons; right.
  - apply Hpend. rewrite Hp. by apply elem_of_cons; left.
Qed.

(** One awaited call more. *)
Lemma inv_live_add ccs es ccs' es' os r :
  live ccs' es' ≡ₚ (r :: live ccs es) →
  r ∉ live ccs es → os !! r = Some None →
  inv_live ccs es os → inv_live ccs' es' os.
Proof.
  intros Hp Hni Hr [Hnd Hpend]. split.
  - rewrite Hp. by apply NoDup_cons.
  - intros r' Hr'. rewrite Hp in Hr'. apply elem_of_cons in Hr' as [->|Hr']; auto.
Qed.

Lemma inv_live_bound ccs es os r :
  inv_live ccs es os → r ∈ live ccs es → r < length os.
Proof. intros [_ Hpend] Hr. eapply lookup_lt_Some; eauto. Qed.

Lemma inv_live_fresh ccs es os :
  inv_live ccs es os → length os ∉ live ccs es.
Proof. intros I Hr. apply (inv_live_bound _ _ _ _ I) in Hr. lia. Qed.

Lemma inv_live_new_call ccs es os :
  inv_live ccs es os → inv_live ccs es (os ++ [None]).
Proof.
  intros [Hnd Hpend]. split; [done|].
  intros r Hr. by apply snoc_lookup_fwd, Hpend.
Qed.

Lemma inv_live_settle ccs es os r o :
  r ∉ live ccs es → inv_live ccs es os → inv_live ccs es (<[r := o]> os).
Proof.
  intros Hni [Hnd Hpend]. split; [done|].
  intros r' Hr'. rewrite list_lookup_insert_ne; [by apply Hpend|].
  intros ->. done.
Qed.

Lemma live_connects_snoc_None cc ccs es :
  live_connect cc = None → live (ccs ++ [cc]) es = live ccs es.
Proof. intros H. unfold live. by rewrite omap_snoc_None. Qed.

Lemma live_connects_snoc_Some cc r ccs es :
  live_connect cc = Some r → live (ccs ++ [cc]) es ≡ₚ (r :: live ccs es).
Proof. intros H. unfold live. by rewrite (omap_snoc_Some _ _ _ r). Qed.

Lemma live_execs_snoc x ccs es :
  ex_settled x = false → live ccs (es ++ [x]) ≡ₚ (ex_call x :: live ccs es).
Proof.
  intros H. unfold live. rewrite (omap_snoc_Some _ _ _ (ex_call x)).
  - by rewrite Permutation_middle.
  - unfold live_exec. by rewrite H.
Qed.

Lemma live_connects_settled_None res p cc ccs es :
  ccs !! p = Some cc → live_connect cc = None →
  live (alter (settled res) p ccs) es = live ccs es.
Proof.
  intros Hp Hl. unfold live. rewrite (omap_alter_same _ _ _ _ cc); [done..|].
  rewrite Hl. unfold live_connect. simpl. by destruct res.
Qed.

Lemma live_connects_settled_Some res p cc r ccs es :
  ccs !! p = Some cc → live_connect cc = Some r →
  live ccs es ≡ₚ (r :: live (alter (settled res) p ccs) es).
Proof.
  intros Hp Hl. unfold live.
  rewrite (omap_alter_remove live_connect (settled res) p ccs cc r); [done..|].
  unfold live_connect. simpl. by destruct res.
Qed.

Lemma live_execs_called i ccs es :
  live ccs (alter mark_called i es) = live ccs es.
Proof.
  unfold live. f_equal. destruct (es !! i) as [x|] eqn:Hx.
  - by apply (omap_alter_same _ _ _ _ x).
  - apply omap_alter_ge. by apply lookup_ge_None.
Qed.

Lemma live_execs_settled i x ccs es :
  es !! i = Some x → ex_settled x = false →
  live ccs es ≡ₚ (ex_call x :: live ccs (alter mark_settled i es)).
Proof.
  intros Hi Hx. unfold live.
  rewrite (omap_alter_remove live_exec mark_settled i es x (ex_call x)); [|done|..].
  - by rewrite Permutation_middle.
  - unfold live_exec. by rewrite Hx.
  - done.
Qed.
End Live.

(** ** Every operation keeps the handle invariant *)

Lemma lost_in_add_once (ls : list Listener) l (more : list Listener) :
  Forall (λ x, lost_of x = None) more →
  lost_of l ≠ None → l ∈ ls ++ more ↔ l ∈ ls.
Proof.
  intros Hm Hl. rewrite elem_of_app. split; [|auto].
  intros [?|Hin]; [done|]. rewrite Forall_forall in Hm. by apply Hm in Hin.
Qed.

Lemma lost_in_filter (P : Listener → Prop) `{∀ x, Decision (P x)}
    (ls : list Listener) l :
  (∀ x, lost_of x ≠ None → P x) →
  lost_of l ≠ None → l ∈ filter P ls ↔ l ∈ ls.
Proof. intros HP Hl. rewrite list_elem_of_filter. naive_solver. Qed.

Lemma not_settles_lost p x : lost_of x ≠ None → ¬ settles p x.
Proof. destruct x; simpl; intros H; try (by destruct H); intros []. Qed.

Lemma not_once_lost ev x : lost_of x ≠ None → ¬ (listens ev x && is_once x).
Proof.
  destruct x; simpl; rewrite ?andb_false_r; intros H; try (by destruct H); intros [].
Qed.

Ltac hd_side :=
  solve
    [ intros []; reflexivity
    | reflexivity
    | let Hl := fresh in
      intros ? ? Hl; cbn [listeners];
      first
        [ apply lost_in_add_once; [repeat constructor|exact Hl]
        | apply lost_in_filter; [|exact Hl];
          first [apply not_settles_lost|apply not_once_lost] ] ].

(** A lookup in a heap after updates at the same index. *)
Ltac lk :=
  repeat rewrite list_lookup_alter_eq;
  match goal with
  | H : ?l !! ?i = Some _ |- context [?l !! ?i] => rewrite H
  end;
  reflexivity.

Ltac field := cbn; eassumption.

Ltac hd_step :=
  first
    [ eassumption
    | eapply handle_attach_replace; [lk|field|]
    | eapply handle_attach_fresh; [lk|field|]
    | eapply handle_detach; [lk|field|]
    | apply handle_sessions_alter; [hd_side|]
    | apply handle_clients_alter; [hd_side|]
    | apply handle_sessions_snoc; [hd_side|] ].

Ltac hd := prims; autorewrite with fp; prims; repeat hd_step.

Lemma Ih_scheduleReconnect now s w : Ih w → Ih (scheduleReconnect now s w).
Proof. intros I. unfold scheduleReconnect. repeat case_match; hd. Qed.

Lemma Ih_lost now s w : Ih w → Ih (lost now s w).
Proof. intros I. unfold lost. apply Ih_scheduleReconnect. hd. Qed.

Lemma Ih_connect_open p c cfg w : Ih w → Ih (connect_open p c cfg w).
Proof. intros I. unfold connect_open. hd. Qed.

Lemma Ih_connect s k w : Ih w → Ih (connect s k w).
Proof.
  intros I. unfold connect, connect_open. cbn zeta.
  repeat case_match; hd.
Qed.

Lemma Ih_disconnect s w : Ih w → Ih (disconnect s w).
Proof. intros I. unfold disconnect. repeat case_match; hd. Qed.

Lemma Ih_exec now s cmd w : Ih w → Ih (exec now s cmd w).
Proof.
  intros I. unfold exec. cbn zeta. repeat case_match; try apply Ih_connect; hd.
Qed.

Lemma Ih_handle now c ev l w : Ih w → Ih (handle now c ev l w).
Proof.
  intros I. unfold handle. repeat case_match; try apply Ih_lost; hd.
Qed.

Lemma Ih_emit now c ev w : Ih w → Ih (emit now c ev w).
Proof.
  intros I. unfold emit. case_match; [|done]. cbn zeta.
  match goal with |- context [foldl _ ?w0 ?ls] =>
    assert (Ih w0) as I0 by hd; generalize dependent w0; generalize ls end.
  intros ls. induction ls as [|l ls IH]; intros w0 I0; simpl; [done|].
  apply IH. by apply Ih_handle.
Qed.

Lemma Ih_get now id cfg w : Ih w → Ih (get now id cfg w).
Proof.
  intros I. unfold get. cbn zeta. repeat case_match; try apply Ih_connect; hd.
Qed.

Lemma Ih_close id w : Ih w → Ih (close id w).
Proof.
  intros I. unfold close. cbn zeta. repeat case_match; hd; by apply Ih_disconnect.
Qed.

Lemma Ih_closeAll w : Ih w → Ih (closeAll w).
Proof.
  intros I. unfold closeAll. prims. generalize (map snd (connections w)).
  intros l. revert w I. induction l as [|s l IH]; intros w I; simpl; [done|].
  apply IH. by apply Ih_disconnect.
Qed.

Lemma Ih_stream_close now st code w : Ih w → Ih (stream_close now st code w).
Proof. intros I. unfold stream_close. cbn zeta. repeat case_match; hd. Qed.

Lemma Ih_run_timer cb w : Ih w → Ih (run_timer cb w).
Proof. intros I. unfold run_timer. repeat case_match; try apply Ih_connect; hd. Qed.

Lemma Ih_step now ev w w' : step now ev w = Some w' → Ih w → Ih w'.
Proof.
  intros H I. destruct ev; simpl in H; simplify_option_eq.
  - by apply Ih_get.
  - by apply Ih_close.
  - by apply Ih_closeAll.
  - apply Ih_connect. hd.
  - by apply Ih_exec.
  - by apply Ih_disconnect.
  - by apply Ih_emit.
  - unfold read_done in H. simplify_option_eq.
    repeat case_match; simplify_eq; try apply Ih_connect_open; hd.
  - unfold exec_callback in H. simplify_option_eq.
    repeat case_match; simplify_eq; hd.
  - unfold stream_data. hd.
  - unfold stream_stderr. hd.
  - by apply Ih_stream_close.
  - unfold fire in H. simplify_option_eq. repeat case_match; simplify_eq.
    apply Ih_run_timer. hd.
Qed.

(** ** Every operation keeps the timer invariant *)

Ltac tm_side := solve [ intros []; reflexivity | reflexivity ].

Ltac tm_step :=
  first
    [ eassumption
    | eapply timer_schedule_replace; [lk|field|]
    | eapply timer_schedule_fresh; [lk|field|]
    | eapply timer_drop; [lk|field|]
    | apply timer_sessions_alter; [tm_side|]
    | apply timer_sessions_snoc
    | apply timer_snoc_exec
    | apply timer_disarm ].

Ltac tm := prims; autorewrite with fp; prims; repeat tm_step.

Lemma It_scheduleReconnect now s w : It w → It (scheduleReconnect now s w).
Proof. intros I. unfold scheduleReconnect. repeat case_match; tm. Qed.

Lemma It_lost now s w : It w → It (lost now s w).
Proof.
  intros I. unfold lost. apply It_scheduleReconnect. tm.
Qed.

Lemma It_connect_open p c cfg w : It w → It (connect_open p c cfg w).
Proof. intros I. unfold connect_open. tm. Qed.

Lemma It_connect s k w : It w → It (connect s k w).
Proof.
  intros I. unfold connect, connect_open. cbn zeta. repeat case_match; tm.
Qed.

Lemma It_disconnect s w : It w → It (disconnect s w).
Proof. intros I. unfold disconnect. repeat case_match; tm. Qed.

Lemma It_exec now s cmd w : It w → It (exec now s cmd w).
Proof.
  intros I. unfold exec. cbn zeta. repeat case_match; try apply It_connect; tm.
Qed.

Lemma It_handle now c ev l w : It w → It (handle now c ev l w).
Proof.
  intros I. unfold handle. repeat case_match; try apply It_lost; tm.
Qed.

Lemma It_emit now c ev w : It w → It (emit now c ev w).
Proof.
  intros I. unfold emit. case_match; [|done]. cbn zeta.
  match goal with |- context [foldl _ ?w0 ?ls] =>
    assert (It w0) as I0 by tm; generalize dependent w0; generalize ls end.
  intros ls. induction ls as [|l ls IH]; intros w0 I0; simpl; [done|].
  apply IH. by apply It_handle.
Qed.

Lemma It_get now id cfg w : It w → It (get now id cfg w).
Proof.
  intros I. unfold get. cbn zeta. repeat case_match; try apply It_connect; tm.
Qed.

Lemma It_close id w : It w → It (close id w).
Proof.
  intros I. unfold close. cbn zeta. repeat case_match; tm; by apply It_disconnect.
Qed.

Lemma It_closeAll w : It w → It (closeAll w).
Proof.
  intros I. unfold closeAll. prims. generalize (map snd (connections w)).
  intros l. revert w I. induction l as [|s l IH]; intros w I; simpl; [done|].
  apply IH. by apply It_disconnect.
Qed.

Lemma It_stream_close now st code w : It w → It (stream_close now st code w).
Proof. intros I. unfold stream_close. cbn zeta. repeat case_match; tm. Qed.

Lemma It_run_timer cb w : It w → It (run_timer cb w).
Proof. intros I. unfold run_timer. repeat case_match; try apply It_connect; tm. Qed.

Lemma It_step now ev w w' : step now ev w = Some w' → It w → It w'.
Proof.
  intros H I. destruct ev; simpl in H; simplify_option_eq.
  - by apply It_get.
  - by apply It_close.
  - by apply It_closeAll.
  - apply It_connect. tm.
  - by apply It_exec.
  - by apply It_disconnect.
  - by apply It_emit.
  - unfold read_done in H. simplify_option_eq.
    repeat case_match; simplify_eq; try apply It_connect_open; tm.
  - unfold exec_callback in H. simplify_option_eq.
    repeat case_match; simplify_eq; tm.
  - unfold stream_data. tm.
  - unfold stream_stderr. tm.
  - by apply It_stream_close.
  - unfold fire in H. simplify_option_eq. repeat case_match; simplify_eq.
    apply It_run_timer. tm.
Qed.

(** ** Every operation keeps the credential invariant *)

Lemma Aq_extends Q w w' p : extends w w' → Aq Q w p → Aq Q w' p.
Proof.
  intros E (cc & this & Hcc & Hthis & Ha).
  destruct (ext_connects _ _ E _ _ Hcc) as (cc' & Hcc' & Es & _).
  destruct (ext_sessions _ _ E _ _ Hthis) as (this' & Hthis' & Ec & _).
  exists cc', this'. rewrite Es, Ec. done.
Qed.

Lemma ready_in_filter (P : Listener → Prop) `{∀ x, Decision (P x)}
    (ls : list Listener) p :
  OnceReady p ∈ filter P ls → OnceReady p ∈ ls.
Proof. rewrite list_elem_of_filter. tauto. Qed.

Lemma ready_in_add (ls : list Listener) p q :
  OnceReady q ∈ ls ++ [OnceReady p; OnceError p] → OnceReady q ∈ ls ∨ q = p.
Proof.
  rewrite elem_of_app, !elem_of_cons, elem_of_nil.
  intros [?|[[= ->]|[[=]|[]]]]; auto.
Qed.

Lemma ready_not_lost_handlers s p : OnceReady p ∉ listeners (lost_handlers s).
Proof. simpl. rewrite !elem_of_cons, elem_of_nil. naive_solver. Qed.

Ltac au_side :=
  solve
    [ intros []; reflexivity
    | reflexivity
    | intros [] ? ?; cbn in *; first [discriminate|left; assumption]
    | apply ready_not_lost_handlers
    | let H := fresh in
      intros ? ? ? H; cbn [listeners] in H;
      first [ by apply elem_of_nil in H
            | left; exact (ready_in_filter _ _ _ H) ] ].

Ltac au_step :=
  first
    [ eassumption
    | apply auth_connects_snoc
    | apply auth_connects_alter
    | apply auth_reads_alter
    | apply auth_sessions_snoc; [au_side|]
    | apply auth_clients_snoc; [au_side|]
    | apply auth_sessions_alter; [au_side|au_side|]
    | apply auth_clients_alter; [au_side|] ].

Lemma Iq_settle_connect Q p res w : Iq Q w → Iq Q (settle_connect p res w).
Proof.
  intros I. unfold settle_connect. repeat case_match; try done.
  prims; autorewrite with fp; prims. by apply auth_connects_alter.
Qed.

Ltac au :=
  try apply Iq_settle_connect;
  prims; autorewrite with fp; prims; repeat au_step.

Lemma Iq_scheduleReconnect Q now s w : Iq Q w → Iq Q (scheduleReconnect now s w).
Proof. intros I. unfold scheduleReconnect. repeat case_match; au. Qed.

Lemma Iq_lost Q now s w : Iq Q w → Iq Q (lost now s w).
Proof. intros I. unfold lost. apply Iq_scheduleReconnect. au. Qed.

(** Subscribing [onReady] needs the session of the call to have a
    credential. *)
Lemma Iq_connect_open Q p c cfg w : Aq Q w p → Iq Q w → Iq Q (connect_open p c cfg w).
Proof.
  intros Hp I. unfold connect_open. prims.
  apply auth_clients_alter; [|done].
  intros cl q _ Hq. cbn [listeners] in Hq.
  apply ready_in_add in Hq as [? | ->]; auto.
Qed.

Lemma truthy_has_auth_key d v : truthy (privateKeyPath d) = Some v → has_auth d.
Proof. intros H. left. congruence. Qed.

Lemma truthy_has_auth_password d v : truthy (password d) = Some v → has_auth d.
Proof. intros H. right. congruence. Qed.

Lemma Iq_connect Q s k w : may_connect Q s → Iq Q w → Iq Q (connect s k w).
Proof.
  intros HQ I. unfold connect. cbn zeta. repeat case_match; try solve [au].
  all: match goal with
       | |- context [connect_open] => apply Iq_connect_open; [|au]
       | |- _ => prims; apply auth_reads_snoc; [|au]
       end.
  all: prims;
    eexists _, _; (split; [apply snoc_lookup_new|]); cbn [cc_session];
    (split; [rewrite list_lookup_alter_eq;
             match goal with H : sessions _ !! _ = Some _ |- _ => prims; rewrite H end;
             reflexivity|]);
    cbn [config with_client]; apply HQ;
    eauto using truthy_has_auth_key, truthy_has_auth_password.
Qed.

Lemma Iq_disconnect Q s w : Iq Q w → Iq Q (disconnect s w).
Proof. intros I. unfold disconnect. repeat case_match; au. Qed.

Lemma Iq_exec Q now s cmd w : may_connect Q s → Iq Q w → Iq Q (exec now s cmd w).
Proof.
  intros HQ I. unfold exec. cbn zeta.
  repeat case_match; try (apply Iq_connect; [done|]); au.
Qed.

Lemma Iq_handle Q now c ev l w :
  (∀ p, l = OnceReady p → Aq Q w p) → Iq Q w → Iq Q (handle now c ev l w).
Proof.
  intros Hl I. unfold handle. repeat case_match; try apply Iq_lost; au.
  subst. destruct (Hl _ eq_refl) as (cc & this & Hcc & Hthis & Ha).
  apply auth_sessions_alter; [au_side| |au].
  intros x Hx _. right. congruence.
Qed.

Lemma Iq_emit Q now c ev w : Iq Q w → Iq Q (emit now c ev w).
Proof.
  intros I. unfold emit. destruct (clients w !! c) as [cl|] eqn:Hcl; [|done].
  cbn zeta.
  assert (Hls : ∀ p, OnceReady p ∈ filter (λ l, listens ev l) (listeners cl) → Aq Q w p).
  { intros p Hp. apply ready_in_filter in Hp. eapply auth_ready; eauto. }
  match goal with |- context [foldl _ ?w0 ?ls] =>
    assert (Iq Q w0) as I0 by au;
    assert (extends w w0) as E0 by ext_chain;
    generalize dependent w0; generalize dependent ls end.
  intros ls. induction ls as [|l ls IH]; intros Hls w0 I0 E0; simpl; [done|].
  apply IH.
  - intros p Hp. apply Hls. by apply elem_of_cons; right.
  - apply Iq_handle; [|done]. intros p ->. eapply Aq_extends; [done|].
    apply Hls. by apply elem_of_cons; left.
  - eapply extends_trans; [done|apply extends_handle].
Qed.

Lemma Iq_get Q now id cfg w :
  may_connect Q (default (length (sessions w)) (map_get id (connections w))) →
  Iq Q w → Iq Q (get now id cfg w).
Proof.
  intros HQ I. unfold get. cbn zeta. prims.
  destruct (map_get id (connections w)) as [s|]; simpl in HQ;
    repeat case_match; try (apply Iq_connect; [done|]); au.
Qed.

Lemma Iq_close Q id w : Iq Q w → Iq Q (close id w).
Proof.
  intros I. unfold close. cbn zeta. repeat case_match; au; by apply Iq_disconnect.
Qed.

Lemma Iq_closeAll Q w : Iq Q w → Iq Q (closeAll w).
Proof.
  intros I. unfold closeAll. prims. generalize (map snd (connections w)).
  intros l. revert w I. induction l as [|s l IH]; intros w I; simpl; [done|].
  apply IH. by apply Iq_disconnect.
Qed.

Lemma Iq_stream_close Q now st code w : Iq Q w → Iq Q (stream_close now st code w).
Proof. intros I. unfold stream_close. cbn zeta. repeat case_match; au. Qed.

Lemma Iq_run_timer Q cb w :
  (∀ s, cb = TReconnect s → may_connect Q s) → Iq Q w → Iq Q (run_timer cb w).
Proof.
  intros HQ I. unfold run_timer.
  repeat case_match; try (apply Iq_connect; [by apply HQ|]); au.
Qed.

Lemma Iq_step Q now ev w w' :
  (∀ s, connect_target ev w = Some s → may_connect Q s) →
  step now ev w = Some w' → Iq Q w → Iq Q w'.
Proof.
  intros HQ H I. destruct ev; simpl in H, HQ; simplify_option_eq.
  - apply Iq_get; auto.
  - by apply Iq_close.
  - by apply Iq_closeAll.
  - apply Iq_connect; [auto|]. au.
  - apply Iq_exec; auto.
  - by apply Iq_disconnect.
  - by apply Iq_emit.
  - unfold read_done in H.
    destruct (reads w !! i) as [rd|] eqn:Hrd; simpl in H; [|done].
    destruct (rd_done rd) eqn:Hd; [done|]. injection H as <-.
    destruct res; [au|].
    apply Iq_connect_open; [|au]. prims. eapply auth_read; eauto.
  - unfold exec_callback in H. simplify_option_eq.
    repeat case_match; simplify_eq; au.
  - unfold stream_data. au.
  - unfold stream_stderr. au.
  - by apply Iq_stream_close.
  - unfold fire in H. simplify_option_eq. repeat case_match; simplify_eq.
    all: apply Iq_run_timer; [|au].
    all: intros s0 Hcb; try discriminate; apply HQ; by simplify_eq.
Qed.

Lemma may_connect_credentialed s : may_connect credentialed s.
Proof. by intros d. Qed.

Lemma Ia_step now ev w w' : step now ev w = Some w' → Ia w → Ia w'.
Proof. apply Iq_step. intros s _. apply may_connect_credentialed. Qed.

(** ** Every operation keeps the invariant of pending calls *)

Lemma Il_settle r o w : r ∉ lv w → Il w → Il (settle r o w).
Proof.
  intros Hr I. unfold settle. repeat case_match; try done.
  prims. by apply inv_live_settle.
Qed.

Lemma Il_exec_open r s cmd w : unowned w r → Il w → Il (exec_open r s cmd w).
Proof.
  intros [Hr Hp] I. unfold exec_open. repeat case_match; try done.
  - prims. eapply inv_live_add; [|done..]. by apply live_execs_snoc.
  - by apply Il_settle.
Qed.

Lemma Il_resume s k res w :
  (∀ r, call_of k = Some r → unowned w r) → Il w → Il (resume s k res w).
Proof.
  intros Hk I. unfold resume.
  destruct k; try done; destruct res;
    first [apply Il_settle; [|done] | apply Il_exec_open; [|done]];
    by apply Hk.
Qed.

Lemma Il_settle_connect p res w : Il w → Il (settle_connect p res w).
Proof.
  intros I. unfold settle_connect.
  destruct (connects w !! p) as [cc|] eqn:Hcc; [|done].
  destruct (cc_state cc) eqn:Hst; try done.
  destruct (call_of (cc_kont cc)) as [r|] eqn:Hk.
  - assert (live_connect cc = Some r) as Hl by (unfold live_connect; by rewrite Hst).
    destruct (inv_live_remove _ _ (alter (settled res) p (connects w)) (execs w) _ r
                (live_connects_settled_Some res _ _ _ _ _ Hcc Hl) I) as (I' & Hr & Hp).
    apply Il_resume; [|done]. intros r' Hr'. rewrite Hk in Hr'. injection Hr' as <-.
    split; done.
  - apply Il_resume; [intros r' Hr'; congruence|]. prims.
    eapply inv_live_perm; [|done].
    rewrite (live_connects_settled_None res p cc); [done..|].
    unfold live_connect. by rewrite Hst.
Qed.

Lemma Il_settle_exec i o w : Il w → Il (settle_exec i o w).
Proof.
  intros I. unfold settle_exec.
  destruct (execs w !! i) as [x|] eqn:Hx; [|done].
  destruct (ex_settled x) eqn:Hs; [done|].
  destruct (inv_live_remove _ _ (connects w) (alter mark_settled i (execs w)) _ _
              (live_execs_settled _ _ _ _ Hx Hs) I) as (I' & Hr & Hp).
  by apply Il_settle.
Qed.

Lemma Il_new_call w : Il w → Il (new_call w).
Proof. intros I. prims. by apply inv_live_new_call. Qed.

Lemma unowned_new_call w : Il w → unowned (new_call w) (length (outcomes w)).
Proof.
  intros I. split; prims; [by apply inv_live_fresh|apply snoc_lookup_new].
Qed.

(** A world that differs from [w] outside the promises and outcomes. *)
Lemma Il_same w w' :
  connects w' = connects w → execs w' = execs w → outcomes w' = outcomes w →
  Il w → Il w'.
Proof. by intros -> -> ->. Qed.

Lemma unowned_same w w' r :
  connects w' = connects w → execs w' = execs w → outcomes w' = outcomes w →
  unowned w r → unowned w' r.
Proof. unfold unowned. by intros -> -> ->. Qed.

Ltac same :=
  solve [ unfold stream_data, stream_stderr, connect_open;
          prims; autorewrite with fp; prims; reflexivity ].

Lemma Il_scheduleReconnect now s w : Il w → Il (scheduleReconnect now s w).
Proof.
  intros I. unfold scheduleReconnect. repeat case_match; try done;
    (eapply Il_same; [..|exact I]; same).
Qed.

Lemma Il_lost now s w : Il w → Il (lost now s w).
Proof. intros I. unfold lost. by apply Il_scheduleReconnect. Qed.

Lemma Il_connect s k w :
  (∀ r, call_of k = Some r → unowned w r) → Il w → Il (connect s k w).
Proof.
  intros Hk I. unfold connect. cbn zeta.
  match goal with |- context [set_connects ?ccs w] =>
    assert (Il (set_connects ccs w)) as I0 end.
  { prims. destruct (call_of k) as [r|] eqn:Ek.
    - destruct (Hk r eq_refl) as [Hr Hp].
      eapply inv_live_add; [|done..].
      apply live_connects_snoc_Some. unfold live_connect. by rewrite <-Ek.
    - eapply inv_live_perm; [|done]. by rewrite live_connects_snoc_None. }
  repeat case_match; try done; try by apply Il_settle_connect.
  all: try (apply Il_settle_connect); (eapply Il_same; [..|exact I0]; same).
Qed.

Lemma Il_disconnect s w : Il w → Il (disconnect s w).
Proof.
  intros I. unfold disconnect. repeat case_match; try done;
    (eapply Il_same; [..|exact I]; same).
Qed.

Lemma Il_exec now s cmd w : Il w → Il (exec now s cmd w).
Proof.
  intros I. unfold exec. cbn zeta.
  assert (unowned (update_session s (with_lastActivity now) (new_call w))
            (length (outcomes w))) as Hu.
  { eapply unowned_same; [..|by apply unowned_new_call]; same. }
  assert (Il (update_session s (with_lastActivity now) (new_call w))) as I0.
  { eapply Il_same; [..|by apply Il_new_call]; same. }
  repeat case_match; try done.
  - apply Il_connect; [|done]. intros r [= <-]. done.
  - by apply Il_exec_open.
Qed.

Lemma Il_handle now c ev l w : Il w → Il (handle now c ev l w).
Proof.
  intros I. unfold handle. repeat case_match; try done;
    try apply Il_lost; try apply Il_settle_connect;
    (eapply Il_same; [..|exact I]; same).
Qed.

Lemma Il_emit now c ev w : Il w → Il (emit now c ev w).
Proof.
  intros I. unfold emit. case_match; [|done]. cbn zeta.
  match goal with |- context [foldl _ ?w0 ?ls] =>
    assert (Il w0) as I0 by (eapply Il_same; [..|exact I]; same);
    generalize dependent w0; generalize ls end.
  intros ls. induction ls as [|l ls IH]; intros w0 I0; simpl; [done|].
  apply IH. by apply Il_handle.
Qed.

Lemma Il_get now id cfg w : Il w → Il (get now id cfg w).
Proof.
  intros I. unfold get. cbn zeta.
  pose proof (unowned_new_call w I) as Hu. pose proof (Il_new_call w I) as I0.
  repeat case_match; try done.
  - apply Il_connect; [|done]. intros r [= <-]. done.
  - apply Il_settle; [apply Hu|done].
  - apply Il_connect.
    + intros r [= <-]. eapply unowned_same; [..|exact Hu]; same.
    + eapply Il_same; [..|exact I0]; same.
Qed.

Lemma Il_close id w : Il w → Il (close id w).
Proof.
  intros I. unfold close. cbn zeta.
  pose proof (unowned_new_call w I) as Hu. pose proof (Il_new_call w I) as I0.
  apply Il_settle.
  - case_match; [|apply Hu]. prims.
    assert (lv (disconnect n (new_call w)) = lv (new_call w)) as ->; [|apply Hu].
    unfold disconnect. repeat case_match; same.
  - case_match; [|done].
    eapply Il_same; [..|apply Il_disconnect, I0]; same.
Qed.

Lemma Il_closeAll w : Il w → Il (closeAll w).
Proof.
  intros I. unfold closeAll. prims. generalize (map snd (connections w)).
  intros l. revert w I. induction l as [|s l IH]; intros w I; simpl; [done|].
  apply IH. by apply Il_disconnect.
Qed.

Lemma Il_stream_close now st code w : Il w → Il (stream_close now st code w).
Proof.
  intros I. unfold stream_close. cbn zeta. repeat case_match; try done;
    apply Il_settle_exec; (eapply Il_same; [..|exact I]; same).
Qed.

Lemma Il_run_timer cb w : Il w → Il (run_timer cb w).
Proof.
  intros I. unfold run_timer. repeat case_match; try done.
  - apply Il_connect; [|done]. intros r [=].
  - apply Il_settle_exec. eapply Il_same; [..|exact I]; same.
Qed.

Lemma Il_step now ev w w' : step now ev w = Some w' → Il w → Il w'.
Proof.
  intros H I. destruct ev; simpl in H; simplify_option_eq.
  - by apply Il_get.
  - by apply Il_close.
  - by apply Il_closeAll.
  - apply Il_connect; [|by apply Il_new_call].
    intros r [= <-]. by apply unowned_new_call.
  - by apply Il_exec.
  - by apply Il_disconnect.
  - by apply Il_emit.
  - unfold read_done in H. simplify_option_eq.
    repeat case_match; simplify_eq.
    + apply Il_settle_connect. eapply Il_same; [..|exact I]; same.
    + unfold connect_open. eapply Il_same; [..|exact I]; same.
  - unfold exec_callback in H.
    destruct (execs w !! i) as [x|] eqn:Hx; simpl in H; [|done].
    destruct (ex_called x); [done|]. injection H as <-.
    assert (Il (set_execs (alter mark_called i (execs w)) w)) as I0.
    { prims. eapply inv_live_perm; [|done]. by rewrite live_execs_called. }
    destruct err.
    + by apply Il_settle_exec.
    + eapply Il_same; [..|exact I0]; same.
  - unfold stream_data. eapply Il_same; [..|exact I]; same.
  - unfold stream_stderr. eapply Il_same; [..|exact I]; same.
  - by apply Il_stream_close.
  - unfold fire in H. simplify_option_eq. repeat case_match; simplify_eq.
    apply Il_run_timer. eapply Il_same; [..|exact I]; same.
Qed.

(** ** Every operation keeps what awaiters have observed *)

Lemma observed_mono cc os os' :
  heap_le same_outcome os os' → observed cc os → observed cc os'.
Proof.
  intros H. unfold observed.
  assert (∀ r o, mjoin (os !! r) = Some o → mjoin (os' !! r) = Some o) as Hm.
  { intros r o Hr. destruct (os !! r) as [[o'|]|] eqn:E; simpl in Hr; try done.
    injection Hr as ->. destruct (H _ _ E) as (y & -> & Hy). simpl. by apply Hy. }
  repeat case_match; auto.
Qed.

(** An operation that leaves the [connect()] calls alone. *)
Lemma Io_same w w' : connects w' = connects w → extends w w' → Io w → Io w'.
Proof.
  intros Ec E I p cc Hp. rewrite Ec in Hp.
  eapply observed_mono; [apply E|]. eauto.
Qed.

Lemma outcome_settle_unowned r o w :
  outcomes w !! r = Some None → mjoin (outcomes (settle r o w) !! r) = Some o.
Proof.
  intros H. unfold settle. rewrite H. prims.
  rewrite list_lookup_insert_eq; [done|]. by eapply lookup_lt_Some.
Qed.

Lemma Io_settle_connect p res w : Il w → Io w → Io (settle_connect p res w).
Proof.
  intros L I. unfold settle_connect.
  destruct (connects w !! p) as [cc|] eqn:Hcc; [|done].
  destruct (cc_state cc) eqn:Hst; try done.
  set (w1 := set_connects (alter (settled res) p (connects w)) w).
  assert (extends w w1) as E1.
  { split; subst w1; prims; try (apply heap_le_refl; apply _).
    apply heap_le_alter; [apply _|]. intros x Hx. repeat split. congruence. }
  intros q cc' Hq. autorewrite with fp in Hq. subst w1. prims.
  apply alter_lookup_inv in Hq as (x & Hx & [[Hne ->]|[<- ->]]).
  - eapply observed_mono; [|exact (I _ _ Hx)].
    eapply (ext_outcomes _ _ (extends_trans _ _ _ E1 (extends_resume _ _ _ _))).
  - rewrite Hcc in Hx. injection Hx as <-.
    destruct (call_of (cc_kont cc)) as [r|] eqn:Hk.
    + assert (live_connect cc = Some r) as Hl by (unfold live_connect; by rewrite Hst).
      destruct (inv_live_remove _ _ (alter (settled res) p (connects w)) (execs w) _ r
                  (live_connects_settled_Some res _ _ _ _ _ Hcc Hl) L) as (_ & _ & Hp).
      unfold observed. cbn [settled cc_state cc_kont cc_session].
      destruct (cc_kont cc) eqn:Ek; simpl in Hk; try done; injection Hk as ->;
        destruct res; simpl; try done; by apply outcome_settle_unowned.
    + unfold observed. cbn [settled cc_state cc_kont].
      destruct (cc_kont cc); simpl in Hk; try done. by destruct res.
Qed.

Lemma Io_connects_snoc s k w :
  Io w → Io (set_connects (connects w ++ [{| cc_session := s; cc_kont := k;
                                           cc_state := Pending |}]) w).
Proof.
  intros I p cc Hp. prims. apply snoc_lookup_inv in Hp as [Hp|[_ ->]]; [exact (I _ _ Hp)|].
  done.
Qed.

Ltac io_same := (eapply Io_same; [same|ext_chain|]).

Lemma Io_connect s k w :
  (∀ r, call_of k = Some r → unowned w r) → Il w → Io w → Io (connect s k w).
Proof.
  intros Hk L I. unfold connect. cbn zeta.
  match goal with |- context [set_connects ?ccs w] =>
    assert (Il (set_connects ccs w)) as L0;
    [|assert (Io (set_connects ccs w)) as I0 by (by apply Io_connects_snoc)] end.
  { prims. destruct (call_of k) as [r|] eqn:Ek.
    - destruct (Hk r eq_refl) as [Hr Hp].
      eapply inv_live_add; [|done..].
      apply live_connects_snoc_Some. unfold live_connect. by rewrite <-Ek.
    - eapply inv_live_perm; [|done]. by rewrite live_connects_snoc_None. }
  repeat case_match; try done; try by apply Io_settle_connect.
  all: try (apply Io_settle_connect; [eapply Il_same; [..|exact L0]; same|]);
    io_same; done.
Qed.

Lemma Io_scheduleReconnect now s w : Io w → Io (scheduleReconnect now s w).
Proof. intros I. eapply Io_same; [|apply extends_scheduleReconnect|done].
  unfold scheduleReconnect. repeat case_match; same. Qed.

Lemma Io_lost now s w : Io w → Io (lost now s w).
Proof.
  intros I. eapply Io_same; [|apply extends_lost|done].
  unfold lost, scheduleReconnect. repeat case_match; same.
Qed.

Lemma Io_disconnect s w : Io w → Io (disconnect s w).
Proof.
  intros I. eapply Io_same; [|apply extends_disconnect|done].
  unfold disconnect. repeat case_match; same.
Qed.

Lemma Io_exec now s cmd w : Il w → Io w → Io (exec now s cmd w).
Proof.
  intros L I. unfold exec. cbn zeta.
  assert (unowned (update_session s (with_lastActivity now) (new_call w))
            (length (outcomes w))) as Hu.
  { eapply unowned_same; [..|by apply unowned_new_call]; same. }
  assert (Il (update_session s (with_lastActivity now) (new_call w))) as L0.
  { eapply Il_same; [..|by apply Il_new_call]; same. }
  assert (Io (update_session s (with_lastActivity now) (new_call w))) as I0.
  { io_same. done. }
  repeat case_match; try done.
  - apply Io_connect; [|done..]. intros r [= <-]. done.
  - io_same. done.
Qed.

Lemma Io_handle now c ev l w : Il w → Io w → Io (handle now c ev l w).
Proof.
  intros L I. unfold handle. repeat case_match; try done;
    try apply Io_lost; try (io_same; done);
    (apply Io_settle_connect; [eapply Il_same; [..|exact L]; same|io_same; done]).
Qed.

Lemma Io_emit now c ev w : Il w → Io w → Io (emit now c ev w).
Proof.
  intros L I. unfold emit. case_match; [|done]. cbn zeta.
  match goal with |- context [foldl _ ?w0 ?ls] =>
    assert (Il w0) as L0 by (eapply Il_same; [..|exact L]; same);
    assert (Io w0) as I0 by (io_same; done);
    generalize dependent w0; generalize ls end.
  intros ls. induction ls as [|l ls IH]; intros w0 L0 I0; simpl; [done|].
  apply IH; [by apply Il_handle|by apply Io_handle].
Qed.

Lemma Io_get now id cfg w : Il w → Io w → Io (get now id cfg w).
Proof.
  intros L I. unfold get. cbn zeta.
  pose proof (unowned_new_call w L) as Hu. pose proof (Il_new_call w L) as L0.
  assert (Io (new_call w)) as I0 by (io_same; done).
  repeat case_match; try done.
  - apply Io_connect; [|done..]. intros r [= <-]. done.
  - io_same. done.
  - apply Io_connect.
    + intros r [= <-]. eapply unowned_same; [..|exact Hu]; same.
    + eapply Il_same; [..|exact L0]; same.
    + io_same. done.
Qed.

Lemma Io_close id w : Io w → Io (close id w).
Proof.
  intros I. eapply Io_same; [|apply extends_close|done].
  unfold close, disconnect. cbn zeta. repeat case_match; same.
Qed.

Lemma Io_closeAll w : Io w → Io (closeAll w).
Proof.
  intros I. unfold closeAll. prims. generalize (map snd (connections w)).
  intros l. revert w I. induction l as [|s l IH]; intros w I; simpl; [done|].
  apply IH. by apply Io_disconnect.
Qed.

Lemma Io_settle_exec i o w : Io w → Io (settle_exec i o w).
Proof.
  intros I. eapply Io_same; [|apply extends_settle_exec|done].
  unfold settle_exec. repeat case_match; same.
Qed.

Lemma Io_stream_close now st code w : Io w → Io (stream_close now st code w).
Proof.
  intros I. unfold stream_close. cbn zeta. repeat case_match; try done;
    apply Io_settle_exec; io_same; done.
Qed.

Lemma Io_run_timer cb w : Il w → Io w → Io (run_timer cb w).
Proof.
  intros L I. unfold run_timer. repeat case_match; try done.
  - apply Io_connect; [|done..]. intros r [=].
  - apply Io_settle_exec. io_same. done.
Qed.

Lemma Io_step now ev w w' : step now ev w = Some w' → Il w → Io w → Io w'.
Proof.
  intros H L I. destruct ev; step_inv H.
  - by apply Io_get.
  - by apply Io_close.
  - by apply Io_closeAll.
  - apply Io_connect; [|by apply Il_new_call|io_same; done].
    intros r [= <-]. by apply unowned_new_call.
  - by apply Io_exec.
  - by apply Io_disconnect.
  - by apply Io_emit.
  - destruct res.
    + apply Io_settle_connect; [eapply Il_same; [..|exact L]; same|io_same; done].
    + unfold connect_open. io_same. done.
  - destruct err; [apply Io_settle_exec|]; io_same; done.
  - io_same. done.
  - io_same. done.
  - by apply Io_stream_close.
  - apply Io_run_timer; [eapply Il_same; [..|exact L]; same|io_same; done].
Qed.

(** ** The invariant holds in every reachable world *)

Lemma Inv_init timeout : Inv (init timeout).
Proof.
  split; simpl; auto using handle_nil, timer_nil, auth_nil, live_nil.
  intros p cc H. by rewrite lookup_nil in H.
Qed.

Lemma Inv_step now ev w w' : step now ev w = Some w' → Inv w → Inv w'.
Proof.
  intros H [I1 I2 I3 I4 I5].
  split; eauto using Ih_step, It_step, Ia_step, Il_step, Io_step.
Qed.

Lemma Inv_run tr w w' : run tr w = Some w' → Inv w → Inv w'.
Proof.
  revert w. induction tr as [|[now ev] tr IH]; intros w; simpl.
  - by intros [= ->].
  - destruct (step now ev w) as [w1|] eqn:Hs; simpl; [|done].
    eauto using Inv_step.
Qed.

Lemma run_app tr1 tr2 w : run (tr1 ++ tr2) w = run tr1 w ≫= run tr2.
Proof.
  revert w. induction tr1 as [|[now ev] tr1 IH]; intros w; simpl; [done|].
  destruct (step now ev w); simpl; [apply IH|done].
Qed.

Lemma reachable_init timeout : reachable (init timeout).
Proof. by exists timeout, []. Qed.

Lemma reachable_run tr w w' : reachable w → run tr w = Some w' → reachable w'.
Proof.
  intros (timeout & tr0 & H0) H. exists timeout, (tr0 ++ tr).
  by rewrite run_app, H0.
Qed.

Lemma reachable_step now ev w w' :
  reachable w → step now ev w = Some w' → reachable w'.
Proof.
  intros Hr H. apply (reachable_run [(now, ev)] w); [done|]. simpl. by rewrite H.
Qed.

Lemma reachable_Inv w : reachable w → Inv w.
Proof. intros (timeout & tr & H). eapply Inv_run; [done|apply Inv_init]. Qed.

(** ** Outcomes *)

Lemma outcome_settle_pending r o w :
  outcomes w !! r = Some None → outcome r (settle r o w) = Some o.
Proof.
  intros H. unfold settle, outcome. rewrite H. prims.
  rewrite list_lookup_insert_eq; [done|]. by eapply lookup_lt_Some.
Qed.

Lemma outcome_settle_ne r r' o w :
  r ≠ r' → outcome r' (settle r o w) = outcome r' w.
Proof.
  intros H. unfold settle, outcome. repeat case_match; try done; prims;
    rewrite list_lookup_insert_ne in *; congruence.
Qed.

Lemma outcome_new_call w : outcomes (new_call w) !! length (outcomes w) = Some None.
Proof. prims. apply snoc_lookup_new. Qed.

Lemma resume_rejected_effects s k e w : effects (resume s k (Some e) w) = effects w.
Proof. destruct k; simpl; autorewrite with fp; done. Qed.

Lemma resume_rejected_execs s k e w : execs (resume s k (Some e) w) = execs w.
Proof. destruct k; simpl; autorewrite with fp; done. Qed.

(** ** A session without credentials *)

Lemma truthy_None : truthy None = None.
Proof. done. Qed.

Lemma no_auth_disconnected w s this :
  Inv w → sessions w !! s = Some this →
  truthy (privateKeyPath (config this)) = None →
  truthy (password (config this)) = None →
  isConnected this = false.
Proof.
  intros I Hs Hk Hp. destruct (isConnected this) eqn:E; [|done].
  destruct (auth_connected _ _ _ _ _ (Inv_auth _ I) _ _ Hs E); congruence.
Qed.

(** [connect()] on a session without a usable credential: the promise is
    rejected at once, and the only call made on a collaborator is [end()]
    on the previous client, if there was one. *)
Lemma connect_no_auth w s this k :
  sessions w !! s = Some this → isConnected this = false →
  truthy (privateKeyPath (config this)) = None →
  truthy (password (config this)) = None →
  connects (connect s k w) !! length (connects w) =
    Some {| cc_session := s; cc_kont := k; cc_state := RejectedWith no_auth_error |} ∧
  effects (connect s k w) =
    match client this with Some old => [EEnd old] | None => [] end ++ effects w ∧
  ∀ r, call_of k = Some r → outcomes w !! r = Some None →
       outcome r (connect s k w) = Some (Rejected no_auth_error).
Proof.
  intros Hs Hc Hk Hp. unfold connect. cbn zeta. prims.
  rewrite Hs, Hc, Hk, Hp. unfold settle_connect.
  destruct (client this) as [old|]; prims;
    rewrite snoc_lookup_new; cbn [cc_state cc_session cc_kont];
    (split; [|split]).
  1,4: autorewrite with fp; prims;
       by rewrite list_lookup_alter_eq, snoc_lookup_new.
  1,3: by rewrite resume_rejected_effects.
  all: intros r Hr Ho; destruct k; simpl in Hr; try done; injection Hr as ->;
    simpl; by apply outcome_settle_pending.
Qed.

(** ** Command channels: the invariant *)

Section Chan.
Implicit Types (ts : list Timer) (xs : list Stream) (es : list ExecCall).

Lemma chan_nil : inv_chan [] [] [].
Proof. split; intros *; rewrite ?lookup_nil; done. Qed.

Lemma chan_timers_alter f t ts xs es :
  (∀ x, callback (f x) = callback x) →
  inv_chan ts xs es → inv_chan (alter f t ts) xs es.
Proof.
  intros Hf I. split; [apply I..| |apply I].
  intros t1 tm st Ht Hcb.
  apply alter_lookup_inv in Ht as (x & Hx & [[_ ->]|[_ ->]]).
  - eapply chan_timer; eauto.
  - rewrite Hf in Hcb. eapply chan_timer; eauto.
Qed.

Lemma chan_timers_snoc tm s ts xs es :
  callback tm = TReconnect s →
  inv_chan ts xs es → inv_chan (ts ++ [tm]) xs es.
Proof.
  intros Hcb I. split; [apply I..| |apply I].
  intros t1 tm1 st Ht Hcb1.
  apply snoc_lookup_inv in Ht as [Ht|[_ ->]]; [|congruence].
  eapply chan_timer; eauto.
Qed.

Lemma chan_execs_snoc ex ts xs es :
  (ex_called ex = false → ex_settled ex = false) →
  inv_chan ts xs es → inv_chan ts xs (es ++ [ex]).
Proof.
  intros Hex I. split; [|apply I..|].
  - intros st x Hx. destruct (chan_called _ _ _ I st x Hx) as (ex0 & H0 & Hc).
    exists ex0. split; [by apply snoc_lookup_fwd|done].
  - intros i ex1 Hi Hc. apply snoc_lookup_inv in Hi as [Hi|[_ ->]]; [|auto].
    eapply chan_fresh; eauto.
Qed.

Lemma chan_execs_alter f i ts xs es :
  (∀ ex, ex_called ex = true → ex_called (f ex) = true) →
  (∀ ex, es !! i = Some ex → ex_called (f ex) = false → ex_settled (f ex) = false) →
  inv_chan ts xs es → inv_chan ts xs (alter f i es).
Proof.
  intros Hf1 Hf2 I. split; [|apply I..|].
  - intros st x Hx. destruct (chan_called _ _ _ I st x Hx) as (ex0 & H0 & Hc).
    destruct (alter_lookup_fwd f _ i _ _ H0) as (y & Hy & [[_ ->]|[_ ->]]); eauto.
  - intros j ex1 Hj Hc.
    apply alter_lookup_inv in Hj as (x & Hx & [[_ ->]|[<- ->]]); [|eauto].
    eapply chan_fresh; eauto.
Qed.

Lemma chan_streams_alter f st ts xs es :
  (∀ x, st_exec (f x) = st_exec x) → (∀ x, st_timer (f x) = st_timer x) →
  inv_chan ts xs es → inv_chan ts (alter f st xs) es.
Proof.
  intros Hf1 Hf2 I. split; [| | |apply I].
  - intros st1 x Hx.
    apply alter_lookup_inv in Hx as (x0 & Hx0 & [[_ ->]|[_ ->]]);
      rewrite ?Hf1; eapply chan_called; eauto.
  - intros st1 st2 x1 x2 H1 H2.
    apply alter_lookup_inv in H1 as (y1 & Hy1 & [[_ ->]|[_ ->]]);
      apply alter_lookup_inv in H2 as (y2 & Hy2 & [[_ ->]|[_ ->]]);
      rewrite ?Hf1; eapply chan_unique; eauto.
  - intros t tm st1 Ht Hcb.
    destruct (chan_timer _ _ _ I t tm st1 Ht Hcb) as (x & Hx & Hxt).
    destruct (alter_lookup_fwd f _ st _ _ Hx) as (y & Hy & [[_ ->]|[_ ->]]);
      eexists; (split; [done|]); by rewrite ?Hf2.
Qed.

(** The callback of [client.exec] delivers the channel. *)
Lemma chan_open i ex d ts xs es :
  es !! i = Some ex → ex_called ex = false →
  inv_chan ts xs es →
  inv_chan (ts ++ [{| callback := TExecTimeout (length xs); delay := d;
                      armed := true |}])
           (xs ++ [{| st_exec := i; st_timer := length ts; out := "";
                      errOut := ""; st_closed := false |}])
           (alter mark_called i es).
Proof.
  intros Hi Hc I.
  assert (∀ st x, xs !! st = Some x → st_exec x ≠ i) as Hfree.
  { intros st x Hx Heq.
    destruct (chan_called _ _ _ I st x Hx) as (ex0 & H0 & Hc0).
    rewrite Heq in H0. congruence. }
  split.
  - intros st x Hx. apply snoc_lookup_inv in Hx as [Hx|[_ ->]].
    + destruct (chan_called _ _ _ I st x Hx) as (ex0 & H0 & Hc0).
      destruct (alter_lookup_fwd mark_called _ i _ _ H0)
        as (y & Hy & [[_ ->]|[_ ->]]); eauto.
    + simpl. rewrite list_lookup_alter_eq, Hi. simpl. eauto.
  - intros st st' x x' Hx Hx' He.
    apply snoc_lookup_inv in Hx as [Hx|[-> ->]];
      apply snoc_lookup_inv in Hx' as [Hx'|[-> ->]]; simpl in He.
    + eapply chan_unique; eauto.
    + by apply Hfree in Hx.
    + by apply Hfree in Hx'.
    + done.
  - intros t tm st Ht Hcb. apply snoc_lookup_inv in Ht as [Ht|[-> ->]].
    + destruct (chan_timer _ _ _ I t tm st Ht Hcb) as (x & Hx & Hxt).
      exists x. split; [by apply snoc_lookup_fwd|done].
    + simpl in Hcb. injection Hcb as <-. eexists. split; [apply snoc_lookup_new|done].
  - intros j ex1 Hj Hc1.
    apply alter_lookup_inv in Hj as (x & Hx & [[_ ->]|[<- ->]]); [|done].
    eapply chan_fresh; eauto.
Qed.
End Chan.

Ltac ch_side :=
  solve [ intros []; reflexivity | reflexivity | intros [] ?; cbn; congruence
        | intros [] ? ?; cbn in *; congruence ].

Ltac ch_step :=
  first
    [ eassumption
    | apply chan_timers_alter; [ch_side|]
    | eapply chan_timers_snoc; [reflexivity|]
    | apply chan_execs_snoc; [ch_side|]
    | apply chan_streams_alter; [ch_side|ch_side|] ].

Ltac ch := prims; autorewrite with fp; prims; repeat ch_step.

Lemma Ic_settle r o w : Ic w → Ic (settle r o w).
Proof. intros I. by autorewrite with fp. Qed.

Lemma Ic_settle_exec i o w :
  (∀ ex, execs w !! i = Some ex → ex_called ex = true) →
  Ic w → Ic (settle_exec i o w).
Proof.
  intros Hc I. unfold settle_exec.
  destruct (execs w !! i) as [x|] eqn:Hx; [|done].
  destruct (ex_settled x); [done|].
  apply Ic_settle. prims. apply chan_execs_alter; [by intros []| |done].
  intros ex Hex. assert (ex = x) as -> by congruence.
  specialize (Hc x eq_refl). destruct x; simpl in *; congruence.
Qed.

Lemma Ic_exec_open r s cmd w : Ic w → Ic (exec_open r s cmd w).
Proof. intros I. unfold exec_open. repeat case_match; ch. Qed.

Lemma Ic_resume s k res w : Ic w → Ic (resume s k res w).
Proof.
  intros I. unfold resume. repeat case_match; try apply Ic_exec_open; ch.
Qed.

Lemma Ic_settle_connect p res w : Ic w → Ic (settle_connect p res w).
Proof.
  intros I. unfold settle_connect. repeat case_match; try done.
  apply Ic_resume. ch.
Qed.

Lemma Ic_scheduleReconnect now s w : Ic w → Ic (scheduleReconnect now s w).
Proof. intros I. unfold scheduleReconnect. repeat case_match; ch. Qed.

Lemma Ic_lost now s w : Ic w → Ic (lost now s w).
Proof. intros I. unfold lost. apply Ic_scheduleReconnect. ch. Qed.

Lemma Ic_connect s k w : Ic w → Ic (connect s k w).
Proof.
  intros I. unfold connect, connect_open. cbn zeta.
  repeat case_match; try apply Ic_settle_connect; ch.
Qed.

Lemma Ic_disconnect s w : Ic w → Ic (disconnect s w).
Proof. intros I. unfold disconnect. repeat case_match; ch. Qed.

Lemma Ic_exec now s cmd w : Ic w → Ic (exec now s cmd w).
Proof.
  intros I. unfold exec. cbn zeta.
  repeat case_match; try apply Ic_connect; try apply Ic_exec_open; ch.
Qed.

Lemma Ic_handle now c ev l w : Ic w → Ic (handle now c ev l w).
Proof.
  intros I. unfold handle.
  repeat case_match; try apply Ic_lost; try apply Ic_settle_connect; ch.
Qed.

Lemma Ic_emit now c ev w : Ic w → Ic (emit now c ev w).
Proof.
  intros I. unfold emit. case_match; [|done]. cbn zeta.
  match goal with |- context [foldl _ ?w0 ?ls] =>
    assert (Ic w0) as I0 by ch; generalize dependent w0; generalize ls end.
  intros ls. induction ls as [|l ls IH]; intros w0 I0; simpl; [done|].
  apply IH. by apply Ic_handle.
Qed.

Lemma Ic_get now id cfg w : Ic w → Ic (get now id cfg w).
Proof.
  intros I. unfold get. cbn zeta. repeat case_match; try apply Ic_connect; ch.
Qed.

Lemma Ic_close id w : Ic w → Ic (close id w).
Proof.
  intros I. unfold close. cbn zeta. repeat case_match; ch; by apply Ic_disconnect.
Qed.

Lemma Ic_closeAll w : Ic w → Ic (closeAll w).
Proof.
  intros I. unfold closeAll. prims. generalize (map snd (connections w)).
  intros l. revert w I. induction l as [|s l IH]; intros w I; simpl; [done|].
  apply IH. by apply Ic_disconnect.
Qed.

Lemma Ic_stream_close now st code w : Ic w → Ic (stream_close now st code w).
Proof.
  intros I. unfold stream_close.
  destruct (streams w !! st) as [x|] eqn:Hx; [|done]. cbn zeta.
  destruct (chan_called _ _ _ I st x Hx) as (ex & Hex & Hc).
  apply Ic_settle_exec.
  - intros ex'. unfold exec_session. repeat case_match; prims; congruence.
  - unfold exec_session. repeat case_match; ch.
Qed.

Lemma Ic_run_timer cb w : Ic w → Ic (run_timer cb w).
Proof.
  intros I. unfold run_timer. destruct cb as [s|st]; [by apply Ic_connect|].
  destruct (streams w !! st) as [x|] eqn:Hx; [|done].
  destruct (chan_called _ _ _ I st x Hx) as (ex & Hex & Hc). rewrite Hex.
  apply Ic_settle_exec; [prims; congruence|ch].
Qed.

Lemma Ic_step now ev w w' : step now ev w = Some w' → Ic w → Ic w'.
Proof.
  intros H I. destruct ev; step_inv H.
  - by apply Ic_get.
  - by apply Ic_close.
  - by apply Ic_closeAll.
  - apply Ic_connect. ch.
  - by apply Ic_exec.
  - by apply Ic_disconnect.
  - by apply Ic_emit.
  - destruct res; [apply Ic_settle_connect|unfold connect_open]; ch.
  - destruct err as [e0|].
    + apply Ic_settle_exec.
      * intros ex. prims. rewrite list_lookup_alter_eq.
        destruct (execs w !! i); simpl; [|done]. by intros [= <-].
      * ch. apply chan_execs_alter; [by intros []| |done].
        by intros [].
    + prims. eapply chan_open; eauto.
  - unfold stream_data. ch.
  - unfold stream_stderr. ch.
  - by apply Ic_stream_close.
  - apply Ic_run_timer. ch.
Qed.

Lemma Ic_run tr w w' : run tr w = Some w' → Ic w → Ic w'.
Proof.
  revert w. induction tr as [|[now ev] tr IH]; intros w; simpl.
  - by intros [= ->].
  - destruct (step now ev w) as [w1|] eqn:Hs; simpl; [|done].
    eauto using Ic_step.
Qed.

Lemma reachable_Ic w : reachable w → Ic w.
Proof. intros (timeout & tr & H). eapply Ic_run; [done|apply chan_nil]. Qed.

(** ** The command timeout: the invariant *)

Section Time.
Context (T pt : Z).
Implicit Types (ss : list SSHConnection) (es : list ExecCall).

Lemma time_nil : inv_time T T [] [].
Proof. split; intros *; rewrite ?lookup_nil; done. Qed.

Lemma time_sessions_alter f s ss es :
  (∀ x, commandTimeout (f x) = commandTimeout x) →
  inv_time T pt ss es → inv_time T pt (alter f s ss) es.
Proof.
  intros Hf I. split; [apply I| |apply I]. intros s1 this H1.
  apply alter_lookup_inv in H1 as (x & Hx & [[_ ->]|[_ ->]]);
    rewrite ?Hf; eapply time_session; eauto.
Qed.

Lemma time_sessions_snoc x ss es :
  commandTimeout x = T → inv_time T pt ss es → inv_time T pt (ss ++ [x]) es.
Proof.
  intros Hx I. split; [apply I| |apply I]. intros s1 this H1.
  apply snoc_lookup_inv in H1 as [H1|[_ ->]]; [|done].
  eapply time_session; eauto.
Qed.

Lemma time_execs_alter f i ss es :
  (∀ x, ex_timeout (f x) = ex_timeout x) →
  inv_time T pt ss es → inv_time T pt ss (alter f i es).
Proof.
  intros Hf I. split; [apply I..|]. intros j ex H1.
  apply alter_lookup_inv in H1 as (x & Hx & [[_ ->]|[_ ->]]);
    rewrite ?Hf; eapply time_exec; eauto.
Qed.

Lemma time_execs_snoc x ss es :
  ex_timeout x = T → inv_time T pt ss es → inv_time T pt ss (es ++ [x]).
Proof.
  intros Hx I. split; [apply I..|]. intros j ex H1.
  apply snoc_lookup_inv in H1 as [H1|[_ ->]]; [|done].
  eapply time_exec; eauto.
Qed.
End Time.

Ltac tmo_side := solve [ intros []; reflexivity | reflexivity ].

Ltac tmo_step :=
  first
    [ eassumption
    | apply time_sessions_alter; [tmo_side|]
    | apply time_execs_alter; [tmo_side|] ].

Ltac tmo := prims; autorewrite with fp; prims; repeat tmo_step.

Lemma Im_settle_exec T i o w : Im T w → Im T (settle_exec i o w).
Proof. intros I. unfold settle_exec. repeat case_match; tmo. Qed.

Lemma Im_exec_open T r s cmd w : Im T w → Im T (exec_open r s cmd w).
Proof.
  intros I. unfold exec_open.
  destruct (sessions w !! s) as [this|] eqn:Hs; [|done].
  destruct (client this); tmo.
  apply time_execs_snoc; [|done]. simpl. eapply time_session; eauto.
Qed.

Lemma Im_resume T s k res w : Im T w → Im T (resume s k res w).
Proof.
  intros I. unfold resume. repeat case_match; try apply Im_exec_open; tmo.
Qed.

Lemma Im_settle_connect T p res w : Im T w → Im T (settle_connect p res w).
Proof.
  intros I. unfold settle_connect. repeat case_match; try done.
  apply Im_resume. tmo.
Qed.

Lemma Im_scheduleReconnect T now s w : Im T w → Im T (scheduleReconnect now s w).
Proof. intros I. unfold scheduleReconnect. repeat case_match; tmo. Qed.

Lemma Im_lost T now s w : Im T w → Im T (lost now s w).
Proof. intros I. unfold lost. apply Im_scheduleReconnect. tmo. Qed.

Lemma Im_connect T s k w : Im T w → Im T (connect s k w).
Proof.
  intros I. unfold connect, connect_open. cbn zeta.
  repeat case_match; try apply Im_settle_connect; tmo.
Qed.

Lemma Im_disconnect T s w : Im T w → Im T (disconnect s w).
Proof. intros I. unfold disconnect. repeat case_match; tmo. Qed.

Lemma Im_exec T now s cmd w : Im T w → Im T (exec now s cmd w).
Proof.
  intros I. unfold exec. cbn zeta.
  repeat case_match; try apply Im_connect; try apply Im_exec_open; tmo.
Qed.

Lemma Im_handle T now c ev l w : Im T w → Im T (handle now c ev l w).
Proof.
  intros I. unfold handle.
  repeat case_match; try apply Im_lost; try apply Im_settle_connect; tmo.
Qed.

Lemma Im_emit T now c ev w : Im T w → Im T (emit now c ev w).
Proof.
  intros I. unfold emit. case_match; [|done]. cbn zeta.
  match goal with |- context [foldl _ ?w0 ?ls] =>
    assert (Im T w0) as I0 by tmo; generalize dependent w0; generalize ls end.
  intros ls. induction ls as [|l ls IH]; intros w0 I0; simpl; [done|].
  apply IH. by apply Im_handle.
Qed.

Lemma Im_get T now id cfg w : Im T w → Im T (get now id cfg w).
Proof.
  intros I. unfold get. cbn zeta. repeat case_match; try apply Im_connect; tmo.
  apply time_sessions_snoc; [|done]. simpl. apply I.
Qed.

Lemma Im_close T id w : Im T w → Im T (close id w).
Proof.
  intros I. unfold close. cbn zeta. repeat case_match; tmo; by apply Im_disconnect.
Qed.

Lemma Im_closeAll T w : Im T w → Im T (closeAll w).
Proof.
  intros I. unfold closeAll. prims.
  assert (∀ l w0, Im T w0 → Im T (foldl (λ w c, disconnect c w) w0 l)) as Hl.
  { intros l. induction l as [|s l IH]; intros w0 I0; simpl; [done|].
    apply IH. by apply Im_disconnect. }
  specialize (Hl (map snd (connections w)) w I).
  generalize dependent (foldl (λ w c, disconnect c w) w (map snd (connections w))).
  intros w0 I0. tmo.
Qed.

Lemma Im_stream_close T now st code w : Im T w → Im T (stream_close now st code w).
Proof.
  intros I. unfold stream_close, exec_session. cbn zeta.
  repeat case_match; try apply Im_settle_exec; tmo.
Qed.

Lemma Im_run_timer T cb w : Im T w → Im T (run_timer cb w).
Proof.
  intros I. unfold run_timer.
  repeat case_match; try apply Im_connect; try apply Im_settle_exec; tmo.
Qed.

Lemma Im_step T now ev w w' : step now ev w = Some w' → Im T w → Im T w'.
Proof.
  intros H I. destruct ev; step_inv H.
  - by apply Im_get.
  - by apply Im_close.
  - by apply Im_closeAll.
  - apply Im_connect. tmo.
  - by apply Im_exec.
  - by apply Im_disconnect.
  - by apply Im_emit.
  - destruct res; [apply Im_settle_connect|unfold connect_open]; tmo.
  - destruct err; [apply Im_settle_exec|]; tmo.
  - unfold stream_data. tmo.
  - unfold stream_stderr. tmo.
  - by apply Im_stream_close.
  - apply Im_run_timer. tmo.
Qed.

Lemma Im_run T tr w w' : run tr w = Some w' → Im T w → Im T w'.
Proof.
  revert w. induction tr as [|[now ev] tr IH]; intros w; simpl.
  - by intros [= ->].
  - destruct (step now ev w) as [w1|] eqn:Hs; simpl; [|done].
    eauto using Im_step.
Qed.

Lemma run_init_Im timeout tr w :
  run tr (init timeout) = Some w → Im (default default_commandTimeout timeout) w.
Proof. intros H. eapply Im_run; [done|apply time_nil]. Qed.

(** ** What [disconnect()] does to each part of the world *)

Section Disconnect.
Context (s : nat) (w : World) (this : SSHConnection).
Hypothesis Hs : sessions w !! s = Some this.

Lemma disconnect_session :
  sessions (disconnect s w) !! s = Some (disconnected this).
Proof using Hs.
  unfold disconnect. rewrite Hs.
  destruct this as [cl cfg ic rt la ct]; simpl.
  destruct rt, cl; prims; rewrite ?list_lookup_alter_eq, Hs; done.
Qed.

Lemma disconnect_session_ne s' :
  s ≠ s' → sessions (disconnect s w) !! s' = sessions w !! s'.
Proof using Hs.
  intros Hne. unfold disconnect. rewrite Hs.
  repeat case_match; prims; rewrite ?list_lookup_alter_ne by done; done.
Qed.

Lemma disconnect_clients :
  clients (disconnect s w) =
    match client this with
    | Some c => alter (λ _, {| listeners := [] |}) c (clients w)
    | None => clients w
    end.
Proof using Hs. unfold disconnect. rewrite Hs. by repeat case_match. Qed.

Lemma disconnect_timers :
  timers (disconnect s w) =
    match reconnectTimer this with
    | Some t => alter disarm t (timers w)
    | None => timers w
    end.
Proof using Hs. unfold disconnect. rewrite Hs. by repeat case_match. Qed.

Lemma disconnect_effects :
  effects (disconnect s w) =
    match client this with
    | Some c => EEnd c :: effects w
    | None => effects w
    end.
Proof using Hs. unfold disconnect. rewrite Hs. by repeat case_match. Qed.
End Disconnect.

Lemma disconnect_missing s w : sessions w !! s = None → disconnect s w = w.
Proof. intros H. unfold disconnect. by rewrite H. Qed.

(** The fields [disconnect()] never touches. *)
Lemma disconnect_frame s w :
  let w' := disconnect s w in
  streams w' = streams w ∧ reads w' = reads w ∧ execs w' = execs w ∧
  connects w' = connects w ∧ connections w' = connections w ∧
  poolTimeout w' = poolTimeout w ∧ outcomes w' = outcomes w.
Proof. unfold disconnect. repeat case_match; prims; auto 10. Qed.

(** Worlds are equal when their fields are. *)
Lemma world_eq (w w' : World) :
  sessions w = sessions w' → clients w = clients w' → timers w = timers w' →
  streams w = streams w' → reads w = reads w' → execs w = execs w' →
  connects w = connects w' → connections w = connections w' →
  poolTimeout w = poolTimeout w' → outcomes w = outcomes w' →
  effects w = effects w' → w = w'.
Proof. destruct w, w'; simpl; intros; by subst. Qed.

(** [disconnect()] is idempotent: on a session already disconnected it
    changes nothing, not even the log of calls on collaborators. *)
Lemma disconnect_disconnected s w this :
  sessions w !! s = Some this →
  client this = None → reconnectTimer this = None → isConnected this = false →
  disconnect s w = w.
Proof.
  intros Hs Hc Hr Hi. unfold disconnect. rewrite Hs, Hc, Hr.
  apply world_eq; prims; try done.
  apply list_eq. intros i. rewrite list_lookup_alter.
  case_decide; [|done]. subst. rewrite Hs. simpl. f_equal.
  destruct this; simpl in *. by subst.
Qed.

Lemma disconnect_idempotent s w : disconnect s (disconnect s w) = disconnect s w.
Proof.
  destruct (sessions w !! s) as [this|] eqn:Hs.
  - eapply disconnect_disconnected; [by apply disconnect_session|done..].
  - rewrite (disconnect_missing s w Hs). by apply disconnect_missing.
Qed.

(** ** What [scheduleReconnect()] does *)

Lemma cancel_reconnect_length this w :
  length (timers (cancel_reconnect this w)) = length (timers w).
Proof. unfold cancel_reconnect. case_match; prims; [apply length_alter|done]. Qed.

Lemma scheduleReconnect_eq now s w this :
  sessions w !! s = Some this →
  scheduleReconnect now s w =
    if (now - lastActivity this <? 30 * 60 * 1000)%Z
    then update_session s (with_reconnectTimer (Some (length (timers w))))
           (setTimeout (TReconnect s) 5000 (cancel_reconnect this w))
    else cancel_reconnect this w.
Proof.
  intros Hs. unfold scheduleReconnect. rewrite Hs. fold (cancel_reconnect this w).
  by rewrite cancel_reconnect_length.
Qed.

Lemma cancel_reconnect_sessions this w :
  sessions (cancel_reconnect this w) = sessions w.
Proof. unfold cancel_reconnect. by case_match. Qed.

Lemma cancel_reconnect_clients this w :
  clients (cancel_reconnect this w) = clients w.
Proof. unfold cancel_reconnect. by case_match. Qed.

Lemma cancel_reconnect_streams this w :
  streams (cancel_reconnect this w) = streams w.
Proof. unfold cancel_reconnect. by case_match. Qed.

Lemma cancel_reconnect_reads this w :
  reads (cancel_reconnect this w) = reads w.
Proof. unfold cancel_reconnect. by case_match. Qed.

Lemma cancel_reconnect_execs this w :
  execs (cancel_reconnect this w) = execs w.
Proof. unfold cancel_reconnect. by case_match. Qed.

Lemma cancel_reconnect_connects this w :
  connects (cancel_reconnect this w) = connects w.
Proof. unfold cancel_reconnect. by case_match. Qed.

Lemma cancel_reconnect_connections this w :
  connections (cancel_reconnect this w) = connections w.
Proof. unfold cancel_reconnect. by case_match. Qed.

Lemma cancel_reconnect_outcomes this w :
  outcomes (cancel_reconnect this w) = outcomes w.
Proof. unfold cancel_reconnect. by case_match. Qed.

Lemma cancel_reconnect_effects this w :
  effects (cancel_reconnect this w) = effects w.
Proof. unfold cancel_reconnect. by case_match. Qed.

Lemma cancel_reconnect_poolTimeout this w :
  poolTimeout (cancel_reconnect this w) = poolTimeout w.
Proof. unfold cancel_reconnect. by case_match. Qed.

#[export] Hint Rewrite cancel_reconnect_sessions cancel_reconnect_clients cancel_reconnect_streams cancel_reconnect_reads cancel_reconnect_execs cancel_reconnect_connects cancel_reconnect_connections cancel_reconnect_outcomes cancel_reconnect_effects cancel_reconnect_poolTimeout : fp.

Lemma cancel_reconnect_cancels this w t tm :
  reconnectTimer this = Some t → timers w !! t = Some tm →
  timers (cancel_reconnect this w) !! t = Some (disarm tm).
Proof.
  intros Hr Ht. unfold cancel_reconnect. rewrite Hr. prims.
  by rewrite list_lookup_alter_eq, Ht.
Qed.

(** The handlers of lines 40-46 after the log line:
    [this.isConnected = false; this.scheduleReconnect()]. *)
Lemma lost_eq now s w this :
  sessions w !! s = Some this →
  lost now s w =
    scheduleReconnect now s (update_session s (with_isConnected false) w) ∧
  sessions (update_session s (with_isConnected false) w) !! s =
    Some (with_isConnected false this).
Proof. intros Hs. split; [done|]. prims. by rewrite list_lookup_alter_eq, Hs. Qed.

(** The session and its timer once a loss handler has run at time [now]. *)
Lemma lost_session now s w this :
  sessions w !! s = Some this →
  ∃ this', sessions (lost now s w) !! s = Some this' ∧
    isConnected this' = false ∧ lastActivity this' = lastActivity this ∧
    config this' = config this ∧ client this' = client this ∧
    ((now - lastActivity this < 30 * 60 * 1000)%Z →
       reconnectTimer this' = Some (length (timers w)) ∧
       timers (lost now s w) !! length (timers w) = Some (reconnect_timer s)) ∧
    ((30 * 60 * 1000 ≤ now - lastActivity this)%Z →
       reconnectTimer this' = reconnectTimer this ∧
       timers (lost now s w) = timers (cancel_reconnect this w)).
Proof.
  intros Hs. destruct (lost_eq now s w this Hs) as [-> Hs1].
  rewrite (scheduleReconnect_eq _ _ _ _ Hs1). cbn [lastActivity with_isConnected].
  assert (length (timers (cancel_reconnect (with_isConnected false this)
            (update_session s (with_isConnected false) w))) = length (timers w))
    as Hlen by (by rewrite cancel_reconnect_length).
  destruct (Z.ltb_spec (now - lastActivity this) (30 * 60 * 1000)) as [Hlt|Hge].
  - eexists. split.
    { prims. autorewrite with fp. prims.
      rewrite list_lookup_alter_eq, list_lookup_alter_eq, Hs. done. }
    cbn [isConnected lastActivity config client reconnectTimer
         with_reconnectTimer with_isConnected].
    split; [done|]. split; [done|]. split; [done|]. split; [done|].
    split; [|lia]. intros _. split; [done|]. prims.
    rewrite <- Hlen. apply snoc_lookup_new.
  - exists (with_isConnected false this). split.
    { autorewrite with fp. done. }
    cbn [isConnected lastActivity config client reconnectTimer with_isConnected].
    split; [done|]. split; [done|]. split; [done|]. split; [done|].
    split; [lia|]. intros _. split; [done|].
    unfold cancel_reconnect. cbn [reconnectTimer with_isConnected].
    by destruct (reconnectTimer this).
Qed.

Lemma lost_frame now s w :
  let w' := lost now s w in
  clients w' = clients w ∧ streams w' = streams w ∧ reads w' = reads w ∧
  execs w' = execs w ∧ connects w' = connects w ∧
  connections w' = connections w ∧ outcomes w' = outcomes w ∧
  effects w' = effects w.
Proof.
  unfold lost, scheduleReconnect. repeat case_match; prims; auto 10.
Qed.

(** C6.  On a session whose descriptor has neither [password] nor
    [privateKeyPath], [connect()] rejects with the auth-configuration error
    whoever awaits it, and it does so before any network I/O: no transport
    is opened and no key file is read (the only call on a collaborator is
    [end()] on the client of an earlier attempt, if there was one). *)
Theorem connect_rejects_without_credentials w s this :
  reachable w → sessions w !! s = Some this →
  privateKeyPath (config this) = None → password (config this) = None →
  (∀ k, connects (connect s k w) !! length (connects w) =
          Some {| cc_session := s; cc_kont := k;
                  cc_state := RejectedWith no_auth_error |} ∧
        effects (connect s k w) =
          match client this with Some old => [EEnd old] | None => [] end
          ++ effects w) ∧
  (∀ now, ∃ w', step now (CallConnect s) w = Some w' ∧
                outcome (length (outcomes w)) w' = Some (Rejected no_auth_error)).
Proof.
  intros Hr Hs Hk Hp.
  pose proof (reachable_Inv _ Hr) as I.
  assert (truthy (privateKeyPath (config this)) = None) as Tk by (by rewrite Hk).
  assert (truthy (password (config this)) = None) as Tp by (by rewrite Hp).
  pose proof (no_auth_disconnected _ _ _ I Hs Tk Tp) as Hc.
  split.
  - intros k. destruct (connect_no_auth w s this k Hs Hc Tk Tp) as (H1 & H2 & _).
    done.
  - intros now. eexists. split; [simpl; by rewrite Hs|].
    destruct (connect_no_auth (new_call w) s this (KCaller (length (outcomes w))))
      as (_ & _ & H3); try done.
    apply H3; [done|]. apply outcome_new_call.
Qed.

Lemma connect_rejects_without_credentials_witness :
  let w := get 0 "gamma" Examples.without_credentials (init None) in
  effects (connect 0 KSwallow w) = [EEnd 0] ∧
  ∃ w', step 1 (CallConnect 0) w = Some w' ∧
        outcome 1 w' = Some (Rejected no_auth_error).
Proof.
  intros w.
  assert (reachable w) as Hr.
  { apply (reachable_step 0 (CallGet "gamma" Examples.without_credentials) (init None));
      [apply reachable_init|reflexivity]. }
  destruct (connect_rejects_without_credentials w 0
              {| client := Some 0; config := Examples.without_credentials;
                 isConnected := false; reconnectTimer := None; lastActivity := 0;
                 commandTimeout := 60000 |} Hr eq_refl eq_refl eq_refl) as [H1 H2].
  split; [exact (proj2 (H1 KSwallow))|exact (H2 1%Z)].
Defined.

(** ** [pool.get] on a mapped id *)

Lemma get_mapped now id d w s :
  map_get id (connections w) = Some s →
  get now id d w =
    match sessions w !! s with
    | None => new_call w
    | Some conn =>
        if negb (isActive conn)
        then connect s (KGet (length (outcomes w))) (new_call w)
        else settle (length (outcomes w)) (ResolvedSession s) (new_call w)
    end.
Proof. intros H. unfold get. cbn zeta. prims. by rewrite H. Qed.

Lemma get_unmapped now id d w :
  map_get id (connections w) = None →
  get now id d w =
    connect (length (sessions w)) (KGet (length (outcomes w)))
      (set_connections (map_set id (length (sessions w)) (connections w))
         (set_sessions
            (sessions w ++ [new_SSHConnection now d (Some (poolTimeout w))])
            (new_call w))).
Proof. intros H. unfold get. cbn zeta. prims. by rewrite H. Qed.

Lemma extends_config w w' s this :
  extends w w' → sessions w !! s = Some this →
  ∃ this', sessions w' !! s = Some this' ∧ config this' = config this.
Proof.
  intros E Hs. destruct (ext_sessions _ _ E _ _ Hs) as (this' & H & Hc & _). eauto.
Qed.

(** The first call made on a collaborator by a [connect()] that
    authenticates with a password: the transport is opened with the
    session's own descriptor. *)
Lemma connect_password_opens w s this k pw :
  sessions w !! s = Some this → isConnected this = false →
  truthy (privateKeyPath (config this)) = None →
  truthy (password (config this)) = Some pw →
  head (effects (connect s k w)) =
    Some (EOpen (length (clients w)) (make_cfg (config this) (Password pw))).
Proof.
  intros Hs Hc Hk Hp. unfold connect, connect_open. cbn zeta. prims.
  rewrite Hs, Hc, Hk, Hp. destruct (client this); prims; [|done].
  by rewrite length_alter.
Qed.

Lemma get_unmapped_creates w now id d :
  map_get id (connections w) = None →
  ∃ new, sessions (get now id d w) !! length (sessions w) = Some new ∧
         config new = d.
Proof.
  intros Hn. rewrite (get_unmapped _ _ _ _ Hn).
  match goal with |- context [connect ?s ?k ?w0] =>
    destruct (extends_config w0 (connect s k w0) (length (sessions w))
                (new_SSHConnection now d (Some (poolTimeout w))))
      as (new & Hnew & Hcfg); [apply extends_connect|prims; apply snoc_lookup_new|]
  end.
  eauto.
Qed.

(** C10.  When [id] is already mapped, [pool.get(id, descriptor)] does not
    look at the descriptor: the call behaves the same for every descriptor,
    the session keeps the descriptor it was created with for ever, and a
    reconnection of an inactive session opens the transport with that stored
    descriptor.  The descriptor supplied matters only when no session exists
    for the id: it becomes the descriptor of the session created. *)
Theorem get_ignores_descriptor_when_mapped w id s this :
  map_get id (connections w) = Some s → sessions w !! s = Some this →
  (∀ now d1 d2, get now id d1 w = get now id d2 w) ∧
  (∀ now d tr w', run ((now, CallGet id d) :: tr) w = Some w' →
     ∃ this', sessions w' !! s = Some this' ∧ config this' = config this) ∧
  (∀ now d pw, isConnected this = false →
     truthy (privateKeyPath (config this)) = None →
     truthy (password (config this)) = Some pw →
     head (effects (get now id d w)) =
       Some (EOpen (length (clients w)) (make_cfg (config this) (Password pw)))) ∧
  (∀ now id' d, map_get id' (connections w) = None →
     ∃ new, sessions (get now id' d w) !! length (sessions w) = Some new ∧
            config new = d).
Proof.
  intros Hm Hs. split; [|split; [|split]].
  - intros now d1 d2. by rewrite !(get_mapped _ _ _ _ _ Hm).
  - intros now d tr w' H. eapply extends_config; [|done].
    eapply extends_run; eauto.
  - intros now d pw Hc Hk Hp. rewrite (get_mapped _ _ _ _ _ Hm), Hs.
    unfold isActive. rewrite Hc. simpl.
    exact (connect_password_opens (new_call w) s this _ pw Hs Hc Hk Hp).
  - intros now id' d Hn. by apply get_unmapped_creates.
Qed.

Lemma get_ignores_descriptor_when_mapped_witness :
  let w := get 0 "alpha" Examples.with_password (init None) in
  get 7 "alpha" Examples.with_key w = get 7 "alpha" Examples.without_credentials w ∧
  head (effects (get 7 "alpha" Examples.with_key w)) =
    Some (EOpen 1 (make_cfg Examples.with_password (Password "secret"))).
Proof.
  intros w.
  destruct (get_ignores_descriptor_when_mapped w "alpha" 0
              {| client := Some 0; config := Examples.with_password;
                 isConnected := false; reconnectTimer := None; lastActivity := 0;
                 commandTimeout := 60000 |} eq_refl eq_refl) as (H1 & _ & H3 & _).
  split; [apply H1|]. by apply (H3 7%Z Examples.with_key "secret"%string).
Defined.

(** ** [closeAll()] *)

Lemma torn_down_disconnect s this w :
  sessions w !! s = Some this → torn_down s this (disconnect s w).
Proof.
  intros Hs. split; [by apply disconnect_session|]. split.
  - intros c Hc. rewrite (disconnect_effects s w this Hs), Hc.
    rewrite (disconnect_clients s w this Hs), Hc.
    split; [apply elem_of_cons; auto|].
    intros cl Hcl. apply alter_lookup_inv in Hcl as (x & Hx & [[Hne ->]|[_ ->]]); done.
  - intros t tm Ht Htm. rewrite (disconnect_timers s w this Hs), Ht in Htm.
    apply alter_lookup_inv in Htm as (x & Hx & [[Hne ->]|[_ ->]]); done.
Qed.

Lemma torn_down_stable s this s' w :
  torn_down s this w → torn_down s this (disconnect s' w).
Proof.
  intros (Hs & Hc & Ht).
  destruct (sessions w !! s') as [that|] eqn:Hs';
    [|by rewrite (disconnect_missing s' w Hs')].
  split; [|split].
  - destruct (decide (s' = s)) as [->|Hne].
    + rewrite (disconnect_session s w _ Hs). done.
    + by rewrite (disconnect_session_ne s' w that Hs' s Hne).
  - intros c Hcl. destruct (Hc c Hcl) as [He Hl].
    rewrite (disconnect_effects s' w that Hs'), (disconnect_clients s' w that Hs').
    split; [destruct (client that); [apply elem_of_cons|]; auto|].
    intros cl Hx. destruct (client that); [|eauto].
    apply alter_lookup_inv in Hx as (x & Hx & [[_ ->]|[_ ->]]); eauto.
  - intros t tm Hr Htm. rewrite (disconnect_timers s' w that Hs') in Htm.
    destruct (reconnectTimer that); [|eauto].
    apply alter_lookup_inv in Htm as (x & Hx & [[_ ->]|[_ ->]]); eauto.
Qed.

Lemma torn_down_foldl s this l w :
  torn_down s this w → torn_down s this (foldl (λ w c, disconnect c w) w l).
Proof.
  revert w. induction l as [|s' l IH]; intros w H; simpl; [done|].
  by apply IH, torn_down_stable.
Qed.

Lemma disconnect_all_tears_down s this l w :
  s ∈ l → sessions w !! s = Some this →
  torn_down s this (foldl (λ w c, disconnect c w) w l).
Proof.
  revert w. induction l as [|s' l IH]; intros w Hin Hs; simpl.
  - by apply elem_of_nil in Hin.
  - destruct (decide (s' = s)) as [->|Hne].
    + by apply torn_down_foldl, torn_down_disconnect.
    + apply elem_of_cons in Hin as [->|Hin]; [done|]. apply IH; [done|].
      destruct (sessions w !! s') as [that|] eqn:Hs'.
      * by rewrite (disconnect_session_ne s' w that Hs' s Hne).
      * by rewrite (disconnect_missing s' w Hs').
Qed.

Lemma map_get_values id m s : map_get id m = Some s → s ∈ map snd m.
Proof.
  induction m as [|[k v] m IH]; simpl; [done|].
  destruct (String.eqb k id); [intros [= ->]|intros H];
    apply elem_of_cons; auto.
Qed.

(** C2, as the program has it.  [closeAll()] calls [disconnect()] on every
    mapped session and then empties the mapping: afterwards no id is mapped,
    and every session that was mapped is disconnected, its client ended and
    stripped of its subscriptions and its reconnect timer cancelled. *)
Theorem closeAll_disconnects_and_clears w :
  connections (closeAll w) = [] ∧
  (∀ id, map_get id (connections (closeAll w)) = None) ∧
  ∀ id s this, map_get id (connections w) = Some s → sessions w !! s = Some this →
    torn_down s this (closeAll w).
Proof.
  split; [done|]. split; [done|].
  intros id s this Hm Hs.
  destruct (disconnect_all_tears_down s this (map snd (connections w)) w)
    as (H1 & H2 & H3); [by eapply map_get_values|done|].
  split; [|split]; done.
Qed.

(** C2 as claimed fails: a mapped session does not stay mapped. *)
Lemma closeAll_removes_entry :
  ∃ w, run [(0, CallGet "alpha" Examples.with_password);
            (1, ClientEmits 0 EvReady)]%Z (init None) = Some w ∧
       map_get "alpha" (connections w) = Some 0 ∧
       map_get "alpha" (connections (closeAll w)) = None.
Proof. eexists. split; [vm_compute; reflexivity|]. split; reflexivity. Qed.

Lemma closeAll_disconnects_and_clears_witness :
  let w := emit 1 0 EvReady (get 0 "alpha" Examples.with_password (init None)) in
  map_get "alpha" (connections (closeAll w)) = None ∧
  torn_down 0 {| client := Some 0; config := Examples.with_password;
                 isConnected := true; reconnectTimer := None; lastActivity := 1;
                 commandTimeout := 60000 |} (closeAll w).
Proof.
  intros w. destruct (closeAll_disconnects_and_clears w) as (_ & H1 & H2).
  split; [apply H1|]. apply (H2 "alpha"%string); vm_compute; reflexivity.
Defined.

(** ** The [connections] map *)

Lemma map_get_set_eq id s m : map_get id (map_set id s m) = Some s.
Proof.
  induction m as [|[k v] m IH]; simpl; [by rewrite String.eqb_refl|].
  destruct (String.eqb k id) eqn:E; simpl; by rewrite E.
Qed.

Lemma map_get_set_ne id id' s m :
  id ≠ id' → map_get id (map_set id' s m) = map_get id m.
Proof.
  intros Hne. induction m as [|[k v] m IH]; simpl.
  - destruct (String.eqb_spec id' id); congruence.
  - destruct (String.eqb_spec k id') as [->|Hk]; simpl.
    + destruct (String.eqb_spec id' id); congruence.
    + by rewrite IH.
Qed.

Lemma map_get_delete_ne id id' m :
  id ≠ id' → map_get id (map_delete id' m) = map_get id m.
Proof.
  intros Hne. induction m as [|[k v] m IH]; simpl; [done|].
  destruct (String.eqb_spec k id') as [->|Hk]; simpl.
  - destruct (String.eqb_spec id' id); congruence.
  - by rewrite IH.
Qed.

(** Only the pool's own methods change the map. *)
Lemma scheduleReconnect_connections now s w :
  connections (scheduleReconnect now s w) = connections w.
Proof. unfold scheduleReconnect. repeat case_match; same. Qed.

Lemma lost_connections now s w : connections (lost now s w) = connections w.
Proof. unfold lost. by rewrite scheduleReconnect_connections. Qed.

Lemma connect_connections s k w : connections (connect s k w) = connections w.
Proof. unfold connect. cbn zeta. repeat case_match; same. Qed.

Lemma disconnect_connections s w : connections (disconnect s w) = connections w.
Proof. apply disconnect_frame. Qed.

Lemma handle_connections now c ev l w :
  connections (handle now c ev l w) = connections w.
Proof.
  unfold handle. repeat case_match; rewrite ?lost_connections; same.
Qed.

Lemma emit_connections now c ev w : connections (emit now c ev w) = connections w.
Proof.
  unfold emit. case_match; [|done]. cbn zeta.
  match goal with |- context [foldl _ ?w0 ?ls] =>
    change (connections w) with (connections w0); generalize w0; generalize ls end.
  intros ls. induction ls as [|l ls IH]; intros w0; simpl; [done|].
  by rewrite IH, handle_connections.
Qed.

Lemma exec_connections now s cmd w : connections (exec now s cmd w) = connections w.
Proof.
  unfold exec. cbn zeta. repeat case_match; rewrite ?connect_connections; same.
Qed.

Lemma stream_close_connections now st code w :
  connections (stream_close now st code w) = connections w.
Proof. unfold stream_close. cbn zeta. repeat case_match; same. Qed.

Lemma run_timer_connections cb w : connections (run_timer cb w) = connections w.
Proof.
  unfold run_timer. repeat case_match; rewrite ?connect_connections; same.
Qed.

(** An entry stays until [close] of its id or [closeAll]. *)
Lemma step_keeps_entry now ev w w' id s :
  step now ev w = Some w' → ev ≠ CallClose id → ev ≠ CallCloseAll →
  map_get id (connections w) = Some s → map_get id (connections w') = Some s.
Proof.
  intros H Hc Ha Hm. destruct ev; step_inv H; try done.
  - destruct (map_get id0 (connections w)) as [s0|] eqn:E.
    + rewrite (get_mapped _ _ _ _ _ E).
      repeat case_match; rewrite ?connect_connections; autorewrite with fp; done.
    + rewrite (get_unmapped _ _ _ _ E), connect_connections. prims.
      rewrite map_get_set_ne; [done|]. intros <-. congruence.
  - unfold close. cbn zeta. autorewrite with fp. prims.
    destruct (map_get id0 (connections w)); [|done]. prims.
    rewrite map_get_delete_ne; [done|congruence].
  - by rewrite connect_connections.
  - by rewrite exec_connections.
  - by rewrite disconnect_connections.
  - by rewrite emit_connections.
  - destruct res; unfold connect_open; autorewrite with fp; done.
  - destruct err; autorewrite with fp; done.
  - by rewrite stream_close_connections.
  - by rewrite run_timer_connections.
Qed.

Lemma run_keeps_entry tr w w' id s :
  run tr w = Some w' → Forall (keeps id) tr →
  map_get id (connections w) = Some s → map_get id (connections w') = Some s.
Proof.
  revert w. induction tr as [|[now ev] tr IH]; intros w H Hk Hm; simpl in H.
  - by injection H as <-.
  - destruct (step now ev w) as [w1|] eqn:Hs; simpl in H; [|done].
    apply Forall_cons in Hk as [[H1 H2] Hk].
    eapply IH; [done..|]. eapply step_keeps_entry; eauto.
Qed.

(** The call that [connect()] registers for itself. *)
Lemma connect_call s k w :
  ∃ cc, connects (connect s k w) !! length (connects w) = Some cc ∧
        cc_session cc = s ∧ cc_kont cc = k.
Proof.
  set (w0 := set_connects (connects w ++ [{| cc_session := s; cc_kont := k;
                                            cc_state := Pending |}]) w).
  assert (extends w0 (connect s k w)) as E.
  { unfold connect. cbn zeta. fold w0. repeat case_match; ext_chain. }
  destruct (ext_connects _ _ E (length (connects w))
              {| cc_session := s; cc_kont := k; cc_state := Pending |})
    as (cc & Hcc & H1 & H2 & _); [apply snoc_lookup_new|].
  eauto.
Qed.

(** C1, as the program has it.  When [pool.get(id, descriptor)] creates a
    session and the initial [connect()] rejects, the error reaches the
    caller of [get] unchanged, and the session stays in the pool under [id]
    (until somebody closes it): a later [get] of the id finds that session
    and reconnects it if it is inactive, instead of building a new one. *)
Theorem get_failure_keeps_session w now id d tr w' cc e :
  reachable w → map_get id (connections w) = None →
  run ((now, CallGet id d) :: tr) w = Some w' → Forall (keeps id) tr →
  connects w' !! length (connects w) = Some cc → cc_state cc = RejectedWith e →
  outcome (length (outcomes w)) w' = Some (Rejected e) ∧
  map_get id (connections w') = Some (length (sessions w)) ∧
  ∃ conn, sessions w' !! length (sessions w) = Some conn ∧
    ∀ now' d', get now' id d' w' =
      if negb (isActive conn)
      then connect (length (sessions w)) (KGet (length (outcomes w'))) (new_call w')
      else settle (length (outcomes w')) (ResolvedSession (length (sessions w)))
             (new_call w').
Proof.
  intros Hr Hm Hrun Hk Hcc He. simpl in Hrun.
  set (w1 := get now id d w) in *.
  assert (map_get id (connections w1) = Some (length (sessions w))) as Hm1.
  { subst w1. rewrite (get_unmapped _ _ _ _ Hm), connect_connections. prims.
    apply map_get_set_eq. }
  assert (∃ cc1, connects w1 !! length (connects w) = Some cc1 ∧
                 cc_kont cc1 = KGet (length (outcomes w))) as (cc1 & Hcc1 & Hk1).
  { subst w1. rewrite (get_unmapped _ _ _ _ Hm).
    match goal with |- context [connect ?s ?k ?w0] =>
      destruct (connect_call s k w0) as (cc1 & H1 & _ & H2) end.
    prims. eauto. }
  assert (∃ new, sessions w1 !! length (sessions w) = Some new) as (new & Hnew).
  { destruct (get_unmapped_creates w now id d Hm) as (new & H & _).
    eauto. }
  pose proof (extends_run _ _ _ Hrun) as E.
  destruct (ext_connects _ _ E _ _ Hcc1) as (cc' & Hcc' & _ & Hk' & _).
  rewrite Hcc in Hcc'. injection Hcc' as <-.
  destruct (ext_sessions _ _ E _ _ Hnew) as (conn & Hconn & _).
  pose proof (run_keeps_entry _ _ _ _ _ Hrun Hk Hm1) as Hm'.
  assert (reachable w') as Hr'.
  { eapply reachable_run; [|exact Hrun].
    apply (reachable_step now (CallGet id d) w); [exact Hr|reflexivity]. }
  split; [|split; [done|]].
  - pose proof (Inv_observed _ (reachable_Inv _ Hr') _ _ Hcc) as Ho.
    unfold observed in Ho. rewrite He, Hk', Hk1 in Ho. exact Ho.
  - exists conn. split; [done|]. intros now' d'.
    by rewrite (get_mapped _ _ _ _ _ Hm'), Hconn.
Qed.

Lemma get_failure_keeps_session_witness :
  ∃ w', run [(0, CallGet "alpha" Examples.with_password);
             (1, ClientEmits 0 (EvError Examples.refused))]%Z (init None) = Some w' ∧
        outcome 0 w' = Some (Rejected Examples.refused) ∧
        map_get "alpha" (connections w') = Some 0.
Proof.
  eexists. split; [vm_compute; reflexivity|].
  match goal with |- outcome _ ?w' = _ ∧ _ =>
    destruct (get_failure_keeps_session (init None) 0 "alpha" Examples.with_password
                [(1%Z, ClientEmits 0 (EvError Examples.refused))] w'
                {| cc_session := 0; cc_kont := KGet 0;
                   cc_state := RejectedWith Examples.refused |}
                Examples.refused (reachable_init None))
      as (H1 & H2 & _)
  end.
  - reflexivity.
  - vm_compute. reflexivity.
  - repeat constructor; discriminate.
  - reflexivity.
  - reflexivity.
  - split; [exact H1|exact H2].
Defined.

(** C1 as claimed fails: the failed session is still mapped. *)
Lemma get_failure_entry_remains :
  ∃ w', run [(0, CallGet "gamma" Examples.without_credentials)]%Z (init None)
          = Some w' ∧
        outcome 0 w' = Some (Rejected no_auth_error) ∧
        map_get "gamma" (connections w') = Some 0.
Proof. eexists. split; [vm_compute; reflexivity|]. split; reflexivity. Qed.

(** ** A transport error while [connect()] is waiting *)

Lemma settle_connect_rejected_effects q e w :
  effects (settle_connect q (Some e) w) = effects w.
Proof.
  unfold settle_connect. repeat case_match; try done.
  by rewrite resume_rejected_effects.
Qed.

Lemma settle_connect_lookup p q res w cc :
  connects w !! p = Some cc →
  ∃ cc', connects (settle_connect q res w) !! p = Some cc' ∧
         (cc' = cc ∨ (q = p ∧ cc_state cc = Pending ∧ cc' = settled res cc)).
Proof.
  intros Hp. unfold settle_connect.
  destruct (connects w !! q) as [cq|] eqn:Hq; [|eauto].
  destruct (cc_state cq) eqn:Hst; eauto.
  autorewrite with fp. prims. destruct (decide (q = p)) as [->|Hne].
  - rewrite list_lookup_alter_eq, Hp. simpl. eexists; split; [done|].
    right. by simplify_eq.
  - rewrite list_lookup_alter_ne by done. eauto.
Qed.

Lemma settle_connect_rejects p e w cc :
  connects w !! p = Some cc →
  cc_state cc = Pending ∨ cc_state cc = RejectedWith e →
  connect_rejected p e (settle_connect p (Some e) w).
Proof.
  intros Hp Hst. unfold connect_rejected, settle_connect. rewrite Hp.
  destruct Hst as [-> | Hst]; [|rewrite Hst; eauto].
  autorewrite with fp. prims. rewrite list_lookup_alter_eq, Hp. simpl. eauto.
Qed.

Section ErrorEmission.
Context (now : Z) (c : nat) (e : JsError) (s : nat) (la : Z) (h : string) (p : nat).

Let line : string := ("SSH error [" +:+ h +:+ "]: " +:+ message e)%string.
Let run_handler (w : World) (l : Listener) : World := handle now c (EvError e) l w.

Lemma error_frame_handle l w :
  error_listener s l → error_frame s la h p e w →
  error_frame s la h p e (run_handler w l).
Proof.
  intros Hl [(this & Hs & Hla & Hh) (cc & Hp & Hst)]. unfold run_handler.
  destruct Hl as [-> | [q ->]]; simpl.
  - set (w0 := emit_effect _ w).
    destruct (lost_session now s w0 this Hs)
      as (this' & Hs' & _ & Hla' & Hcfg & _).
    destruct (lost_frame now s w0) as (_ & _ & _ & _ & Hcc & _).
    split.
    + exists this'. split; [done|]. split; congruence.
    + exists cc. by rewrite Hcc.
  - split.
    + exists this. by autorewrite with fp.
    + destruct (settle_connect_lookup p q (Some e) (cleanup q c w) cc Hp)
        as (cc' & Hp' & Hcase); exists cc'; split; [done|].
      destruct Hcase as [-> | (_ & _ & ->)]; [done|by right].
Qed.

Lemma loss_handled_handle l w :
  error_listener s l → error_frame s la h p e w →
  loss_handled now s line w → loss_handled now s line (run_handler w l).
Proof.
  intros Hl [(this & Hs & Hla & Hh) _] (Hlog & this1 & Hs1 & Hc & Ht).
  assert (this1 = this) as -> by congruence. unfold run_handler.
  destruct Hl as [-> | [q ->]]; simpl.
  - set (w0 := emit_effect _ w).
    destruct (lost_session now s w0 this Hs)
      as (this' & Hs' & Hc' & Hla' & _ & _ & Hlt & _).
    destruct (lost_frame now s w0) as (_ & _ & _ & _ & _ & _ & _ & He).
    split.
    + rewrite He. subst w0. prims. apply elem_of_cons; by right.
    + exists this'. split; [done|]. split; [done|]. rewrite Hla'. intros Hidle.
      destruct (Hlt Hidle) as [? ?]. eauto.
  - split.
    + by rewrite settle_connect_rejected_effects.
    + exists this. autorewrite with fp. by prims.
Qed.

Lemma loss_handled_establish w :
  error_frame s la h p e w →
  loss_handled now s line (run_handler w (OnLostError s)).
Proof.
  intros [(this & Hs & Hla & Hh) _]. unfold run_handler. simpl.
  set (w0 := emit_effect _ w).
  destruct (lost_session now s w0 this Hs)
    as (this' & Hs' & Hc' & Hla' & _ & _ & Hlt & _).
  destruct (lost_frame now s w0) as (_ & _ & _ & _ & _ & _ & _ & He).
  split.
  - rewrite He. subst w0. prims. unfold ssh_error_line. rewrite Hs, Hh.
    apply elem_of_cons; by left.
  - exists this'. split; [done|]. split; [done|]. rewrite Hla'. intros Hidle.
    destruct (Hlt Hidle) as [? ?]. eauto.
Qed.

Lemma connect_rejected_handle l w :
  error_listener s l →
  connect_rejected p e w → connect_rejected p e (run_handler w l).
Proof.
  intros Hl (cc & Hp & Hst). unfold run_handler, connect_rejected.
  destruct Hl as [-> | [q ->]]; simpl.
  - destruct (lost_frame now s (emit_effect (ELog (ssh_error_line w s e)) w))
      as (_ & _ & _ & _ & -> & _). eauto.
  - destruct (settle_connect_lookup p q (Some e) (cleanup q c w) cc Hp)
      as (cc' & Hp' & [-> | (_ & ? & _)]); [eauto|congruence].
Qed.

Lemma connect_rejected_establish w :
  error_frame s la h p e w →
  connect_rejected p e (run_handler w (OnceError p)).
Proof.
  intros [_ (cc & Hp & Hst)]. unfold run_handler. simpl.
  by apply (settle_connect_rejects p e (cleanup p c w) cc).
Qed.

(** All the handlers of one emission, in subscription order. *)
Lemma error_emission ls w :
  Forall (error_listener s) ls → error_frame s la h p e w →
  let w' := foldl run_handler w ls in
  error_frame s la h p e w' ∧
  (loss_handled now s line w ∨ OnLostError s ∈ ls → loss_handled now s line w') ∧
  (connect_rejected p e w ∨ OnceError p ∈ ls → connect_rejected p e w').
Proof.
  intros Hls. revert w. induction Hls as [|l ls Hl Hls IH]; intros w Hf; simpl.
  - split; [done|]. split; (intros [?|Hin]; [done|by apply elem_of_nil in Hin]).
  - destruct (IH (run_handler w l)) as (IH1 & IH2 & IH3);
      [by apply error_frame_handle|].
    split; [done|]. split.
    + intros [Hd | Hin]; apply IH2.
      * left. by apply loss_handled_handle.
      * apply elem_of_cons in Hin as [<- | Hin]; [|by right].
        left. by apply loss_handled_establish.
    + intros [Hd | Hin]; apply IH3.
      * left. by apply connect_rejected_handle.
      * apply elem_of_cons in Hin as [<- | Hin]; [|by right].
        left. by apply connect_rejected_establish.
Qed.
End ErrorEmission.

(** The listeners of the transport handle of session [s] that run for an
    ['error'] event. *)
Lemma error_listeners_of_handle w s this c cl e :
  Inv w → sessions w !! s = Some this → client this = Some c →
  clients w !! c = Some cl →
  Forall (error_listener s) (filter (λ l, listens (EvError e) l) (listeners cl)) ∧
  OnLostError s ∈ filter (λ l, listens (EvError e) l) (listeners cl).
Proof.
  intros I Hs Hc Hcl. destruct (Inv_handle _ I) as [Hsub Hown Huniq]. split.
  - apply Forall_forall. intros l [Hl Hin]%list_elem_of_filter.
    destruct l as [s'| | | |q]; try done; [|right; eauto].
    destruct (Hown c cl (OnLostError s') s' Hcl Hin eq_refl) as (this' & Hs' & Hc').
    left. f_equal. eauto.
  - destruct (Hsub s this c Hs Hc) as (cl' & Hcl' & Hin).
    apply list_elem_of_filter. split; [done|]. congruence.
Qed.




(** ** After [disconnect()] *)

(** A client stays detached whatever happens. *)
Lemma detached_extends c w w' : extends w w' → detached c w → detached c w'.
Proof.
  intros E (cl & Hcl & Hall).
  destruct (ext_clients _ _ E _ _ Hcl) as (cl' & Hcl' & Hsame).
  exists cl'. split; [done|]. apply Forall_forall. intros l Hl.
  destruct (lost_of l) as [s|] eqn:Hlost; [|done].
  assert (l ∈ listeners cl) as Hin by (apply Hsame; [done|congruence]).
  rewrite Forall_forall in Hall. apply Hall in Hin. congruence.
Qed.

(** The handlers of the [connect()] calls leave the timers alone. *)
Lemma handle_once_timers now c ev l w :
  lost_of l = None → timers (handle now c ev l w) = timers w.
Proof.
  intros Hl. destruct l; try done; unfold handle;
    repeat case_match; autorewrite with fp; by prims.
Qed.

Lemma emit_detached_timers now c ev w :
  detached c w → timers (emit now c ev w) = timers w.
Proof.
  intros (cl & Hcl & Hall). unfold emit. rewrite Hcl. cbn zeta.
  set (w1 := set_clients _ w). change (timers w) with (timers w1).
  assert (Forall (λ l, lost_of l = None)
            (filter (λ l, listens ev l) (listeners cl))) as Hls.
  { apply Forall_forall. intros l [_ Hl]%list_elem_of_filter.
    rewrite Forall_forall in Hall. auto. }
  generalize dependent w1. clear Hcl.
  induction Hls as [|l ls Hl Hls IH]; intros w1; simpl; [done|].
  by rewrite IH, handle_once_timers.
Qed.

Lemma disconnect_detached w s this c :
  Inv w → sessions w !! s = Some this → client this = Some c →
  detached c (disconnect s w).
Proof.
  intros I Hs Hc.
  destruct (handle_subscribed _ _ (Inv_handle _ I) s this c Hs Hc) as (cl & Hcl & _).
  exists {| listeners := [] |}. split; [|constructor].
  rewrite (disconnect_clients s w this Hs), Hc.
  by rewrite list_lookup_alter_eq, Hcl.
Qed.

(** C8: [disconnect()] cancels the pending reconnect timer, empties the
    subscriptions of the transport, ends it, marks the session disconnected
    and clears its handle; afterwards no reconnect timer of the session is
    pending; a second [disconnect()] changes nothing; and whatever happens
    later, an event emitted by the detached transport leaves every timer as
    it is. *)
Theorem disconnect_is_final w s this :
  reachable w → sessions w !! s = Some this →
  torn_down s this (disconnect s w) ∧
  (∀ t tm, timers (disconnect s w) !! t = Some tm →
           callback tm = TReconnect s → armed tm = false) ∧
  disconnect s (disconnect s w) = disconnect s w ∧
  ∀ c tr w2 now ev,
    client this = Some c → run tr (disconnect s w) = Some w2 →
    ∃ w3, step now (ClientEmits c ev) w2 = Some w3 ∧ timers w3 = timers w2.
Proof.
  intros Hr Hs.
  assert (reachable (disconnect s w)) as Hr1.
  { apply (reachable_step 0 (CallDisconnect s) w); [done|]. simpl. by rewrite Hs. }
  split; [by apply torn_down_disconnect|]. split; [|split].
  - intros t tm Ht Hcb. destruct (armed tm) eqn:Ha; [|done].
    destruct (Inv_timer _ (reachable_Inv _ Hr1) t tm s Ht Ha Hcb) as (this' & Hs' & Hrt).
    rewrite (disconnect_session s w this Hs) in Hs'. by simplify_eq.
  - apply disconnect_idempotent.
  - intros c tr w2 now ev Hc Hrun.
    pose proof (disconnect_detached w s this c (reachable_Inv _ Hr) Hs Hc) as Hd.
    apply (detached_extends c _ w2 (extends_run _ _ _ Hrun)) in Hd.
    exists (emit now c ev w2). split; [|by apply emit_detached_timers].
    destruct Hd as (cl & Hcl & _). simpl. by rewrite Hcl.
Qed.

(** A run of C8: a connected session is disconnected; later the old
    transport reports an error. *)
Lemma disconnect_is_final_witness :
  torn_down 0 Scenes.connected_session (disconnect 0 Scenes.connected) ∧
  disconnect 0 (disconnect 0 Scenes.connected) = disconnect 0 Scenes.connected ∧
  ∃ w3, step 30 (ClientEmits 0 (EvError Examples.refused))
          (disconnect 0 Scenes.connected) = Some w3 ∧
        timers w3 = timers (disconnect 0 Scenes.connected).
Proof.
  destruct (disconnect_is_final Scenes.connected 0 Scenes.connected_session)
    as (H1 & _ & H3 & H4).
  - exists None, [(0%Z, CallGet "a" Examples.with_password);
                  (10%Z, ClientEmits 0 EvReady)].
    vm_compute. reflexivity.
  - vm_compute. reflexivity.
  - split; [exact H1|]. split; [exact H3|].
    apply (H4 0 [] _ 30%Z (EvError Examples.refused)); reflexivity.
Defined.

(** ** One command channel from its delivery to its end *)

Lemma append_assoc (a b c : string) :
  ((a +:+ b) +:+ c = a +:+ (b +:+ c))%string.
Proof.
  induction a as [|ch a IH]; [done|].
  change (String ch ((a +:+ b) +:+ c) = String ch (a +:+ (b +:+ c)))%string.
  by rewrite IH.
Qed.

Lemma append_nil_r (a : string) : (a +:+ "" = a)%string.
Proof.
  induction a as [|ch a IH]; [done|].
  change (String ch (a +:+ "") = String ch a)%string. by rewrite IH.
Qed.

(** *** What leaves a channel and its call alone *)

Section Calm.
Context (st : nat) (x : Stream) (i : nat) (ex : ExecCall).

Local Abbreviation K := (channel_state st x i ex).

Ltac kc :=
  try match goal with H : K _ |- _ => destruct H as [? ?] end;
  unfold channel_state; prims; autorewrite with fp; prims;
  try (split; [assumption|]);
  first [assumption | apply snoc_lookup_fwd; assumption | idtac].

Lemma Kc_exec_open r s cmd w : K w → K (exec_open r s cmd w).
Proof. intros I. unfold exec_open. repeat case_match; kc. Qed.

Lemma Kc_resume s k res w : K w → K (resume s k res w).
Proof. intros I. unfold resume. repeat case_match; try apply Kc_exec_open; kc. Qed.

Lemma Kc_settle_connect p res w : K w → K (settle_connect p res w).
Proof.
  intros I. unfold settle_connect. repeat case_match; try done.
  apply Kc_resume. kc.
Qed.

Lemma Kc_scheduleReconnect now s w : K w → K (scheduleReconnect now s w).
Proof. intros I. unfold scheduleReconnect. repeat case_match; kc. Qed.

Lemma Kc_lost now s w : K w → K (lost now s w).
Proof. intros I. unfold lost. apply Kc_scheduleReconnect. kc. Qed.

Lemma Kc_connect s k w : K w → K (connect s k w).
Proof.
  intros I. unfold connect, connect_open. cbn zeta.
  repeat case_match; try apply Kc_settle_connect; kc.
Qed.

Lemma Kc_disconnect s w : K w → K (disconnect s w).
Proof. intros I. unfold disconnect. repeat case_match; kc. Qed.

Lemma Kc_exec now s cmd w : K w → K (exec now s cmd w).
Proof.
  intros I. unfold exec. cbn zeta.
  repeat case_match; try apply Kc_connect; try apply Kc_exec_open; kc.
Qed.

Lemma Kc_handle now c ev l w : K w → K (handle now c ev l w).
Proof.
  intros I. unfold handle.
  repeat case_match; try apply Kc_lost; try apply Kc_settle_connect; kc.
Qed.

Lemma Kc_emit now c ev w : K w → K (emit now c ev w).
Proof.
  intros I. unfold emit. case_match; [|done]. cbn zeta.
  match goal with |- context [foldl _ ?w0 ?ls] =>
    assert (K w0) as I0 by kc; generalize dependent w0; generalize ls end.
  intros ls. induction ls as [|l ls IH]; intros w0 I0; simpl; [done|].
  apply IH. by apply Kc_handle.
Qed.

Lemma Kc_get now id cfg w : K w → K (get now id cfg w).
Proof.
  intros I. unfold get. cbn zeta. repeat case_match; try apply Kc_connect; kc.
Qed.

Lemma Kc_close id w : K w → K (close id w).
Proof.
  intros I. unfold close. cbn zeta. repeat case_match; kc.
  all: match goal with |- context [disconnect ?s ?w0] =>
         assert (K (disconnect s w0)) as [? ?] by (apply Kc_disconnect; kc) end.
  all: done.
Qed.

Lemma Kc_closeAll w : K w → K (closeAll w).
Proof.
  intros I. unfold closeAll.
  assert (∀ l w0, K w0 → K (foldl (λ w c, disconnect c w) w0 l)) as Hl.
  { intros l. induction l as [|s l IH]; intros w0 I0; simpl; [done|].
    apply IH. by apply Kc_disconnect. }
  specialize (Hl (map snd (connections w)) w I).
  generalize dependent (foldl (λ w c, disconnect c w) w (map snd (connections w))).
  intros w0 I0. kc.
Qed.

Lemma Kc_connect_open p c cfg w : K w → K (connect_open p c cfg w).
Proof. intros I. unfold connect_open. kc. Qed.

Lemma Kc_clearTimeout t w : K w → K (clearTimeout t w).
Proof. intros I. kc. Qed.

Lemma Kc_reads g w : K w → K (set_reads g w).
Proof. intros I. kc. Qed.

Lemma Kc_new_call w : K w → K (new_call w).
Proof. intros I. kc. Qed.

Lemma Kc_update_session s f w : K w → K (update_session s f w).
Proof. intros I. kc. Qed.

(** Another call settles. *)
Lemma Kc_settle_exec j o w : j ≠ i → K w → K (settle_exec j o w).
Proof.
  intros Hj I. unfold settle_exec. repeat case_match; kc.
  by rewrite list_lookup_alter_ne.
Qed.
End Calm.

(** *** One step and one run of an open channel *)

Section Channel.
Context (st t i : nat) (ex : ExecCall).
Hypothesis Hcalled : ex_called ex = true.

Let chan (o e : string) : Stream :=
  {| st_exec := i; st_timer := t; out := o; errOut := e; st_closed := false |}.

Lemma channel_step now ev w w' o e :
  Ic w → step now ev w = Some w' → ends_channel st t ev = false →
  channel_state st (chan o e) i ex w →
  channel_state st (chan (o +:+ stdout_of_event st ev) (e +:+ stderr_of_event st ev))
    i ex w'.
Proof using Hcalled.
  intros I H Hev K. pose proof K as [Kx Ke].
  destruct ev; step_inv H; simpl; rewrite ?append_nil_r.
  - by apply Kc_get.
  - by apply Kc_close.
  - by apply Kc_closeAll.
  - by apply Kc_connect, Kc_new_call.
  - by apply Kc_exec.
  - by apply Kc_disconnect.
  - by apply Kc_emit.
  - destruct res; [apply Kc_settle_connect|apply Kc_connect_open]; by apply Kc_reads.
  - assert (i0 ≠ i) as Hne by (intros ->; congruence).
    assert (channel_state st (chan o e) i ex
              (set_execs (alter mark_called i0 (execs w)) w)) as K1.
    { split; prims; [done|]. by rewrite list_lookup_alter_ne. }
    destruct err; [by apply Kc_settle_exec|].
    destruct K1 as [K1 K2]. split; prims; [by apply snoc_lookup_fwd|done].
  - unfold stream_data. split; prims; [|done].
    destruct (Nat.eqb_spec st0 st) as [->|Hne].
    + by rewrite list_lookup_alter_eq, Kx.
    + by rewrite list_lookup_alter_ne, append_nil_r.
  - unfold stream_stderr. split; prims; [|done].
    destruct (Nat.eqb_spec st0 st) as [->|Hne].
    + by rewrite list_lookup_alter_eq, Kx.
    + by rewrite list_lookup_alter_ne, append_nil_r.
  - simpl in Hev. apply Nat.eqb_neq in Hev.
    unfold stream_close. destruct (streams w !! st0) as [x0|] eqn:Hx0; [|done].
    cbn zeta.
    assert (st_exec x0 ≠ i) as Hne.
    { intros Heq. apply Hev. eapply (chan_unique _ _ _ I); eauto. }
    apply Kc_settle_exec; [done|].
    assert (channel_state st (chan o e) i ex
              (clearTimeout (st_timer x0)
                 (set_streams (alter mark_closed st0 (streams w)) w))) as K1.
    { split; prims; [|done]. by rewrite list_lookup_alter_ne. }
    destruct (exec_session _ _); [by apply Kc_update_session|done].
  - simpl in Hev. apply Nat.eqb_neq in Hev.
    destruct (callback t1) as [s|st0] eqn:Hcb; simpl.
    + by apply Kc_connect, Kc_clearTimeout.
    + prims. destruct (streams w !! st0) as [x0|] eqn:Hx0;
        [|by apply Kc_clearTimeout].
      destruct (execs w !! st_exec x0) as [e0|] eqn:He0;
        [|by apply Kc_clearTimeout].
      assert (st_exec x0 ≠ i) as Hne.
      { intros Heq. apply Hev.
        assert (st0 = st) as -> by (eapply (chan_unique _ _ _ I); eauto).
        destruct (chan_timer _ _ _ I _ _ _ E Hcb) as (x1 & Hx1 & <-).
        rewrite Kx in Hx1. by injection Hx1 as <-. }
      apply Kc_settle_exec; [done|]. split; prims; [done|done].
Qed.

Lemma channel_run tr w w' o e :
  Ic w → run tr w = Some w' → channel_open st t tr →
  channel_state st (chan o e) i ex w →
  channel_state st (chan (o +:+ stdout_of st tr) (e +:+ stderr_of st tr)) i ex w'.
Proof using Hcalled.
  revert w o e. induction tr as [|[now ev] tr IH]; intros w o e I H Ho K; simpl in *.
  - injection H as <-. by rewrite !append_nil_r.
  - destruct (step now ev w) as [w1|] eqn:Hs; simpl in H; [|done].
    apply Forall_cons in Ho as [Hev Ho]. simpl in Hev.
    rewrite <- !append_assoc. apply (IH w1); [by eapply Ic_step|done..|].
    by eapply channel_step.
Qed.
End Channel.

(** The callback of [client.exec] delivers the channel. *)
Lemma channel_delivered now i ex w w1 :
  Ic w → execs w !! i = Some ex → step now (ExecCallback i None) w = Some w1 →
  ex_called ex = false ∧ ex_settled ex = false ∧
  channel_state (length (streams w))
    {| st_exec := i; st_timer := length (timers w); out := ""; errOut := "";
       st_closed := false |} i (mark_called ex) w1 ∧
  timers w1 !! length (timers w) =
    Some {| callback := TExecTimeout (length (streams w)); delay := ex_timeout ex;
            armed := true |}.
Proof.
  intros I Hi H. simpl in H. unfold exec_callback in H. rewrite Hi in H. simpl in H.
  destruct (ex_called ex) eqn:Hc; [done|]. injection H as <-.
  split; [done|]. split; [by eapply chan_fresh|]. split; [split|]; prims.
  - apply snoc_lookup_new.
  - by rewrite list_lookup_alter_eq, Hi.
  - apply snoc_lookup_new.
Qed.

(** ** The pool's map *)

Lemma map_get_None id m : map_get id m = None ↔ id ∉ m.*1.
Proof.
  induction m as [|[k v] m IH]; simpl.
  - split; [intros _ H; by apply elem_of_nil in H|done].
  - rewrite not_elem_of_cons. destruct (String.eqb_spec k id) as [->|Hne].
    + split; [done|]. by intros [? _].
    + rewrite IH. split; [by split|by intros [_ ?]].
Qed.

Lemma map_get_elem id s m : map_get id m = Some s → (id, s) ∈ m.
Proof.
  induction m as [|[k v] m IH]; simpl; [done|].
  destruct (String.eqb_spec k id) as [->|Hne].
  - intros [= ->]. apply elem_of_cons. by left.
  - intros H. apply elem_of_cons. right. auto.
Qed.

Lemma map_set_fresh id s m : map_get id m = None → map_set id s m = m ++ [(id, s)].
Proof.
  induction m as [|[k v] m IH]; simpl; [done|].
  destruct (String.eqb k id); [done|]. intros H. by rewrite IH.
Qed.

Lemma map_delete_elem kv id m : kv ∈ map_delete id m → kv ∈ m.
Proof.
  induction m as [|[k v] m IH]; simpl; [done|].
  destruct (String.eqb k id); rewrite !elem_of_cons; [auto|].
  intros [?|?]; auto.
Qed.

Lemma map_delete_NoDup {A} (f : string * nat → A) id m :
  NoDup (f <$> m) → NoDup (f <$> map_delete id m).
Proof.
  induction m as [|[k v] m IH]; simpl; [done|]. intros [Hk Hm]%NoDup_cons.
  destruct (String.eqb k id); [done|]. simpl. apply NoDup_cons. split; [|auto].
  intros Hin. apply Hk. apply list_elem_of_fmap in Hin as (kv & -> & Hin).
  apply list_elem_of_fmap. exists kv. split; [done|]. by eapply map_delete_elem.
Qed.

Lemma map_get_delete_eq id m : NoDup m.*1 → map_get id (map_delete id m) = None.
Proof.
  induction m as [|[k v] m IH]; simpl; [done|]. intros [Hk Hm]%NoDup_cons.
  destruct (String.eqb_spec k id) as [->|Hne].
  - by apply map_get_None.
  - simpl. destruct (String.eqb_spec k id); [done|]. auto.
Qed.

Lemma pool_nil n : inv_pool [] n.
Proof. split; [constructor|]. split; constructor. Qed.

Lemma pool_grow m n n' : n ≤ n' → inv_pool m n → inv_pool m n'.
Proof.
  intros Hn (H1 & H2 & H3). split; [done|]. split; [done|].
  eapply Forall_impl; [done|]. simpl. intros. lia.
Qed.

Lemma pool_set id m n :
  map_get id m = None → inv_pool m n → inv_pool (map_set id n m) (S n).
Proof.
  intros Hid (H1 & H2 & H3). rewrite (map_set_fresh _ _ _ Hid).
  rewrite Forall_forall in H3.
  split; [|split].
  - rewrite fmap_app. simpl. apply NoDup_app. split; [done|].
    split; [|apply NoDup_singleton].
    intros k Hk [->|[]%elem_of_nil]%elem_of_cons. by apply map_get_None in Hid.
  - rewrite fmap_app. simpl. apply NoDup_app. split; [done|].
    split; [|apply NoDup_singleton].
    intros v Hv [->|[]%elem_of_nil]%elem_of_cons.
    apply list_elem_of_fmap in Hv as ([k v] & -> & Hin). apply H3 in Hin.
    simpl in Hin. lia.
  - apply Forall_app. split.
    + apply Forall_forall. intros kv Hin. apply H3 in Hin. lia.
    + apply Forall_singleton. simpl. lia.
Qed.

Lemma pool_delete id m n : inv_pool m n → inv_pool (map_delete id m) n.
Proof.
  intros (H1 & H2 & H3). split; [|split]; try by apply map_delete_NoDup.
  rewrite Forall_forall in *. intros kv Hin. eauto using map_delete_elem.
Qed.

(** How each event changes the map. *)
Lemma step_connections now ev w w' :
  step now ev w = Some w' →
  connections w' =
    match ev with
    | CallGet id _ =>
        match map_get id (connections w) with
        | Some _ => connections w
        | None => map_set id (length (sessions w)) (connections w)
        end
    | CallClose id => map_delete id (connections w)
    | CallCloseAll => []
    | _ => connections w
    end.
Proof.
  intros H. destruct ev; step_inv H; try done.
  - destruct (map_get id (connections w)) as [s0|] eqn:E.
    + rewrite (get_mapped _ _ _ _ _ E).
      repeat case_match; rewrite ?connect_connections; autorewrite with fp; done.
    + by rewrite (get_unmapped _ _ _ _ E), connect_connections.
  - unfold close. cbn zeta. autorewrite with fp. prims.
    destruct (map_get id (connections w)) eqn:E; [done|].
    apply map_get_None in E. prims. revert E. generalize (connections w).
    intros m E. induction m as [|[k v] m IH]; simpl; [done|].
    simpl in E. apply not_elem_of_cons in E as [E1 E2].
    destruct (String.eqb_spec k id); [congruence|]. by rewrite <- IH.
  - by rewrite connect_connections.
  - by rewrite exec_connections.
  - by rewrite disconnect_connections.
  - by rewrite emit_connections.
  - destruct res; unfold connect_open; autorewrite with fp; done.
  - destruct err; autorewrite with fp; done.
  - by rewrite stream_close_connections.
  - by rewrite run_timer_connections.
Qed.

Lemma get_unmapped_length now id cfg w :
  map_get id (connections w) = None →
  S (length (sessions w)) ≤ length (sessions (get now id cfg w)).
Proof.
  intros E. rewrite (get_unmapped _ _ _ _ E).
  match goal with |- context [connect ?s ?k ?w0] =>
    pose proof (heap_le_length _ _ _ (ext_sessions _ _ (extends_connect s k w0))) as Hl
  end.
  revert Hl. prims. rewrite length_app. simpl. lia.
Qed.

Lemma Ip_step now ev w w' : step now ev w = Some w' → Ip w → Ip w'.
Proof.
  intros H I. pose proof (step_connections _ _ _ _ H) as Hc.
  pose proof (heap_le_length _ _ _ (ext_sessions _ _ (extends_step _ _ _ _ H))) as Hl.
  rewrite Hc. destruct ev; try (by eapply pool_grow); simpl in H.
  - destruct (map_get id (connections w)) eqn:E; [by eapply pool_grow|].
    injection H as <-. eapply pool_grow; [by apply get_unmapped_length|].
    by apply pool_set.
  - eapply pool_grow; [done|]. by apply pool_delete.
  - apply pool_nil.
Qed.

Lemma reachable_Ip w : reachable w → Ip w.
Proof.
  intros (timeout & tr & H). assert (Ip (init timeout)) as I0 by apply pool_nil.
  revert H I0. generalize (init timeout). induction tr as [|[now ev] tr IH];
    intros w0; simpl.
  - by intros [= ->].
  - destruct (step now ev w0) as [w1|] eqn:Hs; simpl; [|done].
    eauto using Ip_step.
Qed.

(** ** [close(id)] *)

Lemma close_unmapped id w :
  map_get id (connections w) = None →
  close id w = settle (length (outcomes w)) ResolvedVoid (new_call w).
Proof. intros H. unfold close. cbn zeta. prims. by rewrite H. Qed.

Lemma close_mapped id s w :
  map_get id (connections w) = Some s →
  close id w =
    settle (length (outcomes w)) ResolvedVoid
      (set_connections (map_delete id (connections w)) (disconnect s (new_call w))).
Proof. intros H. unfold close. cbn zeta. prims. by rewrite H. Qed.

Lemma disconnect_new_call s w :
  let w' := disconnect s (new_call w) in
  sessions w' = sessions (disconnect s w) ∧ clients w' = clients (disconnect s w) ∧
  timers w' = timers (disconnect s w) ∧ effects w' = effects (disconnect s w) ∧
  outcomes w' = outcomes w ++ [None].
Proof. unfold disconnect. prims. repeat case_match; prims; auto. Qed.

(** X1: [close(id)] for an id the pool does not hold only completes the
    call: no session, client, timer or map entry changes and no call is made
    on a collaborator. *)
Theorem close_unknown_id_changes_nothing w id :
  map_get id (connections w) = None →
  outcome (length (outcomes w)) (close id w) = Some ResolvedVoid ∧
  sessions (close id w) = sessions w ∧ clients (close id w) = clients w ∧
  timers (close id w) = timers w ∧ connections (close id w) = connections w ∧
  effects (close id w) = effects w.
Proof.
  intros H. rewrite (close_unmapped _ _ H). split.
  - apply outcome_settle_pending, outcome_new_call.
  - by autorewrite with fp.
Qed.

Lemma close_unknown_id_changes_nothing_witness :
  outcome 1 (close "zeta" Scenes.connected) = Some ResolvedVoid ∧
  sessions (close "zeta" Scenes.connected) = sessions Scenes.connected ∧
  effects (close "zeta" Scenes.connected) = effects Scenes.connected.
Proof.
  destruct (close_unknown_id_changes_nothing Scenes.connected "zeta")
    as (H1 & H2 & _ & _ & _ & H6).
  - vm_compute. reflexivity.
  - split; [exact H1|]. split; [exact H2|exact H6].
Defined.

(** X2: [close(id)] for a mapped id disconnects the session and removes
    the entry, leaving the other ids alone; the call completes; and the next
    [get] of the id builds a new session from the descriptor it is given. *)
Theorem close_disconnects_and_forgets w id s this :
  reachable w → map_get id (connections w) = Some s → sessions w !! s = Some this →
  torn_down s this (close id w) ∧
  map_get id (connections (close id w)) = None ∧
  (∀ id', id' ≠ id →
     map_get id' (connections (close id w)) = map_get id' (connections w)) ∧
  outcome (length (outcomes w)) (close id w) = Some ResolvedVoid ∧
  ∀ now d, ∃ new,
    s ≠ length (sessions w) ∧
    sessions (get now id d (close id w)) !! length (sessions w) = Some new ∧
    config new = d ∧
    map_get id (connections (get now id d (close id w))) = Some (length (sessions w)).
Proof.
  intros Hr Hm Hs. destruct (reachable_Ip _ Hr) as (Hk & _ & _).
  rewrite (close_mapped _ _ _ Hm).
  destruct (disconnect_new_call s w) as (E1 & E2 & E3 & E4 & E5).
  destruct (torn_down_disconnect s this w Hs) as (T1 & T2 & T3).
  assert (length (sessions (disconnect s w)) = length (sessions w)) as Hlen.
  { unfold disconnect. rewrite Hs. repeat case_match; prims;
      rewrite ?length_alter; done. }
  split; [|split; [|split; [|split]]].
  - split; [|split]; autorewrite with fp; prims; rewrite ?E1, ?E2, ?E3, ?E4; done.
  - autorewrite with fp. prims. by apply map_get_delete_eq.
  - intros id' Hne. autorewrite with fp. prims. by apply map_get_delete_ne.
  - apply outcome_settle_pending. prims. rewrite E5. apply snoc_lookup_new.
  - intros now d.
    match goal with |- context [get now id d ?w0] => set (w1 := w0) end.
    assert (map_get id (connections w1) = None) as Hn.
    { subst w1. autorewrite with fp. prims. by apply map_get_delete_eq. }
    assert (length (sessions w1) = length (sessions w)) as Hl1.
    { subst w1. autorewrite with fp. prims. by rewrite E1. }
    destruct (get_unmapped_creates w1 now id d Hn) as (new & Hnew & Hcfg).
    exists new. rewrite <- Hl1. split; [|split; [done|split; [done|]]].
    + apply lookup_lt_Some in Hs. lia.
    + rewrite (get_unmapped _ _ _ _ Hn), connect_connections. prims.
      apply map_get_set_eq.
Qed.

Lemma close_disconnects_and_forgets_witness :
  torn_down 0 Scenes.connected_session (close "a" Scenes.connected) ∧
  map_get "a" (connections (close "a" Scenes.connected)) = None.
Proof.
  destruct (close_disconnects_and_forgets Scenes.connected "a" 0
              Scenes.connected_session) as (H1 & H2 & _).
  - exists None, [(0%Z, CallGet "a" Examples.with_password);
                  (10%Z, ClientEmits 0 EvReady)].
    vm_compute. reflexivity.
  - vm_compute. reflexivity.
  - vm_compute. reflexivity.
  - split; [exact H1|exact H2].
Defined.

(** ** The pool *)

Lemma snd_inj_of_NoDup (m : list (string * nat)) k k' v :
  NoDup m.*2 → (k, v) ∈ m → (k', v) ∈ m → k = k'.
Proof.
  induction m as [|[k0 v0] m IH]; simpl; [by intros _ ?%elem_of_nil|].
  intros [Hv Hm]%NoDup_cons H1 H2. apply elem_of_cons in H1, H2.
  destruct H1 as [E1|H1], H2 as [E2|H2].
  - congruence.
  - injection E1 as -> ->. destruct Hv. apply list_elem_of_fmap. by exists (k', v0).
  - injection E2 as -> ->. destruct Hv. apply list_elem_of_fmap. by exists (k, v0).
  - auto.
Qed.

(** X3: the pool never maps two ids to the same session, and a mapped
    session exists. *)
Theorem pool_sessions_are_not_shared w id id' s :
  reachable w →
  map_get id (connections w) = Some s → map_get id' (connections w) = Some s →
  id = id' ∧ is_Some (sessions w !! s).
Proof.
  intros Hr H1 H2. destruct (reachable_Ip _ Hr) as (_ & Hv & Hb).
  apply map_get_elem in H1, H2. split; [by eapply snd_inj_of_NoDup|].
  rewrite Forall_forall in Hb. apply Hb in H1. by apply lookup_lt_is_Some_2.
Qed.

Lemma pool_sessions_are_not_shared_witness :
  ("a" = "a")%string ∧ is_Some (sessions Scenes.connected !! 0).
Proof.
  apply (pool_sessions_are_not_shared Scenes.connected "a" "a" 0).
  - exists None, [(0%Z, CallGet "a" Examples.with_password);
                  (10%Z, ClientEmits 0 EvReady)].
    vm_compute. reflexivity.
  - vm_compute. reflexivity.
  - vm_compute. reflexivity.
Defined.

(** ** Timers *)

(** X4: a session never has two pending reconnect timers. *)
Theorem one_pending_reconnect_timer w s t t' tm tm' :
  reachable w →
  timers w !! t = Some tm → armed tm = true → callback tm = TReconnect s →
  timers w !! t' = Some tm' → armed tm' = true → callback tm' = TReconnect s →
  t = t'.
Proof.
  intros Hr Ht Ha Hc Ht' Ha' Hc'. pose proof (Inv_timer _ (reachable_Inv _ Hr)) as I.
  destruct (I t tm s Ht Ha Hc) as (this & Hs & Hrt).
  destruct (I t' tm' s Ht' Ha' Hc') as (this' & Hs' & Hrt'). congruence.
Qed.

Lemma one_pending_reconnect_timer_witness :
  timers Scenes2.lost_transport !! 0 = Some (reconnect_timer 0) ∧ 0 = 0.
Proof.
  split; [vm_compute; reflexivity|].
  apply (one_pending_reconnect_timer Scenes2.lost_transport 0 0 0
           (reconnect_timer 0) (reconnect_timer 0)).
  - exists None, [(0%Z, CallGet "a" Examples.with_password);
                  (10%Z, ClientEmits 0 EvReady); (20%Z, ClientEmits 0 EvEnd)].
    vm_compute. reflexivity.
  - vm_compute. reflexivity.
  - reflexivity.
  - reflexivity.
  - vm_compute. reflexivity.
  - reflexivity.
  - reflexivity.
Defined.

(** X5: every session the pool builds and every [exec] call carries the
    command timeout the pool was constructed with, 60000 ms when the
    argument was omitted. *)
Theorem command_timeout_is_the_pools timeout tr w :
  run tr (init timeout) = Some w →
  poolTimeout w = default default_commandTimeout timeout ∧
  (∀ s this, sessions w !! s = Some this →
     commandTimeout this = default default_commandTimeout timeout) ∧
  (∀ i ex, execs w !! i = Some ex →
     ex_timeout ex = default default_commandTimeout timeout).
Proof. intros H. destruct (run_init_Im _ _ _ H) as [H1 H2 H3]. auto. Qed.

Lemma command_timeout_is_the_pools_witness :
  poolTimeout Scenes3.exec_requested = 60000%Z ∧
  ∀ i ex, execs Scenes3.exec_requested !! i = Some ex → ex_timeout ex = 60000%Z.
Proof.
  destruct (command_timeout_is_the_pools None
              [(0%Z, CallGet "a" Examples.with_password);
               (10%Z, ClientEmits 0 EvReady); (12%Z, CallExec 0 "ls")]
              Scenes3.exec_requested) as (H1 & _ & H3).
  - vm_compute. reflexivity.
  - split; [exact H1|exact H3].
Defined.

(** ** [exec] *)

Lemma live_exec_elem ccs es i ex :
  es !! i = Some ex → ex_settled ex = false → ex_call ex ∈ live ccs es.
Proof.
  intros Hi Hs. unfold live. apply elem_of_app. right.
  apply list_elem_of_omap. exists ex. split; [by eapply list_elem_of_lookup_2|].
  unfold live_exec. by rewrite Hs.
Qed.

(** X6: when [client.exec] calls back with an error, the [exec] call is
    rejected with that error; no timer is started and no channel exists. *)
Theorem exec_rejects_when_channel_is_refused w now i ex e :
  reachable w → execs w !! i = Some ex → ex_called ex = false →
  ∃ w', step now (ExecCallback i (Some e)) w = Some w' ∧
        outcome (ex_call ex) w' = Some (Rejected e) ∧
        timers w' = timers w ∧ streams w' = streams w.
Proof.
  intros Hr Hi Hc.
  pose proof (chan_fresh _ _ _ (reachable_Ic _ Hr) i ex Hi Hc) as Hs.
  destruct (Inv_live _ (reachable_Inv _ Hr)) as [_ Hlive].
  pose proof (Hlive _ (live_exec_elem (connects w) _ _ _ Hi Hs)) as Ho.
  eexists. split; [simpl; unfold exec_callback; rewrite Hi; simpl; rewrite Hc; reflexivity|].
  unfold settle_exec. prims. rewrite list_lookup_alter_eq, Hi. simpl. rewrite Hs.
  split; [|by autorewrite with fp].
  by apply outcome_settle_pending.
Qed.

Lemma exec_rejects_when_channel_is_refused_witness :
  ∃ w', step 13 (ExecCallback 0 (Some Examples.refused)) Scenes3.exec_requested
          = Some w' ∧
        outcome 1 w' = Some (Rejected Examples.refused) ∧ timers w' = [].
Proof.
  destruct (exec_rejects_when_channel_is_refused Scenes3.exec_requested 13 0
              {| ex_session := 0; ex_call := 1; ex_timeout := 60000;
                 ex_called := false; ex_settled := false |} Examples.refused)
    as (w' & H1 & H2 & H3 & _).
  - exists None, [(0%Z, CallGet "a" Examples.with_password);
                  (10%Z, ClientEmits 0 EvReady); (12%Z, CallExec 0 "ls")].
    vm_compute. reflexivity.
  - vm_compute. reflexivity.
  - reflexivity.
  - exists w'. split; [exact H1|]. split; [exact H2|]. rewrite H3.
    vm_compute. reflexivity.
Defined.

(** ** [connect()] on a connected session *)

(** X7: [connect()] on a session that is connected returns at once: the
    call is fulfilled, and no session, client or timer changes and no call
    is made on a collaborator. *)
Theorem connect_when_connected_is_immediate w now s this :
  sessions w !! s = Some this → isConnected this = true →
  ∃ w', step now (CallConnect s) w = Some w' ∧
        outcome (length (outcomes w)) w' = Some ResolvedVoid ∧
        sessions w' = sessions w ∧ clients w' = clients w ∧
        timers w' = timers w ∧ effects w' = effects w.
Proof.
  intros Hs Hc. eexists. split; [simpl; rewrite Hs; reflexivity|].
  unfold connect. cbn zeta. prims. rewrite Hs, Hc.
  unfold settle_connect. prims. rewrite snoc_lookup_new. simpl.
  split; [|by autorewrite with fp].
  apply outcome_settle_pending. prims. apply snoc_lookup_new.
Qed.

Lemma connect_when_connected_is_immediate_witness :
  ∃ w', step 11 (CallConnect 0) Scenes.connected = Some w' ∧
        outcome 1 w' = Some ResolvedVoid ∧ effects w' = effects Scenes.connected.
Proof.
  destruct (connect_when_connected_is_immediate Scenes.connected 11 0
              Scenes.connected_session) as (w' & H1 & H2 & _ & _ & _ & H6).
  - vm_compute. reflexivity.
  - reflexivity.
  - exists w'. split; [exact H1|]. split; [exact H2|exact H6].
Defined.

(** ** The result of [exec] *)

(** The state of a channel that was delivered and has neither closed nor
    timed out since. *)
Lemma channel_after_run w t0 i ex w1 tr w2 :
  reachable w → execs w !! i = Some ex →
  step t0 (ExecCallback i None) w = Some w1 → run tr w1 = Some w2 →
  channel_open (length (streams w)) (length (timers w)) tr →
  reachable w2 ∧
  channel_state (length (streams w))
    {| st_exec := i; st_timer := length (timers w);
       out := stdout_of (length (streams w)) tr;
       errOut := stderr_of (length (streams w)) tr; st_closed := false |}
    i (mark_called ex) w2 ∧
  outcomes w2 !! ex_call ex = Some None ∧
  ∃ tm, timers w2 !! length (timers w) = Some tm ∧
        callback tm = TExecTimeout (length (streams w)).
Proof.
  intros Hr Hi H1 Hrun Ho. pose proof (reachable_Ic _ Hr) as I.
  destruct (channel_delivered _ _ _ _ _ I Hi H1) as (Hc & Hs & K1 & Ht1).
  assert (reachable w2) as Hr2.
  { eapply reachable_run; [|done]. by eapply reachable_step. }
  pose proof (channel_run _ _ i (mark_called ex) eq_refl tr w1 w2 "" ""
                (Ic_step _ _ _ _ H1 I) Hrun Ho K1) as K2.
  split; [done|]. split; [exact K2|]. split.
  - destruct (Inv_live _ (reachable_Inv _ Hr2)) as [_ Hlive].
    destruct K2 as [_ Ke].
    apply (Hlive _ (live_exec_elem (connects w2) _ _ _ Ke Hs)).
  - destruct (ext_timers _ _ (extends_run _ _ _ Hrun) _ _ Ht1) as (tm & Htm & Hcb & _).
    eauto.
Qed.





(** ** Sessions stay connected while nothing fails *)

Section Up.
Context (S : nat → Prop) (p0 : nat).
Implicit Types (ss : list SSHConnection) (ccs : list ConnectCall).

Lemma connected_alter f s s' ss :
  (∀ x, isConnected x = true → isConnected (f x) = true) →
  connected s' ss → connected s' (alter f s ss).
Proof.
  intros Hf (this & Hs & Hc).
  destruct (alter_lookup_fwd f _ s _ _ Hs) as (y & Hy & [[_ Hx]|[_ Hx]]);
    exists y; subst y; auto.
Qed.

Lemma connected_snoc x s ss : connected s ss → connected s (ss ++ [x]).
Proof. intros (this & Hs & Hc). exists this. split; [by apply snoc_lookup_fwd|done]. Qed.

Lemma up_sessions_alter f s ss ccs :
  (∀ x, isConnected x = true → isConnected (f x) = true) →
  inv_up S p0 ss ccs → inv_up S p0 (alter f s ss) ccs.
Proof.
  intros Hf [I1 I2]. split.
  - intros s' Hs'. by apply connected_alter, I1.
  - intros q cc Hq Hcc Hst. apply connected_alter; eauto.
Qed.

Lemma up_sessions_snoc x ss ccs :
  inv_up S p0 ss ccs → inv_up S p0 (ss ++ [x]) ccs.
Proof.
  intros [I1 I2]. split.
  - intros s' Hs'. by apply connected_snoc, I1.
  - intros q cc Hq Hcc Hst. apply connected_snoc; eauto.
Qed.

Lemma up_connects_snoc cc ss ccs :
  cc_state cc = Pending → inv_up S p0 ss ccs → inv_up S p0 ss (ccs ++ [cc]).
Proof.
  intros Hp [I1 I2]. split; [done|]. intros q cc' Hq Hcc Hst.
  apply snoc_lookup_inv in Hcc as [Hcc|[_ ->]]; [eauto|congruence].
Qed.

Lemma up_connects_settle q res ss ccs :
  (∀ cc, res = None → ccs !! q = Some cc → connected (cc_session cc) ss) →
  inv_up S p0 ss ccs → inv_up S p0 ss (alter (settled res) q ccs).
Proof.
  intros Hres [I1 I2]. split; [done|]. intros q' cc' Hq Hcc Hst.
  apply alter_lookup_inv in Hcc as (cc & Hcc & [[_ ->]|[<- ->]]); [eauto|].
  simpl in *. destruct res; [done|]. eauto.
Qed.
End Up.

Ltac up_side := solve [ intros []; cbn; auto | reflexivity | auto ].

Ltac up_step :=
  first
    [ eassumption
    | apply up_sessions_alter; [up_side|]
    | apply up_sessions_snoc
    | apply up_connects_snoc; [reflexivity|] ].

Ltac up := prims; autorewrite with fp; prims; repeat up_step.

Lemma Iu_settle_connect S p0 q res w :
  (∀ cc, res = None → connects w !! q = Some cc →
         connected (cc_session cc) (sessions w)) →
  Iu S p0 w → Iu S p0 (settle_connect q res w).
Proof.
  intros Hres I. unfold settle_connect.
  destruct (connects w !! q) as [cc|] eqn:Hq; [|done].
  destruct (cc_state cc); try done.
  autorewrite with fp. prims. apply up_connects_settle; [|done].
  intros cc' Hn Hcc'. rewrite Hq in Hcc'. injection Hcc' as <-. auto.
Qed.

Lemma Iu_connect S p0 s k w : Iu S p0 w → Iu S p0 (connect s k w).
Proof.
  intros I. unfold connect, connect_open. cbn zeta. prims.
  destruct (sessions w !! s) as [this|] eqn:Hs; [|up].
  destruct (isConnected this) eqn:Hc.
  - apply Iu_settle_connect; [|up]. intros cc _. prims.
    rewrite snoc_lookup_new. intros [= <-]. simpl. by exists this.
  - repeat case_match; try (apply Iu_settle_connect; [done|]); up.
Qed.

Lemma Iu_exec_callback S p0 i w w' :
  exec_callback i None w = Some w' → Iu S p0 w → Iu S p0 w'.
Proof. intros H I. unfold exec_callback in H. opt_inv H. up. Qed.

Lemma Iu_stream_close S p0 now st code w :
  Iu S p0 w → Iu S p0 (stream_close now st code w).
Proof.
  intros I. unfold stream_close, exec_session. cbn zeta. repeat case_match; up.
Qed.

(** [onReady], lines 66: the session is connected when the promise is
    fulfilled. *)
Lemma Iu_handle_ready S p0 now c q w :
  Ac w q → Iu S p0 w → Iu S p0 (handle now c EvReady (OnceReady q) w).
Proof.
  intros (cc & this & Hcc & Hthis & _) I. simpl. rewrite Hcc.
  apply Iu_settle_connect; [|up]. intros cc' _. prims. rewrite Hcc.
  intros [= <-]. eexists. split; [by rewrite list_lookup_alter_eq, Hthis|done].
Qed.

Lemma Iu_emit_ready S p0 now c w : Ia w → Iu S p0 w → Iu S p0 (emit now c EvReady w).
Proof.
  intros A I. unfold emit. destruct (clients w !! c) as [cl|] eqn:Hcl; [|done].
  cbn zeta.
  assert (Hls : Forall (λ l, ∃ q, l = OnceReady q ∧ Ac w q)
                  (filter (λ l, listens EvReady l) (listeners cl))).
  { apply Forall_forall. intros l [Hl Hin]%list_elem_of_filter.
    destruct l; try done. eexists. split; [done|]. eapply auth_ready; eauto. }
  match goal with |- context [foldl _ ?w0 ?ls] =>
    assert (Iu S p0 w0) as I0 by up;
    assert (extends w w0) as E0 by ext_chain;
    generalize dependent w0; generalize dependent ls end.
  intros ls Hls. induction Hls as [|l ls (q & -> & Hq) Hls IH]; intros w0 I0 E0;
    cbn [foldl]; [done|].
  apply IH.
  - apply Iu_handle_ready; [|done]. by eapply Aq_extends.
  - eapply extends_trans; [done|apply extends_handle].
Qed.

Lemma Iu_get S p0 now id cfg w : Iu S p0 w → Iu S p0 (get now id cfg w).
Proof.
  intros I. unfold get. cbn zeta. repeat case_match; try apply Iu_connect; up.
Qed.

Lemma Iu_step S p0 now ev w w' :
  Ia w → no_failure ev = true → step now ev w = Some w' → Iu S p0 w → Iu S p0 w'.
Proof.
  intros A Hev H I. destruct ev as [| | | | | |c []| |i []| | | |]; try done;
    step_inv H.
  - by apply Iu_emit_ready.
  - destruct res; [done|]. unfold connect_open. up.
  - eapply Iu_exec_callback; [|done]. unfold exec_callback.
    by rewrite E; simpl; rewrite E0.
  - unfold stream_data. up.
  - unfold stream_stderr. up.
  - by apply Iu_stream_close.
Qed.

Lemma Iu_run S p0 tr w w' :
  reachable w → Forall (λ tev, no_failure tev.2 = true) tr →
  run tr w = Some w' → Iu S p0 w → Iu S p0 w'.
Proof.
  revert w. induction tr as [|[now ev] tr IH]; intros w Hr Hev H I; simpl in H.
  - by injection H as <-.
  - destruct (step now ev w) as [w1|] eqn:Hs; simpl in H; [|done].
    apply Forall_cons in Hev as [Hev Htr]. apply (IH w1); [|done..|].
    + by eapply reachable_step.
    + eapply Iu_step; eauto. apply (Inv_auth _ (reachable_Inv _ Hr)).
Qed.

(** ** Two calls of [pool.get] in a row *)

(** What the first [get] leaves: the id is mapped, and the call has either
    returned that session at once or awaits a [connect()] on it. *)
Lemma get_entry w now id d :
  reachable w →
  let s0 := default (length (sessions w)) (map_get id (connections w)) in
  let w1 := get now id d w in
  map_get id (connections w1) = Some s0 ∧
  ((connected s0 (sessions w) ∧
    outcome (length (outcomes w)) w1 = Some (ResolvedSession s0)) ∨
   ∃ cc, connects w1 !! length (connects w) = Some cc ∧
         cc_session cc = s0 ∧ cc_kont cc = KGet (length (outcomes w))).
Proof.
  intros Hr. cbn zeta.
  pose proof (step_connections now (CallGet id d) w _ eq_refl) as Hc. simpl in Hc.
  destruct (map_get id (connections w)) as [s|] eqn:Hm; simpl.
  - rewrite Hc. split; [done|].
    destruct (reachable_Ip _ Hr) as (_ & _ & Hb). rewrite Forall_forall in Hb.
    pose proof (Hb _ (map_get_elem _ _ _ Hm)) as Hlt. simpl in Hlt.
    destruct (lookup_lt_is_Some_2 _ _ Hlt) as [conn Hs].
    rewrite (get_mapped _ _ _ _ _ Hm), Hs.
    destruct (isActive conn) eqn:Ha; simpl.
    + left. split.
      * exists conn. split; [done|]. unfold isActive in Ha.
        by apply andb_true_iff in Ha as [? _].
      * apply outcome_settle_pending, outcome_new_call.
    + right. apply (connect_call s (KGet (length (outcomes w))) (new_call w)).
  - rewrite Hc. split; [apply map_get_set_eq|]. right.
    rewrite (get_unmapped _ _ _ _ Hm).
    match goal with |- context [connect ?s ?k ?w0] =>
      apply (connect_call s k w0) end.
Qed.

(** [get] of an id whose session is connected returns the session and
    touches nothing. *)
Lemma get_connected w now id d s :
  map_get id (connections w) = Some s → connected s (sessions w) →
  outcome (length (outcomes w)) (get now id d w) = Some (ResolvedSession s) ∧
  effects (get now id d w) = effects w ∧ clients (get now id d w) = clients w ∧
  sessions (get now id d w) = sessions w ∧ timers (get now id d w) = timers w.
Proof.
  intros Hm (this & Hs & Hc). rewrite (get_mapped _ _ _ _ _ Hm), Hs.
  destruct (isActive this); simpl.
  - split; [|by autorewrite with fp].
    apply outcome_settle_pending, outcome_new_call.
  - unfold connect. cbn zeta. prims. rewrite Hs, Hc.
    unfold settle_connect. prims. rewrite snoc_lookup_new. simpl.
    split; [|by autorewrite with fp].
    apply outcome_settle_pending. prims. apply snoc_lookup_new.
Qed.

(** C7: when [pool.get(id, d)] has returned a session and nothing has
    failed and no other call was made in between, a second [pool.get(id, d)]
    returns the same session at once; it creates no client, opens no
    transport and makes no other call on a collaborator. *)
Theorem get_twice_returns_same_session w t0 id d tr w2 s t1 :
  reachable w →
  run ((t0, CallGet id d) :: tr) w = Some w2 →
  Forall (λ tev, no_failure tev.2 = true) tr →
  outcome (length (outcomes w)) w2 = Some (ResolvedSession s) →
  map_get id (connections w2) = Some s ∧
  outcome (length (outcomes w2)) (get t1 id d w2) = Some (ResolvedSession s) ∧
  effects (get t1 id d w2) = effects w2 ∧
  clients (get t1 id d w2) = clients w2 ∧
  sessions (get t1 id d w2) = sessions w2.
Proof.
  intros Hr Hrun Hev Hout. simpl in Hrun.
  set (w1 := get t0 id d w) in *.
  set (s0 := default (length (sessions w)) (map_get id (connections w))).
  destruct (get_entry w t0 id d Hr) as [Hm1 Hcase]. fold s0 w1 in Hm1, Hcase.
  assert (reachable w1) as Hr1 by (by apply (reachable_step t0 (CallGet id d) w)).
  assert (reachable w2) as Hr2 by (by eapply reachable_run).
  pose proof (extends_run _ _ _ Hrun) as E.
  assert (Forall (keeps id) tr) as Hk.
  { eapply Forall_impl; [exact Hev|]. intros [now ev]. simpl.
    destruct ev; try done; split; done. }
  pose proof (run_keeps_entry _ _ _ _ _ Hrun Hk Hm1) as Hm2.
  set (S := λ s', s' = s0 ∧ connected s0 (sessions w)).
  assert (Iu S (length (connects w)) w1) as I1.
  { apply Iu_get. split; [by intros s' [-> ?]|].
    intros q cc Hq Hcc. apply lookup_lt_Some in Hcc. lia. }
  pose proof (Iu_run S _ tr w1 w2 Hr1 Hev Hrun I1) as [I2a I2b].
  assert (s = s0 ∧ connected s0 (sessions w2)) as [-> Hcon].
  { destruct Hcase as [[Hc Ho]|(cc & Hcc & Hs & Hkont)].
    - destruct (ext_outcomes _ _ E (length (outcomes w)) (Some (ResolvedSession s0)))
        as (o & Ho' & Hsame).
      { unfold outcome in Ho. destruct (outcomes w1 !! length (outcomes w)) as [[o|]|];
          simpl in Ho; congruence. }
      specialize (Hsame _ eq_refl). subst o. unfold outcome in Hout.
      rewrite Ho' in Hout. simpl in Hout. split; [congruence|]. by apply I2a.
    - destruct (ext_connects _ _ E _ _ Hcc) as (cc' & Hcc' & Hs' & Hk' & _).
      pose proof (Inv_observed _ (reachable_Inv _ Hr2) _ _ Hcc') as Hobs.
      unfold observed in Hobs. rewrite Hk', Hkont in Hobs.
      unfold outcome in Hout.
      destruct (cc_state cc') eqn:Hst.
      + destruct (Inv_live _ (reachable_Inv _ Hr2)) as [_ Hlive].
        assert (length (outcomes w) ∈ lv w2) as Hin.
        { unfold live. apply elem_of_app. left. apply list_elem_of_omap.
          exists cc'. split; [by eapply list_elem_of_lookup_2|].
          unfold live_connect. by rewrite Hst, Hk', Hkont. }
        apply Hlive in Hin. rewrite Hin in Hout. done.
      + rewrite Hobs in Hout. split; [congruence|].
        rewrite <- Hs, <- Hs'. eapply I2b; eauto.
      + rewrite Hobs in Hout. done. }
  split; [done|]. pose proof (get_connected w2 t1 id d s0 Hm2 Hcon). tauto.
Qed.

Lemma get_twice_returns_same_session_witness :
  map_get "a" (connections Scenes.connected) = Some 0 ∧
  outcome 1 (get 11 "a" Examples.with_password Scenes.connected) =
    Some (ResolvedSession 0) ∧
  effects (get 11 "a" Examples.with_password Scenes.connected) =
    effects Scenes.connected.
Proof.
  destruct (get_twice_returns_same_session (init None) 0 "a" Examples.with_password
              [(10%Z, ClientEmits 0 EvReady)] Scenes.connected 0 11)
    as (H1 & H2 & H3 & _).
  - apply reachable_init.
  - vm_compute. reflexivity.
  - repeat constructor.
  - vm_compute. reflexivity.
  - split; [exact H1|]. split; [exact H2|exact H3].
Defined.

(** ** A session left alone stays idle *)

Section Idle.
Context (s : nat) (la : Z).
Implicit Types (ss : list SSHConnection) (ts : list Timer).

Lemma idle_sessions_alter f s' ss ts :
  (s' = s → ∀ x, lastActivity (f x) = lastActivity x) →
  inv_idle s la ss ts → inv_idle s la (alter f s' ss) ts.
Proof.
  intros Hf [(this & Hs & Hla) I2]. split; [|done].
  destruct (alter_lookup_fwd f _ s' _ _ Hs) as (y & Hy & [[_ ->]|[-> ->]]).
  - by exists this.
  - exists (f this). split; [done|]. by rewrite Hf.
Qed.

Lemma idle_sessions_snoc x ss ts :
  inv_idle s la ss ts → inv_idle s la (ss ++ [x]) ts.
Proof.
  intros [(this & Hs & Hla) I2]. split; [|done].
  exists this. split; [by apply snoc_lookup_fwd|done].
Qed.

Lemma idle_timers_disarm t ss ts :
  inv_idle s la ss ts → inv_idle s la ss (alter disarm t ts).
Proof.
  intros [I1 I2]. split; [done|]. intros t' tm Ht Ha.
  apply alter_lookup_inv in Ht as (x & Hx & [[_ ->]|[_ ->]]); [eauto|done].
Qed.

Lemma idle_timers_snoc tm ss ts :
  callback tm ≠ TReconnect s →
  inv_idle s la ss ts → inv_idle s la ss (ts ++ [tm]).
Proof.
  intros Hcb [I1 I2]. split; [done|]. intros t' tm' Ht Ha.
  apply snoc_lookup_inv in Ht as [Ht|[_ ->]]; [eauto|done].
Qed.
End Idle.

Ltac iz_side := solve [ intros _ []; reflexivity | intros ? []; reflexivity
                      | intros; congruence | discriminate | congruence
                      | cbn; congruence ].

Ltac iz_step :=
  first
    [ eassumption
    | apply idle_sessions_snoc
    | apply idle_timers_disarm
    | apply idle_timers_snoc; [iz_side|]
    | apply idle_sessions_alter; [iz_side|] ].

Ltac iz := prims; autorewrite with fp; prims; repeat iz_step.

Lemma Iz_scheduleReconnect s la now s' w :
  (s' = s → long_idle la now) → Iz s la w → Iz s la (scheduleReconnect now s' w).
Proof.
  intros Hn I. unfold scheduleReconnect.
  destruct (sessions w !! s') as [this|] eqn:Hs; [|done].
  destruct (Z.ltb_spec (now - lastActivity this) (30 * 60 * 1000)) as [Hlt|Hge].
  - assert (s' ≠ s) as Hne.
    { intros ->. destruct I as [(this0 & Hs0 & Hla) _]. specialize (Hn eq_refl).
      unfold long_idle in Hn. rewrite Hs in Hs0. injection Hs0 as <-. lia. }
    destruct (reconnectTimer this); iz.
  - destruct (reconnectTimer this); iz.
Qed.

Lemma Iz_lost s la now s' w :
  (s' = s → long_idle la now) → Iz s la w → Iz s la (lost now s' w).
Proof. intros Hn I. unfold lost. apply Iz_scheduleReconnect; [done|]. iz. Qed.

Lemma Iz_connect s la s' k w : Iz s la w → Iz s la (connect s' k w).
Proof.
  intros I. unfold connect, connect_open. cbn zeta. repeat case_match; iz.
Qed.

Lemma Iz_disconnect s la s' w : Iz s la w → Iz s la (disconnect s' w).
Proof. intros I. unfold disconnect. repeat case_match; iz. Qed.

Lemma Iz_exec s la now s' cmd w : s' ≠ s → Iz s la w → Iz s la (exec now s' cmd w).
Proof.
  intros Hne I. unfold exec. cbn zeta.
  repeat case_match; try apply Iz_connect; iz.
Qed.

Lemma Iz_handle s la now c ev l w :
  long_idle la now →
  (∀ q cc, l = OnceReady q → connects w !! q = Some cc → cc_session cc ≠ s) →
  Iz s la w → Iz s la (handle now c ev l w).
Proof.
  intros Hn Hq I. unfold handle.
  destruct l as [s'|s'|s'|q|q].
  - destruct ev; try done. apply Iz_lost; [done|]. iz.
  - by apply Iz_lost.
  - by apply Iz_lost.
  - destruct (connects w !! q) as [cc|] eqn:Hcc; [|done].
    pose proof (Hq q cc eq_refl Hcc) as Hne. iz.
  - destruct ev; try done. iz.
Qed.

Lemma Iz_emit s la now c ev w :
  long_idle la now → Iq (other_than s) w → Iz s la w → Iz s la (emit now c ev w).
Proof.
  intros Hn A I. unfold emit. destruct (clients w !! c) as [cl|] eqn:Hcl; [|done].
  cbn zeta.
  assert (Hls : ∀ q, OnceReady q ∈ filter (λ l, listens ev l) (listeners cl) →
                     Aq (other_than s) w q).
  { intros q Hq. apply ready_in_filter in Hq. eapply auth_ready; eauto. }
  match goal with |- context [foldl _ ?w0 ?ls] =>
    assert (Iz s la w0) as I0 by iz;
    assert (extends w w0) as E0 by ext_chain;
    generalize dependent w0; generalize dependent ls end.
  intros ls. induction ls as [|l ls IH]; intros Hls w0 I0 E0; cbn [foldl]; [done|].
  apply IH.
  - intros q Hq. apply Hls. by apply elem_of_cons; right.
  - apply Iz_handle; [done| |done]. intros q cc -> Hcc.
    destruct (Aq_extends _ _ _ q E0 (Hls q ltac:(by apply elem_of_cons; left)))
      as (cc' & this & Hcc' & _ & HQ).
    rewrite Hcc in Hcc'. injection Hcc' as <-. exact HQ.
  - eapply extends_trans; [done|apply extends_handle].
Qed.

Lemma Iz_get s la now id cfg w : Iz s la w → Iz s la (get now id cfg w).
Proof.
  intros I. unfold get. cbn zeta. repeat case_match; try apply Iz_connect; iz.
Qed.

Lemma Iz_close s la id w : Iz s la w → Iz s la (close id w).
Proof.
  intros I. unfold close. cbn zeta. repeat case_match; iz; by apply Iz_disconnect.
Qed.

Lemma Iz_closeAll s la w : Iz s la w → Iz s la (closeAll w).
Proof.
  intros I. unfold closeAll. prims. generalize (map snd (connections w)).
  intros l. revert w I. induction l as [|s' l IH]; intros w I; simpl; [done|].
  apply IH. by apply Iz_disconnect.
Qed.

Lemma Iz_stream_close s la now st code w :
  (∀ x, streams w !! st = Some x → exec_session (st_exec x) w ≠ Some s) →
  Iz s la w → Iz s la (stream_close now st code w).
Proof.
  intros Hx I. unfold stream_close.
  destruct (streams w !! st) as [x|] eqn:Hst; [|done]. cbn zeta.
  specialize (Hx x eq_refl). unfold exec_session in *. prims.
  destruct (execs w !! st_exec x) as [e|]; simpl in *; iz.
Qed.

Lemma Iz_run_timer s la cb w :
  Iz s la w → Iz s la (run_timer cb w).
Proof. intros I. unfold run_timer. repeat case_match; try apply Iz_connect; iz. Qed.

Lemma Iz_step s la now ev w w' :
  leaves_alone s la now ev w → Iq (other_than s) w →
  step now ev w = Some w' → Iz s la w → Iz s la w'.
Proof.
  intros [Hn Hev] A H I. destruct ev; step_inv H.
  - by apply Iz_get.
  - by apply Iz_close.
  - by apply Iz_closeAll.
  - apply Iz_connect. iz.
  - by apply Iz_exec.
  - by apply Iz_disconnect.
  - by apply Iz_emit.
  - destruct res; unfold connect_open; iz.
  - destruct err; iz.
  - unfold stream_data. iz.
  - unfold stream_stderr. iz.
  - by apply Iz_stream_close.
  - apply Iz_run_timer. iz.
Qed.

(** The calls of [connect()] an event makes are not on [s]. *)
Lemma leaves_alone_target s la now ev w w' s' :
  Iz s la w → leaves_alone s la now ev w → step now ev w = Some w' →
  connect_target ev w = Some s' → may_connect (other_than s) s'.
Proof.
  intros [(this & Hs & _) It] [_ Hev] H Ht d _. unfold other_than.
  destruct ev; simpl in Ht; try done.
  - injection Ht as <-. destruct (map_get id (connections w)); simpl; [congruence|].
    apply lookup_lt_Some in Hs. lia.
  - congruence.
  - congruence.
  - step_inv H. simpl in Ht.
    destruct (callback t0) eqn:Hcb; [|done]. injection Ht as <-.
    intros ->. by eapply It.
Qed.

Lemma left_alone_run s la tr w w2 :
  Iq (other_than s) w → Iz s la w → left_alone s la tr w → run tr w = Some w2 →
  Iq (other_than s) w2 ∧ Iz s la w2.
Proof.
  revert w. induction tr as [|[now ev] tr IH]; intros w A I Hq H; simpl in *.
  - by injection H as <-.
  - destruct Hq as [Hev Hq].
    destruct (step now ev w) as [w1|] eqn:Hs; simpl in H; [|done].
    apply (IH w1); [| |done..].
    + eapply Iq_step; [|done..]. intros s' Ht. by eapply leaves_alone_target.
    + by eapply Iz_step.
Qed.

(** ** [scheduleReconnect()] *)

Lemma settle_connect_swallowed p res w cc :
  connects w !! p = Some cc → cc_kont cc = KSwallow →
  outcomes (settle_connect p res w) = outcomes w.
Proof.
  intros Hp Hk. unfold settle_connect. rewrite Hp.
  destruct (cc_state cc); try done. by rewrite Hk.
Qed.

Lemma connect_swallowed s w : outcomes (connect s KSwallow w) = outcomes w.
Proof.
  unfold connect, connect_open. cbn zeta. prims.
  repeat case_match; try done;
    erewrite settle_connect_swallowed; try done; prims; try apply snoc_lookup_new;
    reflexivity.
Qed.

Lemma scheduleReconnect_no_timer now s w this :
  sessions w !! s = Some this → It w →
  (30 * 60 * 1000 ≤ now - lastActivity this)%Z →
  sessions (scheduleReconnect now s w) = sessions w ∧
  length (timers (scheduleReconnect now s w)) = length (timers w) ∧
  ∀ t tm, timers (scheduleReconnect now s w) !! t = Some tm → armed tm = true →
          callback tm ≠ TReconnect s.
Proof.
  intros Hs I Hge. rewrite (scheduleReconnect_eq _ _ _ _ Hs).
  destruct (Z.ltb_spec (now - lastActivity this) (30 * 60 * 1000)) as [|_]; [lia|].
  split; [by autorewrite with fp|]. split; [apply cancel_reconnect_length|].
  intros t tm Ht Ha Hcb. unfold cancel_reconnect in Ht.
  destruct (reconnectTimer this) as [t0|] eqn:Hrt.
  - revert Ht. prims. intros Ht.
    apply alter_lookup_inv in Ht as (x & Hx & [[Hne ->]|[_ ->]]); [|done].
    destruct (I t x s Hx Ha Hcb) as (this' & Hs' & Hrt'). congruence.
  - destruct (I t tm s Ht Ha Hcb) as (this' & Hs' & Hrt'). congruence.
Qed.


Lemma lost_transport_alone : Iq (other_than 0) Scenes2.lost_transport.
Proof.
  split.
  - intros [|s] this Hs Hc; [|by destruct s].
    vm_compute in Hs. injection Hs as <-. done.
  - intros [|c] cl p Hcl Hin; [|by destruct c].
    vm_compute in Hcl. injection Hcl as <-. simpl in Hin.
    rewrite !elem_of_cons, elem_of_nil in Hin. naive_solver.
  - intros i rd Hrd. vm_compute in Hrd. by destruct i.
Qed.


(** ** The transport signals ['ready'] *)

Section Ready.
Context (now : Z) (s c p : nat) (k : Kont).

Lemma ready_frame_handle q w :
  ready_frame now s c p k w →
  ready_frame now s c p k (handle now c EvReady (OnceReady q) w) ∧
  (q = p → ready_done now s c p k (handle now c EvReady (OnceReady q) w)).
Proof.
  intros (this & cc & Hs & Hc & Hp & Hcs & Hk & Hst). simpl.
  destruct (connects w !! q) as [ccq|] eqn:Hq.
  2:{ split; [by exists this, cc|]. intros ->. congruence. }
  set (f := λ x, with_lastActivity now (with_isConnected true x)).
  set (w1 := update_session (cc_session ccq) f (cleanup q c w)).
  assert (∃ this1, sessions w1 !! s = Some this1 ∧ client this1 = Some c ∧
            (isConnected this = true ∧ lastActivity this = now ∨ cc_session ccq = s →
             isConnected this1 = true ∧ lastActivity this1 = now)) as (this1 & Hs1 & Hc1 & Hup).
  { subst w1. prims.
    destruct (alter_lookup_fwd f _ (cc_session ccq) _ _ Hs)
      as (y & Hy & [[Hne Hx]|[Heq Hx]]); exists y; subst y; (split; [done|]).
    - split; [done|]. intros [?|?]; [done|congruence].
    - by split. }
  assert (connects w1 !! p = Some cc ∧ connects w1 !! q = Some ccq) as [Hp1 Hq1]
    by (subst w1; by prims).
  destruct (settle_connect_lookup p q None w1 cc Hp1)
    as (cc' & Hp' & Hcase).
  assert (sessions (settle_connect q None w1) = sessions w1) as Hss
    by (by autorewrite with fp).
  split.
  - exists this1, cc'. rewrite Hss. split; [done|]. split; [done|]. split; [done|].
    destruct Hcase as [-> | (-> & Hpend & ->)].
    + split; [done|]. split; [done|].
      destruct Hst as [?|(? & ? & ?)]; [by left|right].
      split; [done|]. apply Hup. by left.
    + simpl. split; [done|]. split; [done|]. right. split; [done|].
      apply Hup. right. congruence.
  - intros ->. exists this1, cc'. rewrite Hss.
    split; [done|]. split; [done|]. split; [done|].
    assert (ccq = cc) as -> by congruence.
    destruct Hcase as [-> | (_ & Hpend & ->)].
    + destruct Hst as [Hpend|(? & ? & ?)].
      * exfalso. unfold settle_connect in Hp'. rewrite Hq1, Hpend in Hp'.
        revert Hp'. autorewrite with fp. prims.
        rewrite list_lookup_alter_eq, Hp1. simpl. intros [= E].
        rewrite <- E in Hpend. done.
      * split; [done|]. split; [done|]. split; [done|]. apply Hup. by right.
    + simpl. split; [done|]. split; [done|]. split; [done|]. apply Hup. by right.
Qed.

Lemma ready_done_frame w :
  ready_done now s c p k w → ready_frame now s c p k w.
Proof.
  intros (this & cc & ? & ? & ? & ? & ? & ? & ? & ?). exists this, cc.
  repeat (split; [done|]). by right.
Qed.

Lemma ready_done_handle q w :
  ready_done now s c p k w →
  ready_done now s c p k (handle now c EvReady (OnceReady q) w).
Proof.
  intros Hd. destruct (ready_frame_handle q w (ready_done_frame _ Hd))
    as [(this & cc & Hs & Hc & Hp & Hcs & Hk & Hst) _].
  destruct Hd as (this0 & cc0 & Hs0 & _ & Hp0 & _ & _ & Hst0 & _).
  exists this, cc. repeat (split; [done|]).
  destruct Hst as [Hpend|(? & ? & ?)]; [|done]. exfalso.
  pose proof (extends_handle now c EvReady (OnceReady q) w) as E.
  destruct (ext_connects _ _ E _ _ Hp0) as (cc' & Hp' & _ & _ & Hkeep).
  rewrite Hp in Hp'. injection Hp' as <-. rewrite Hkeep in Hpend; congruence.
Qed.

Lemma ready_emission ls w :
  Forall (λ l, ∃ q, l = OnceReady q) ls → ready_frame now s c p k w →
  let w' := foldl (λ w l, handle now c EvReady l w) w ls in
  ready_frame now s c p k w' ∧
  (ready_done now s c p k w ∨ OnceReady p ∈ ls → ready_done now s c p k w').
Proof.
  intros Hls. revert w. induction Hls as [|l ls [q ->] Hls IH]; intros w Hf;
    cbn [foldl].
  - split; [done|]. intros [?|Hin]; [done|by apply elem_of_nil in Hin].
  - destruct (ready_frame_handle q w Hf) as [Hf' Hd'].
    destruct (IH _ Hf') as [IH1 IH2]. split; [done|].
    intros [Hd|Hin]; apply IH2.
    + left. by apply ready_done_handle.
    + apply elem_of_cons in Hin as [[= ->]|Hin]; [left; auto|by right].
Qed.
End Ready.

(** X8: when the client of a session signals ['ready'] while a
    [connect()] call of the session waits on it, the session becomes active
    ([isConnected] set, client kept), its [lastActivity] is the time of the
    event and the call is fulfilled; [pool.get] awaiting it returns the
    session, a caller of [connect()] sees it complete. *)
Theorem ready_connects_session w now s this c cl p cc :
  reachable w →
  sessions w !! s = Some this → client this = Some c →
  clients w !! c = Some cl → OnceReady p ∈ listeners cl →
  connects w !! p = Some cc → cc_state cc = Pending → cc_session cc = s →
  ∃ w' this', step now (ClientEmits c EvReady) w = Some w' ∧
    sessions w' !! s = Some this' ∧ isActive this' = true ∧
    lastActivity this' = now ∧
    (∃ cc', connects w' !! p = Some cc' ∧ cc_state cc' = Fulfilled) ∧
    (∀ r, cc_kont cc = KGet r → outcome r w' = Some (ResolvedSession s)) ∧
    (∀ r, cc_kont cc = KCaller r → outcome r w' = Some ResolvedVoid).
Proof.
  intros Hr Hs Hc Hcl Hin Hp Hst Hcs.
  assert (step now (ClientEmits c EvReady) w = Some (emit now c EvReady w)) as Hstep
    by (simpl; by rewrite Hcl).
  pose proof (reachable_step _ _ _ _ Hr Hstep) as Hr'.
  exists (emit now c EvReady w).
  assert (ready_done now s c p (cc_kont cc) (emit now c EvReady w))
    as (this' & cc' & Hs' & Hc' & Hp' & Hcs' & Hk' & Hst' & Hcon & Hla).
  { unfold emit. rewrite Hcl. cbn zeta. set (w1 := set_clients _ w).
    apply ready_emission.
    - apply Forall_forall. intros l [Hl _]%list_elem_of_filter.
      destruct l; try done. eauto.
    - exists this, cc. subst w1. prims. repeat (split; [done|]). by left.
    - right. apply list_elem_of_filter. by split. }
  exists this'. split; [done|]. split; [done|]. split.
  { unfold isActive. rewrite Hcon, Hc'. done. }
  split; [done|]. split; [eauto|].
  pose proof (Inv_observed _ (reachable_Inv _ Hr') _ _ Hp') as Hobs.
  unfold observed in Hobs. rewrite Hst', Hk' in Hobs.
  split; intros r Hk; rewrite Hk in Hobs; [by rewrite <- Hcs'|done].
Qed.

Lemma ready_connects_session_witness :
  ∃ w' this', step 10 (ClientEmits 0 EvReady) Scenes.connecting = Some w' ∧
    sessions w' !! 0 = Some this' ∧ isActive this' = true ∧
    outcome 0 w' = Some (ResolvedSession 0).
Proof.
  destruct (ready_connects_session Scenes.connecting 10 0 Scenes.connecting_session 0
              {| listeners := [OnLostError 0; OnLostEnd 0; OnLostClose 0;
                               OnceReady 0; OnceError 0] |}
              0 {| cc_session := 0; cc_kont := KGet 0; cc_state := Pending |})
    as (w' & this' & H1 & H2 & H3 & _ & _ & H6 & _).
  - exists None, [(0%Z, CallGet "a" Examples.with_password)]. vm_compute. reflexivity.
  - vm_compute. reflexivity.
  - reflexivity.
  - vm_compute. reflexivity.
  - apply list_elem_of_lookup. by exists 3.
  - vm_compute. reflexivity.
  - reflexivity.
  - reflexivity.
  - exists w', this'. split; [exact H1|]. split; [exact H2|]. split; [exact H3|].
    by apply H6.
Defined.

(** ** Invariants of the connection lifecycle *)

(** X9: in every state the server can reach, the long-lived handlers of
    a session are subscribed on the client the session holds and on no
    other: a client that reports a loss for a session is that session's
    current client, and no client serves two sessions. *)
Theorem loss_handlers_follow_the_client w :
  reachable w →
  (∀ s this c, sessions w !! s = Some this → client this = Some c →
     ∃ cl, clients w !! c = Some cl ∧ OnLostError s ∈ listeners cl) ∧
  (∀ c cl l s, clients w !! c = Some cl → l ∈ listeners cl → lost_of l = Some s →
     ∃ this, sessions w !! s = Some this ∧ client this = Some c) ∧
  (∀ s s' this this' c, sessions w !! s = Some this → sessions w !! s' = Some this' →
     client this = Some c → client this' = Some c → s = s').
Proof.
  intros Hr. destruct (Inv_handle _ (reachable_Inv _ Hr)) as [H1 H2 H3]. auto.
Qed.

Lemma loss_handlers_follow_the_client_witness :
  ∃ cl, clients Scenes.connected !! 0 = Some cl ∧ OnLostError 0 ∈ listeners cl.
Proof.
  destruct (loss_handlers_follow_the_client Scenes.connected) as (H1 & _).
  - exists None, Scenes5.first_get. vm_compute. reflexivity.
  - apply (H1 0 Scenes.connected_session 0); vm_compute; reflexivity.
Defined.

(** X10: in every state the server can reach, a session that is
    connected has a credential in its descriptor, and so has the session of
    every [connect()] call for which a transport is being opened (a client
    still carries the call's [onReady]). *)
Theorem connected_session_has_credential w :
  reachable w →
  (∀ s this, sessions w !! s = Some this → isConnected this = true →
     has_auth (config this)) ∧
  (∀ c cl p, clients w !! c = Some cl → OnceReady p ∈ listeners cl →
     ∃ cc this, connects w !! p = Some cc ∧ sessions w !! cc_session cc = Some this ∧
                has_auth (config this)).
Proof.
  intros Hr. destruct (Inv_auth _ (reachable_Inv _ Hr)) as [H1 H2 _]. split; [auto|].
  intros c cl p Hcl Hin. apply (H2 c cl p Hcl Hin).
Qed.

Lemma connected_session_has_credential_witness :
  has_auth (config Scenes.connected_session).
Proof.
  destruct (connected_session_has_credential Scenes.connected) as (H1 & _).
  - exists None, Scenes5.first_get. vm_compute. reflexivity.
  - apply (H1 0 Scenes.connected_session); vm_compute; reflexivity.
Defined.

(** X11: in every state the server can reach, a [connect()] call that has
    been rejected has passed its error on unchanged to whoever awaited it:
    the caller of [connect()], [pool.get] or [exec]. *)
Theorem connect_rejection_reaches_the_caller w p cc e r :
  reachable w → connects w !! p = Some cc → cc_state cc = RejectedWith e →
  call_of (cc_kont cc) = Some r →
  outcome r w = Some (Rejected e).
Proof.
  intros Hr Hp Hst Hk.
  pose proof (Inv_observed _ (reachable_Inv _ Hr) _ _ Hp) as Hobs.
  unfold observed in Hobs. rewrite Hst in Hobs.
  destruct (cc_kont cc); simpl in Hk; try done; by injection Hk as <-.
Qed.

Lemma connect_rejection_reaches_the_caller_witness :
  outcome 0 Scenes7.refused = Some (Rejected Examples.refused).
Proof.
  apply (connect_rejection_reaches_the_caller Scenes7.refused 0
           {| cc_session := 0; cc_kont := KGet 0;
              cc_state := RejectedWith Examples.refused |}).
  - exists None, [(0%Z, CallGet "a" Examples.with_password);
                  (5%Z, ClientEmits 0 (EvError Examples.refused))].
    vm_compute. reflexivity.
  - vm_compute. reflexivity.
  - reflexivity.
  - reflexivity.
Defined.

(** ** The command history *)

Lemma slice_from_last {A} (n : Z) (l : list A) :
  (0 < n)%Z →
  slice_from (- n) l = drop (length l - Z.to_nat n) l.
Proof.
  intros Hn. unfold slice_from.
  destruct (Z.ltb_spec (- n) 0) as [_|]; [|lia]. f_equal. lia.
Qed.

Lemma slice_from_zero {A} (l : list A) : slice_from (- 0) l = l.
Proof. unfold slice_from. simpl. by rewrite Z.min_l by lia. Qed.

Lemma last_drop {A} (k : nat) (l : list A) : k < length l → last (drop k l) = last l.
Proof.
  intros Hk. rewrite !last_lookup, length_drop, lookup_drop. f_equal. lia.
Qed.



(** X13: [get_command_history] answers with the newest entries of the
    history, as many as the limit (10 when omitted) or all when there are
    fewer, never more than 500; a limit outside 1..500 is refused. *)
Theorem history_returns_the_newest limit h :
  ((1 ≤ default 10%Z limit ≤ 500)%Z →
     ∃ r, get_command_history limit h = inr r ∧ r `suffix_of` h ∧
          Z.of_nat (length r) = Z.min (default 10%Z limit) (Z.of_nat (length h)) ∧
          length r ≤ 500) ∧
  (¬ (1 ≤ default 10%Z limit ≤ 500)%Z →
     get_command_history limit h = inl invalid_limit).
Proof.
  unfold get_command_history. cbn zeta. split.
  - intros [H1 H2].
    destruct (Z.leb_spec 1 (default 10%Z limit)); [|lia].
    destruct (Z.leb_spec (default 10%Z limit) 500); [|lia]. simpl.
    eexists. split; [done|]. rewrite slice_from_last by lia.
    split; [apply suffix_drop|]. rewrite length_drop. lia.
  - intros Hn.
    destruct (Z.leb_spec 1 (default 10%Z limit));
      destruct (Z.leb_spec (default 10%Z limit) 500); simpl; try done. lia.
Qed.

Lemma history_returns_the_newest_witness :
  ∃ r, get_command_history (Some 1%Z)
         [stamp "t1" (Samples.entry "a"); stamp "t2" (Samples.entry "b")] = inr r ∧
       length r ≤ 500.
Proof.
  destruct (history_returns_the_newest (Some 1%Z)
              [stamp "t1" (Samples.entry "a"); stamp "t2" (Samples.entry "b")])
    as (H & _).
  destruct H as (r & H1 & _ & _ & H4); [simpl; lia|]. by exists r.
Defined.

(** ** The configuration *)

Lemma in_ids_spec id ids : in_ids id ids = true ↔ id ∈ ids.
Proof.
  unfold in_ids. rewrite existsb_exists. split.
  - intros (x & Hx & He). apply String.eqb_eq in He as ->. by apply list_elem_of_In.
  - intros Hin. exists id. split; [by apply list_elem_of_In|apply String.eqb_refl].
Qed.

Lemma invalid_ids_spec id cs :
  id ∈ invalid_ids cs ↔ ∃ conn, (id, conn) ∈ cs ∧ is_invalid id conn = true.
Proof.
  unfold invalid_ids. rewrite list_elem_of_omap. split.
  - intros ([k conn] & Hin & He). simpl in He.
    destruct (is_invalid k conn) eqn:E; [|done]. injection He as ->. eauto.
  - intros (conn & Hin & He). exists (id, conn). split; [done|]. simpl. by rewrite He.
Qed.

Lemma is_truthy_has_auth d :
  is_truthy (password d) = true ∨ is_truthy (privateKeyPath d) = true → has_auth d.
Proof.
  unfold is_truthy, has_auth.
  intros [H|H]; [right|left]; destruct (truthy _); done.
Qed.

Lemma all_id_chars_spec s c :
  all_id_chars s = true → c ∈ list_ascii_of_string s → is_id_char c = true.
Proof.
  induction s as [|a s IH]; simpl; [by intros _ ?%elem_of_nil|].
  intros [Ha Hs]%andb_true_iff [->|Hin]%elem_of_cons; auto.
Qed.

Lemma entries_functional (m : list (string * SSHConnectionConfig)) k v v' :
  NoDup m.*1 → (k, v) ∈ m → (k, v') ∈ m → v = v'.
Proof.
  induction m as [|[k0 v0] m IH]; simpl; [by intros _ ?%elem_of_nil|].
  intros [Hk Hm]%NoDup_cons H1 H2. apply elem_of_cons in H1, H2.
  destruct H1 as [E1|H1], H2 as [E2|H2].
  - congruence.
  - injection E1 as -> ->. destruct Hk. apply list_elem_of_fmap. by exists (k0, v').
  - injection E2 as -> ->. destruct Hk. apply list_elem_of_fmap. by exists (k0, v).
  - auto.
Qed.

(** What an entry that is not pushed on [invalid] satisfies. *)
Lemma not_invalid id conn :
  is_invalid id conn = false →
  isValidConnectionId id = true ∧ host conn ≠ ""%string ∧ username conn ≠ ""%string ∧
  has_auth conn ∧ (port conn = 0 ∨ 1 ≤ port conn ≤ 65535)%Z.
Proof.
  unfold is_invalid, nonempty.
  destruct (isValidConnectionId id); simpl; [|done].
  destruct (String.eqb_spec (host conn) ""); simpl; [done|].
  destruct (String.eqb_spec (username conn) ""); simpl; [done|].
  destruct (is_truthy (password conn)) eqn:Hp, (is_truthy (privateKeyPath conn)) eqn:Hk;
    simpl; try done.
  all: intros Hport; repeat (split; [first [done|apply is_truthy_has_auth; auto]|]).
  all: destruct (Z.eqb_spec (port conn) 0); simpl in Hport; [by left|right].
  all: apply orb_false_iff in Hport as [H1 H2].
  all: apply Z.ltb_ge in H1; rewrite Z.gtb_ltb in H2; apply Z.ltb_ge in H2; lia.
Qed.

(** X14: when [validateConfig] does not throw, the four numeric settings
    are within their bounds, every connection left has a valid id (1 to 64
    characters from [A-Za-z0-9._-], the first alphanumeric), a host, a
    username, a credential and a port that is 0 or within 1..65535, and no
    connection that satisfies all this has been dropped; the other settings
    are as loaded. *)
Theorem validateConfig_keeps_the_valid config config' :
  validateConfig config = inr config' →
  let s := Cfg.ssh config in let s' := Cfg.ssh config' in
  (1 ≤ Cfg.defaultTimeout s ∧ 1 ≤ Cfg.maxConcurrentSessions s ∧
   1000 ≤ Cfg.keepaliveInterval s ∧ 1000 ≤ Cfg.readyTimeout s)%Z ∧
  (∀ id conn, (id, conn) ∈ Cfg.connections s' →
     (id, conn) ∈ Cfg.connections s ∧
     isValidConnectionId id = true ∧ 1 ≤ String.length id ≤ 64 ∧
     (∀ c, c ∈ list_ascii_of_string id → is_id_char c = true) ∧
     host conn ≠ ""%string ∧ username conn ≠ ""%string ∧ has_auth conn ∧
     (port conn = 0 ∨ 1 ≤ port conn ≤ 65535)%Z) ∧
  (∀ id conn, (id, conn) ∈ Cfg.connections s → NoDup (Cfg.connections s).*1 →
     is_invalid id conn = false → (id, conn) ∈ Cfg.connections s') ∧
  Cfg.defaultTimeout s' = Cfg.defaultTimeout s ∧ Cfg.logging config' = Cfg.logging config.
Proof.
  unfold validateConfig. cbn zeta.
  destruct (Z.ltb_spec (Cfg.defaultTimeout (Cfg.ssh config)) 1); [done|].
  destruct (Z.ltb_spec (Cfg.maxConcurrentSessions (Cfg.ssh config)) 1); [done|].
  destruct (Z.ltb_spec (Cfg.keepaliveInterval (Cfg.ssh config)) 1000); [done|].
  destruct (Z.ltb_spec (Cfg.readyTimeout (Cfg.ssh config)) 1000); [done|].
  intros [= <-]. simpl. split; [done|]. split; [|split; [|done]].
  - intros id conn [Hk Hin]%list_elem_of_filter. simpl in Hk. split; [done|].
    assert (is_invalid id conn = false) as Hok.
    { destruct (is_invalid id conn) eqn:E; [|done].
      assert (in_ids id (invalid_ids (Cfg.connections (Cfg.ssh config))) = true) as Hin'
        by (apply in_ids_spec, invalid_ids_spec; eauto).
      congruence. }
    destruct (not_invalid _ _ Hok) as (Hid & Hh & Hu & Ha & Hp).
    split; [done|]. split; [|split; [|done]].
    + destruct id as [|c r]; [done|]. simpl in *.
      apply andb_true_iff in Hid as [_ Hl]. apply Nat.leb_le in Hl. lia.
    + intros c Hc. destruct id as [|c0 r]; [done|]. simpl in *.
      apply andb_true_iff in Hid as [[Hc0 Hr]%andb_true_iff _].
      apply elem_of_cons in Hc as [->|Hc].
      * unfold is_id_char. by rewrite Hc0.
      * by eapply all_id_chars_spec.
  - intros id conn Hin Hnd Hok. apply list_elem_of_filter. split; [|done]. simpl.
    destruct (in_ids id _) eqn:E; [|done].
    apply in_ids_spec, invalid_ids_spec in E as (conn' & Hin' & Hbad).
    assert (conn' = conn) as -> by (by eapply entries_functional). congruence.
Qed.

Lemma validateConfig_keeps_the_valid_witness :
  ∃ config', validateConfig Samples.loaded = inr config' ∧
    Cfg.connections (Cfg.ssh config') = [("alpha"%string, Examples.with_password)] ∧
    has_auth Examples.with_password.
Proof.
  eexists. split; [vm_compute; reflexivity|]. split; [reflexivity|].
  match goal with |- has_auth ?d =>
    destruct (validateConfig_keeps_the_valid Samples.loaded
                (match validateConfig Samples.loaded with
                 | inr c => c | inl _ => Samples.loaded end))
      as (_ & H & _)
  end.
  - vm_compute. reflexivity.
  - apply (H "alpha"%string Examples.with_password). vm_compute.
    apply elem_of_cons. by left.
Defined.

(** ** From the configuration to the pool *)

Lemma connect_key_reads w s this k path :
  sessions w !! s = Some this → isConnected this = false →
  truthy (privateKeyPath (config this)) = Some path →
  head (effects (connect s k w)) = Some (EReadFile path).
Proof.
  intros Hs Hc Hk. unfold connect. cbn zeta. prims.
  rewrite Hs, Hc, Hk. by destruct (client this).
Qed.

(** X15: a connection that [validateConfig] has accepted never makes
    [pool.get] fail for want of a credential: on first use the session is
    built with that descriptor and [connect()] starts reading the key file
    or, without a key path, opens the transport with the password; and the
    pool built from the configuration times commands out after
    [defaultTimeout] seconds, at least one. *)
Theorem accepted_connection_can_authenticate config config' id d :
  validateConfig config = inr config' → (id, d) ∈ Cfg.connections (Cfg.ssh config') →
  (1000 ≤ poolTimeout (server_pool config'))%Z ∧
  poolTimeout (server_pool config') = (Cfg.defaultTimeout (Cfg.ssh config) * 1000)%Z ∧
  ∀ w now, map_get id (connections w) = None →
    (∃ path, truthy (privateKeyPath d) = Some path ∧
             head (effects (get now id d w)) = Some (EReadFile path)) ∨
    (∃ pw, truthy (privateKeyPath d) = None ∧ truthy (password d) = Some pw ∧
           head (effects (get now id d w)) =
             Some (EOpen (length (clients w)) (make_cfg d (Password pw)))).
Proof.
  intros Hv Hin.
  destruct (validateConfig_keeps_the_valid _ _ Hv) as ((Ht & _) & Hall & _ & Hdt & _).
  destruct (Hall _ _ Hin) as (_ & _ & _ & _ & _ & _ & Ha & _).
  unfold server_pool. simpl. rewrite Hdt. split; [lia|]. split; [done|].
  intros w now Hm. rewrite (get_unmapped _ _ _ _ Hm).
  match goal with |- context [connect ?s ?k ?w0] =>
    assert (sessions w0 !! s = Some (new_SSHConnection now d (Some (poolTimeout w))))
      as Hs by (prims; apply snoc_lookup_new);
    assert (length (clients w0) = length (clients w)) as Hl by (by prims)
  end.
  destruct (truthy (privateKeyPath d)) as [path|] eqn:Hk.
  - left. exists path. split; [done|].
    exact (connect_key_reads _ _ _ _ path Hs eq_refl Hk).
  - right. destruct Ha as [Ha|Ha]; [congruence|].
    destruct (truthy (password d)) as [pw|] eqn:Hp; [|done].
    exists pw. split; [done|]. split; [done|]. rewrite <- Hl.
    exact (connect_password_opens _ _ _ _ pw Hs eq_refl Hk Hp).
Qed.

Lemma accepted_connection_can_authenticate_witness :
  poolTimeout (server_pool Samples.loaded) = 60000%Z ∧
  head (effects (get 0 "alpha" Examples.with_password (server_pool Samples.loaded))) =
    Some (EOpen 0 (make_cfg Examples.with_password (Password "secret"))).
Proof.
  split; [reflexivity|].
  destruct (accepted_connection_can_authenticate Samples.loaded
              (match validateConfig Samples.loaded with
               | inr c => c | inl _ => Samples.loaded end)
              "alpha" Examples.with_password) as (_ & _ & H).
  - vm_compute. reflexivity.
  - vm_compute. apply elem_of_cons. by left.
  - destruct (H (server_pool Samples.loaded) 0%Z eq_refl)
      as [(path & Hk & _)|(pw & _ & Hp & He)]; [done|].
    injection Hp as <-. exact He.
Defined.

(** ** [exec] on a session that is not connected *)

(** The world [exec] leaves when it has to connect first with a
    password. *)
Lemma exec_connecting w now s this cmd pw :
  sessions w !! s = Some this → isConnected this = false →
  truthy (privateKeyPath (config this)) = None →
  truthy (password (config this)) = Some pw →
  let w1 := exec now s cmd w in
  let c := length (clients w) in
  let p := length (connects w) in
  effects w1 =
    EOpen c (make_cfg (config this) (Password pw)) ::
    match client this with Some old => [EEnd old] | None => [] end ++ effects w ∧
  clients w1 !! c =
    Some {| listeners := [OnLostError s; OnLostEnd s; OnLostClose s;
                          OnceReady p; OnceError p] |} ∧
  connects w1 !! p =
    Some {| cc_session := s; cc_kont := KExec (length (outcomes w)) cmd;
            cc_state := Pending |} ∧
  sessions w1 !! s = Some (with_client (Some c) (with_lastActivity now this)) ∧
  outcomes w1 = outcomes w ++ [None] ∧ execs w1 = execs w.
Proof.
  intros Hs Hc Hk Hp. cbn zeta. unfold exec. cbn zeta. prims.
  rewrite list_lookup_alter_eq, Hs. simpl. rewrite Hc. simpl.
  unfold connect, connect_open. cbn zeta. prims.
  rewrite list_lookup_alter_eq, Hs. simpl. rewrite Hc, Hk, Hp.
  destruct (client this) as [old|] eqn:Hcl; prims;
    rewrite ?length_alter, ?list_lookup_alter_eq, ?snoc_lookup_new; simpl;
    rewrite ?list_lookup_alter_eq, ?Hs; simpl.
  all: repeat split; try done.
  all: try (by rewrite snoc_lookup_new).
  all: rewrite <- (length_alter no_listeners (clients w) old) at 1;
    by rewrite snoc_lookup_new.
Qed.

(** Of the listeners a connecting client carries, ['ready'] reaches the
    one of the [connect()] call. *)
Lemma ready_listeners s p :
  filter (λ l, listens EvReady l)
    [OnLostError s; OnLostEnd s; OnLostClose s; OnceReady p; OnceError p]
  = [OnceReady p].
Proof. reflexivity. Qed.



(** ** A channel that closes after its call was answered *)

Module Scenes8.
(** The command of [Scenes4.after_chatter] has timed out. *)
Definition timed_out : World :=
  default Scenes4.after_chatter (fire 0 Scenes4.after_chatter).
End Scenes8.

(** An answer that was given stays. *)
Lemma outcome_run r o tr w w' :
  outcome r w = Some o → run tr w = Some w' → outcome r w' = Some o.
Proof.
  intros Ho Hrun. unfold outcome in *.
  destruct (outcomes w !! r) as [x|] eqn:Hx; [|done]. simpl in Ho. subst x.
  destruct (ext_outcomes _ _ (extends_run _ _ _ Hrun) _ _ Hx) as (y & Hy & Hsame).
  rewrite Hy. simpl. by apply Hsame.
Qed.

(** X17: when the channel of an [exec] call closes after the call was
    answered (after the timeout of line 85: [stream.close()] makes the
    channel close), the handler of lines 89-93 still runs: the timer is
    cleared and [lastActivity] of the session becomes the time of the
    event, with no call on the client or the channel; the answer of the
    call stays what it was, then and whatever happens later. *)
Theorem late_close_keeps_the_answer w st x e this o now code :
  streams w !! st = Some x → st_closed x = false →
  execs w !! st_exec x = Some e → sessions w !! ex_session e = Some this →
  outcome (ex_call e) w = Some o →
  ∃ w1, step now (StreamCloses st code) w = Some w1 ∧
    (∀ tr w2, run tr w1 = Some w2 → outcome (ex_call e) w2 = Some o) ∧
    (∃ this1, sessions w1 !! ex_session e = Some this1 ∧ lastActivity this1 = now ∧
              config this1 = config this ∧ isConnected this1 = isConnected this) ∧
    (∀ tm, timers w1 !! st_timer x = Some tm → armed tm = false) ∧
    effects w1 = effects w.
Proof.
  intros Hx Hcl He Hs Ho.
  assert (step now (StreamCloses st code) w = Some (stream_close now st code w)) as Hstep.
  { simpl. unfold open_stream. rewrite Hx. simpl. by rewrite Hcl. }
  exists (stream_close now st code w). split; [done|]. split.
  { intros tr w2 Hrun. eapply outcome_run; [|exact Hrun].
    eapply (outcome_run _ _ [(now, StreamCloses st code)]); [exact Ho|].
    simpl. unfold open_stream. rewrite Hx. simpl. by rewrite Hcl. }
  unfold stream_close. rewrite Hx. cbn zeta. unfold exec_session. prims.
  rewrite He. cbn [fmap option_fmap option_map]. autorewrite with fp. prims.
  split.
  { rewrite list_lookup_alter_eq, Hs. eexists. split; [reflexivity|]. done. }
  split; [|done].
  intros tm. rewrite list_lookup_alter_eq.
  destruct (timers w !! st_timer x); simpl; [|done]. by intros [= <-].
Qed.

Lemma late_close_keeps_the_answer_witness :
  ∃ w1, step 60020 (StreamCloses 0 None) Scenes8.timed_out = Some w1 ∧
    outcome 1 w1 = Some (Rejected (timeout_error 60000)) ∧
    (∃ this1, sessions w1 !! 0 = Some this1 ∧ lastActivity this1 = 60020%Z).
Proof.
  destruct (late_close_keeps_the_answer Scenes8.timed_out 0
              {| st_exec := 0; st_timer := 0; out := "ab"; errOut := "warn ";
                 st_closed := false |}
              {| ex_session := 0; ex_call := 1; ex_timeout := 60000;
                 ex_called := true; ex_settled := true |}
              (with_lastActivity 12 Scenes.connected_session)
              (Rejected (timeout_error 60000)) 60020 None)
    as (w1 & H1 & H2 & (this1 & H3 & H4 & _) & _).
  - vm_compute. reflexivity.
  - reflexivity.
  - vm_compute. reflexivity.
  - vm_compute. reflexivity.
  - vm_compute. reflexivity.
  - exists w1. split; [exact H1|]. split; [exact (H2 [] w1 eq_refl)|].
    exists this1. split; [exact H3|exact H4].
Defined.
